(** * Sync-free Adam (torch_xla/amp/syncfree/adam.py) and the benchmark
      latency scraper (hopper/test/scripts/launch_benchmarks.py)

    Shallow embedding.  Tensors are flattened to lists of reals (the
    idealisation of the floating-point elements), Python objects that are
    mutated in place live in an explicit world, and every Python exception
    is a value: a raising computation returns the world reached so far
    together with the exception, because in-place mutations performed
    before a [raise] stay visible to the caller. *)

From Stdlib Require Import Reals Lra Lia Ascii String.
From stdpp Require Import base option list gmap strings.

Local Open Scope string_scope.
Local Open Scope list_scope.

Set Warnings "-clear-no-such-hyp".

(** ** Exceptions and the state-and-exception monad *)

Inductive exn : Type :=
| ValueError (msg : string)
| RuntimeError (msg : string)
| AttributeError (msg : string)
| KeyError (k : string)
| IndexError (msg : string)
| ZeroDivisionError (msg : string).

Inductive result (A : Type) : Type :=
| Ok (a : A)
| Raise (e : exn).
Arguments Ok {A} a.
Arguments Raise {A} e.

(** ** Tensors *)

Abbreviation tensor := (list R).

Definition zeros_like (t : tensor) : tensor := map (fun _ => 0%R) t.
Definition ones_like (t : tensor) : tensor := map (fun _ => 1%R) t.

(** Elementwise binary kernels need operands of one shape; torch raises a
    RuntimeError otherwise.  (Broadcasting is outside the model: a gradient
    always has the shape of its parameter.) *)
Definition size_mismatch : exn :=
  RuntimeError "The size of tensor a must match the size of tensor b".

Definition pointwise (f : R -> R -> R) (a b : tensor) : result tensor :=
  if decide (length a = length b) then Ok (zip_with f a b) else Raise size_mismatch.

Definition pointwise3 (f : R -> R -> R -> R) (a b c : tensor) : result tensor :=
  if decide (length a = length b) then
    if decide (length a = length c) then
      Ok (zip_with (fun x yz => f x (fst yz) (snd yz)) a (zip b c))
    else Raise size_mismatch
  else Raise size_mismatch.

(** [t.mul_(c)] *)
Definition mul_scalar (t : tensor) (c : R) : tensor := map (fun x => (x * c)%R) t.
(** [t.add(other, alpha=a)] and [t.add_(other, alpha=a)] *)
Definition add_alpha (t other : tensor) (a : R) : result tensor :=
  pointwise (fun x y => (x + a * y)%R) t other.
(** [t.addcmul_(t1, t2, value=c)] *)
Definition addcmul (t t1 t2 : tensor) (c : R) : result tensor :=
  pointwise3 (fun x y z => (x + c * y * z)%R) t t1 t2.
(** [t.addcdiv_(t1, t2, value=c)] *)
Definition addcdiv (t t1 t2 : tensor) (c : R) : result tensor :=
  pointwise3 (fun x y z => (x + c * y / z)%R) t t1 t2.
(** [torch.maximum(a, b)] *)
Definition maximum (a b : tensor) : result tensor := pointwise Rmax a b.
(** [t.sqrt()] *)
Definition tsqrt (t : tensor) : tensor := map sqrt t.
(** [t / c] for a Python float [c] *)
Definition div_scalar (t : tensor) (c : R) : tensor := map (fun x => (x / c)%R) t.
(** [t.add_(c)] for a Python float [c] *)
Definition add_scalar (t : tensor) (c : R) : tensor := map (fun x => (x + c)%R) t.
(** [torch.where(cond, a, b)] for a scalar condition *)
Definition where_ (cond : bool) (a b : tensor) : result tensor :=
  pointwise (fun x y => if cond then x else y) a b.

(** Comparison of Python floats. *)
Definition Rleb (x y : R) : bool := if Rle_dec x y then true else false.
Definition Rltb (x y : R) : bool := if Rlt_dec x y then true else false.

(** [math.sqrt] raises on a negative argument. *)
Definition math_sqrt (x : R) : result R :=
  if Rlt_dec x 0 then Raise (ValueError "math domain error") else Ok (sqrt x).

(** Python float division. *)
Definition float_div (x y : R) : result R :=
  if Req_dec_T y 0 then Raise (ZeroDivisionError "float division by zero")
  else Ok (x / y)%R.

(** ** Parameters, optimizer state and the world *)

(** A parameter is identified by its object identity. *)
Definition key := positive.

Record Gradient := mkGradient { gdata : tensor; is_sparse : bool }.

Record Param := mkParam { data : tensor; grad : option Gradient }.

(** The per-parameter dict [self.state[p]]: absent from the map while it is
    the empty dict, otherwise the keys 'step', 'exp_avg', 'exp_avg_sq' and,
    if it was created under amsgrad, 'max_exp_avg_sq'. *)
Record State := mkState {
  step_count : nat;
  exp_avg : tensor;
  exp_avg_sq : tensor;
  max_exp_avg_sq : option tensor
}.

Record Group := mkGroup {
  params : list key;
  lr : R;
  betas : R * R;
  eps : R;
  weight_decay : R;
  amsgrad : bool
}.

Record World := mkWorld {
  heap : key -> Param;          (* the parameter tensors *)
  param_groups : list Group;        (* self.param_groups *)
  state : gmap key State;           (* self.state *)
  pdb_entries : nat                 (* how often the debugger was entered *)
}.

(** The skip signal: a tensor of some shape; [fitem] is its truth value
    when it has a single element. *)
Record FlagTensor := mkFlag { fshape : list nat; fitem : bool }.

Definition M (A : Type) : Type := World -> World * result A.

Definition ret {A} (a : A) : M A := fun w => (w, Ok a).
Definition raise {A} (e : exn) : M A := fun w => (w, Raise e).
Definition bind {A B} (m : M A) (k : A -> M B) : M B :=
  fun w => match m w with
           | (w', Ok a) => k a w'
           | (w', Raise e) => (w', Raise e)
           end.
Definition lift {A} (r : result A) : M A := fun w => (w, r).

Notation "'let*' x := c1 'in' c2" := (bind c1 (fun x => c2))
  (at level 10, x name, c1 at level 100, c2 at level 200).
Notation "c1 ;; c2" := (bind c1 (fun _ => c2))
  (at level 100, c2 at level 200, right associativity).

Definition get_param (p : key) : M Param := fun w => (w, Ok (heap w p)).

Definition set_data (p : key) (t : tensor) : M unit := fun w =>
  (mkWorld (fun q => if decide (q = p) then mkParam t (grad (heap w p)) else heap w q)
           (param_groups w) (state w) (pdb_entries w), Ok tt).

Definition get_state (p : key) : M (option State) := fun w => (w, Ok (state w !! p)).

Definition set_state (p : key) (s : State) : M unit := fun w =>
  (mkWorld (heap w) (param_groups w) (<[p := s]> (state w)) (pdb_entries w), Ok tt).

(** Reading a state tensor through a reference held in one of the lists. *)
Definition deref (field : string) (p : key) : M State :=
  let* s := get_state p in
  match s with
  | Some st => ret st
  | None => raise (KeyError field)
  end.

(** [import pdb; pdb.set_trace()]: control enters the debugger; execution
    is taken to be resumed from there. *)
Definition pdb_set_trace : M unit := fun w =>
  (mkWorld (heap w) (param_groups w) (state w) (S (pdb_entries w)), Ok tt).

(** [xs[i]] *)
Definition index {A} (xs : list A) (i : nat) : M A :=
  match xs !! i with
  | Some x => ret x
  | None => raise (IndexError "list index out of range")
  end.

(** References to the tensors stored in [self.state[p]] are represented by
    the owning key [p]; reading or writing through one goes to the state
    map, so aliased references see each other's in-place updates. *)
Definition read_exp_avg (r : key) : M tensor :=
  let* st := deref "exp_avg" r in ret (exp_avg st).

Definition write_exp_avg (r : key) (t : tensor) : M unit :=
  let* st := deref "exp_avg" r in
  set_state r (mkState (step_count st) t (exp_avg_sq st) (max_exp_avg_sq st)).

Definition read_exp_avg_sq (r : key) : M tensor :=
  let* st := deref "exp_avg_sq" r in ret (exp_avg_sq st).

Definition write_exp_avg_sq (r : key) (t : tensor) : M unit :=
  let* st := deref "exp_avg_sq" r in
  set_state r (mkState (step_count st) (exp_avg st) t (max_exp_avg_sq st)).

Definition read_max_exp_avg_sq (r : key) : M tensor :=
  let* st := deref "max_exp_avg_sq" r in
  match max_exp_avg_sq st with
  | Some t => ret t
  | None => raise (KeyError "max_exp_avg_sq")
  end.

Definition write_max_exp_avg_sq (r : key) (t : tensor) : M unit :=
  let* st := deref "max_exp_avg_sq" r in
  set_state r (mkState (step_count st) (exp_avg st) (exp_avg_sq st) (Some t)).

(** ** Adam.adam_step_py (adam.py, lines 170-216) *)

Section AdamStepPy.
Variables (grads : list tensor) (exp_avgs exp_avg_sqs max_exp_avg_sqs : list key)
          (state_steps : list nat).
Variables (amsgrad_ : bool) (beta1 beta2 lr_ weight_decay_ eps_ : R)
          (found_inf : FlagTensor).

(** The denominator for the second-moment tensor referenced by [r]
    (lines 198-201 and 203-206). *)
Definition denominator (sq : tensor) (step : nat) (bias_correction2 : R) : M tensor :=
  match step with
  | O => ret (ones_like sq)
  | S _ =>
      let* s := lift (math_sqrt bias_correction2) in
      ret (add_scalar (div_scalar (tsqrt sq) s) eps_)
  end.

(** One iteration of the loop body, for [i, param]. *)
Definition adam_param (i : nat) (param : key) : M unit :=
  pdb_set_trace ;;
  let* grad := index grads i in
  let* exp_avg_r := index exp_avgs i in
  let* exp_avg_sq_r := index exp_avg_sqs i in
  let* step := index state_steps i in
  let bias_correction1 := (1 - beta1 ^ step)%R in
  let bias_correction2 := (1 - beta2 ^ step)%R in
  let* grad :=
    (if Req_dec_T weight_decay_ 0 then ret grad
     else
       let* p := get_param param in
       let* decayed := lift (add_alpha grad (data p) weight_decay_) in
       lift (where_ (fitem found_inf) grad decayed)) in
  (if fitem found_inf then ret tt
   else
     let* m := read_exp_avg exp_avg_r in
     let* m' := lift (add_alpha (mul_scalar m beta1) grad (1 - beta1)) in
     write_exp_avg exp_avg_r m') ;;
  (if fitem found_inf then ret tt
   else
     let* v := read_exp_avg_sq exp_avg_sq_r in
     let* v' := lift (addcmul (mul_scalar v beta2) grad grad (1 - beta2)) in
     write_exp_avg_sq exp_avg_sq_r v') ;;
  let* denom :=
    (if amsgrad_ then
       let* max_r := index max_exp_avg_sqs i in
       let* vmax := read_max_exp_avg_sq max_r in
       let* v := read_exp_avg_sq exp_avg_sq_r in
       let* vmax' := lift (maximum vmax v) in
       write_max_exp_avg_sq max_r vmax' ;;
       let* vmax := read_max_exp_avg_sq max_r in
       denominator vmax step bias_correction2
     else
       let* v := read_exp_avg_sq exp_avg_sq_r in
       denominator v step bias_correction2) in
  let* step_size :=
    (match step with
     | O => ret 0%R
     | S _ => lift (float_div lr_ bias_correction1)
     end) in
  if fitem found_inf then
    let* p := get_param param in
    let* m := read_exp_avg exp_avg_r in
    let* p' := lift (add_alpha (data p) (zeros_like m) 1) in
    set_data param p'
  else
    let* p := get_param param in
    let* m := read_exp_avg exp_avg_r in
    let* p' := lift (addcdiv (data p) m denom (- step_size)) in
    set_data param p'.

(** [for i, param in enumerate(params)] *)
Fixpoint adam_loop (i : nat) (ps : list key) : M unit :=
  match ps with
  | [] => ret tt
  | param :: rest => adam_param i param ;; adam_loop (S i) rest
  end.

Definition adam_step_py (ps : list key) : M unit := adam_loop 0 ps.
End AdamStepPy.

(** ** Adam.step (adam.py, lines 59-146) *)

(** The six lists built per group (lines 74-79). *)
Record Lists := mkLists {
  params_with_grad : list key;
  grads : list tensor;
  exp_avgs : list key;
  exp_avg_sqs : list key;
  max_exp_avg_sqs : list key;
  state_steps : list nat
}.

Definition no_lists : Lists := mkLists [] [] [] [] [] [].

Definition sparse_error : exn :=
  RuntimeError "Adam does not support sparse gradients, please consider SparseAdam instead".

(** The state created lazily for a parameter (lines 95-104). *)
Definition fresh_state (group : Group) (p : Param) : State :=
  mkState 0 (zeros_like (data p)) (zeros_like (data p))
          (if amsgrad group then Some (zeros_like (data p)) else None).

(** The body of [for p in group['params']] (lines 83-116). *)
Definition collect_param (group : Group) (found_inf : FlagTensor)
    (acc : Lists) (p : key) : M Lists :=
  let* par := get_param p in
  match grad par with
  | None => ret acc
  | Some g =>
      if is_sparse g then raise sparse_error
      else
        let* st0 := get_state p in
        (match st0 with
         | None => set_state p (fresh_state group par)
         | Some _ => ret tt
         end) ;;
        let* st := deref "exp_avg" p in
        let* maxs :=
          (if amsgrad group then
             match max_exp_avg_sq st with
             | Some _ => ret (max_exp_avg_sqs acc ++ [p])
             | None => raise (KeyError "max_exp_avg_sq")
             end
           else ret (max_exp_avg_sqs acc)) in
        (if fitem found_inf then ret tt
         else set_state p (mkState (step_count st + 1) (exp_avg st) (exp_avg_sq st)
                                   (max_exp_avg_sq st))) ;;
        let* st := deref "step" p in
        ret (mkLists (params_with_grad acc ++ [p]) (grads acc ++ [gdata g])
                     (exp_avgs acc ++ [p]) (exp_avg_sqs acc ++ [p]) maxs
                     (state_steps acc ++ [step_count st]))
  end.

Fixpoint collect (group : Group) (found_inf : FlagTensor)
    (acc : Lists) (ps : list key) : M Lists :=
  match ps with
  | [] => ret acc
  | p :: rest =>
      let* acc' := collect_param group found_inf acc p in
      collect group found_inf acc' rest
  end.

(** The body of [for group in self.param_groups] (lines 74-143). *)
Definition step_group (found_inf : FlagTensor) (group : Group) : M unit :=
  let* l := collect group found_inf no_lists (params group) in
  adam_step_py (grads l) (exp_avgs l) (exp_avg_sqs l) (max_exp_avg_sqs l)
               (state_steps l) (amsgrad group) (fst (betas group)) (snd (betas group))
               (lr group) (weight_decay group) (eps group) found_inf
               (params_with_grad l).

Fixpoint step_groups (found_inf : FlagTensor) (groups : list Group) : M unit :=
  match groups with
  | [] => ret tt
  | group :: rest => step_group found_inf group ;; step_groups found_inf rest
  end.

(** A closure re-evaluates the model: it reads the parameter values,
    attaches fresh gradients and returns the loss. *)
Definition Closure := (key -> tensor) -> (key -> option Gradient) * R.

Definition run_closure (c : Closure) : M R := fun w =>
  let r := c (fun k => data (heap w k)) in
  (mkWorld (fun k => mkParam (data (heap w k)) (fst r k))
           (param_groups w) (state w) (pdb_entries w), Ok (snd r)).

Definition not_scalar_error : exn :=
  ValueError "The found_inf tensor has to be scalar type".

Definition none_shape_error : exn :=
  AttributeError "'NoneType' object has no attribute 'shape'".

(** Lines 67-68; [found_inf] defaults to [None]. *)
Definition check_found_inf (found_inf : option FlagTensor) : M FlagTensor :=
  match found_inf with
  | None => raise none_shape_error
  | Some fi =>
      if decide (length (fshape fi) <> 0) then raise not_scalar_error else ret fi
  end.

Definition get_param_groups : M (list Group) := fun w => (w, Ok (param_groups w)).

Definition step (closure : option Closure) (found_inf : option FlagTensor)
  : M (option R) :=
  let* fi := check_found_inf found_inf in
  let* loss :=
    (match closure with
     | None => ret None
     | Some c => let* l := run_closure c in ret (Some l)
     end) in
  let* groups := get_param_groups in
  step_groups fi groups ;;
  ret loss.

(** A training loop as seen by the optimizer: gradients get attached by a
    backward pass, and [step] is called, possibly raising; the caller may
    catch the exception and go on. *)
Inductive event : Type :=
| Backward (g : key -> option Gradient)
| Step (closure : option Closure) (found_inf : option FlagTensor).

Definition attach (g : key -> option Gradient) (w : World) : World :=
  mkWorld (fun k => mkParam (data (heap w k)) (g k))
          (param_groups w) (state w) (pdb_entries w).

Definition run_event (e : event) (w : World) : World :=
  match e with
  | Backward g => attach g w
  | Step c fi => fst (step c fi w)
  end.

Definition run (es : list event) (w : World) : World :=
  fold_left (fun w e => run_event e w) es w.

(** ** Adam.__init__ (adam.py, lines 38-52) *)

Record Defaults := mkDefaults {
  d_lr : R;
  d_betas : R * R;
  d_eps : R;
  d_weight_decay : R;
  d_amsgrad : bool
}.

Section Construction.
(** The base class constructor [Optimizer.__init__(params, defaults)]
    belongs to torch; it is a parameter of the development. *)
Context {Params Optimizer : Type}.
Variable Optimizer_init : Params -> Defaults -> result Optimizer.

(** The messages are the format strings; the formatted value is left out. *)
Definition Adam_init (params_ : Params) (lr_ : R) (betas_ : R * R) (eps_ : R)
    (weight_decay_ : R) (amsgrad_ : bool) : result Optimizer :=
  if negb (Rleb 0 (lr_)) then
    Raise (ValueError "Invalid learning rate: {}")
  else if negb (Rleb 0 (eps_)) then
    Raise (ValueError "Invalid epsilon value: {}")
  else if negb (Rleb 0 (fst betas_) && Rltb (fst betas_) 1) then
    Raise (ValueError "Invalid beta parameter at index 0: {}")
  else if negb (Rleb 0 (snd betas_) && Rltb (snd betas_) 1) then
    Raise (ValueError "Invalid beta parameter at index 1: {}")
  else if negb (Rleb 0 (weight_decay_)) then
    Raise (ValueError "Invalid weight_decay value: {}")
  else
    Optimizer_init params_
      (mkDefaults lr_ betas_ eps_ weight_decay_ amsgrad_).
End Construction.

(** The keyword defaults of the constructor. *)
Definition default_lr : R := (1 / 1000)%R.
Definition default_betas : R * R := ((9 / 10)%R, (999 / 1000)%R).
Definition default_eps : R := (1 / 100000000)%R.
Definition default_weight_decay : R := 0%R.
Definition default_amsgrad : bool := false.

(** ** launch_benchmarks.py: scraping the latency (lines 37-45) *)

(** Decoded process output is a list of characters; code points are
    restricted to one byte. *)
Definition text := list ascii.

Definition newline : ascii := "010"%char.
Definition space : ascii := " "%char.

(** The characters for which [str.isspace] holds, which are also the ones
    that the regular expression class [\s] matches and [str.strip] removes:
    tab to carriage return, the four separators 28 to 31, the space, NEL
    and the no-break space. *)
Definition isspace (c : ascii) : bool :=
  let n := nat_of_ascii c in
  (((9 <=? n) && (n <=? 13)) || ((28 <=? n) && (n <=? 32))
   || (n =? 133) || (n =? 160))%nat.

(** The regular expressions that occur: literal characters and [\S+]. *)
Inductive re_item : Type :=
| Lit (c : ascii)
| NonSpaces.

Definition literal (s : string) : list re_item := map Lit (list_ascii_of_string s).

(** ["Results: \S+ \S+ \S+ \S+ \S+\n"] *)
Definition results_pattern : list re_item :=
  literal "Results: " ++
  [NonSpaces; Lit space; NonSpaces; Lit space; NonSpaces; Lit space;
   NonSpaces; Lit space; NonSpaces; Lit newline].

(** Greedy [\S+] followed by the continuation [k], with backtracking: the
    longer alternative is tried first.  The result is the matched text. *)
Fixpoint nonspaces_then (k : text -> option text) (s : text) : option text :=
  match s with
  | [] => None
  | c :: s' =>
      if isspace c then None
      else match nonspaces_then k s' with
           | Some m => Some (c :: m)
           | None => (fun m => c :: m) <$> k s'
           end
  end.

(** Match the pattern at the start of [s]. *)
Fixpoint match_here (p : list re_item) (s : text) : option text :=
  match p with
  | [] => Some []
  | Lit c :: p' =>
      match s with
      | c' :: s' => if Ascii.eqb c c' then (fun m => c' :: m) <$> match_here p' s' else None
      | [] => None
      end
  | NonSpaces :: p' => nonspaces_then (match_here p') s
  end.

(** [re.search(p, s)]: the match at the leftmost position that has one;
    the value is [match.group(0)]. *)
Fixpoint re_search (p : list re_item) (s : text) : option text :=
  match match_here p s with
  | Some m => Some m
  | None =>
      match s with
      | [] => None
      | _ :: s' => re_search p s'
      end
  end.

(** [s.split(sep)] for a one-character separator. *)
Fixpoint split (sep : ascii) (s : text) : list text :=
  match s with
  | [] => [[]]
  | c :: s' =>
      if Ascii.eqb c sep then [] :: split sep s'
      else match split sep s' with
           | h :: t => (c :: h) :: t
           | [] => [[c]]
           end
  end.

Fixpoint lstrip (s : text) : text :=
  match s with
  | [] => []
  | c :: s' => if isspace c then lstrip s' else s
  end.

(** [s.strip()] *)
Definition strip (s : text) : text := rev (lstrip (rev (lstrip s))).

(** [xs[-1]] *)
Definition last_item {A} (xs : list A) : result A :=
  match last xs with
  | Some x => Ok x
  | None => Raise (IndexError "list index out of range")
  end.

Definition result_bind {A B} (r : result A) (k : A -> result B) : result B :=
  match r with
  | Ok a => k a
  | Raise e => Raise e
  end.

Definition not_available : text := list_ascii_of_string "N/A".

(** Lines 37-40 (and 41-43): the latency reported for one captured output. *)
Definition latency (out : text) : result text :=
  match re_search results_pattern out with
  | Some m =>
      result_bind (last_item (split space m)) (fun tok => Ok (strip tok))
  | None => Ok not_available
  end.

(** What the driver prints. *)
Inductive printed : Type :=
| Running (model : string) (batch_size seq_len : nat) (xla : bool)
| Captured (out : text)
| Columns
| Aggregate (model : string) (seq_len batch_size : nat) (xla_latency native_latency : text).

(** The bytes that a process writes to its standard output. *)
Definition bytes : Type := list Byte.byte.

(** Printing and raising: what has been printed so far, and the outcome.
    What was printed before an exception stays printed. *)
Definition Out (A : Type) : Type := list printed * result A.

Definition print (p : printed) : Out unit := ([p], Ok tt).
Definition out_ret {A} (a : A) : Out A := ([], Ok a).
Definition out_lift {A} (r : result A) : Out A := ([], r).
Definition out_bind {A B} (m : Out A) (k : A -> Out B) : Out B :=
  match m with
  | (o, Ok a) => (o ++ fst (k a), snd (k a))
  | (o, Raise e) => (o, Raise e)
  end.

Notation "'let+' x := c1 'in' c2" := (out_bind c1 (fun x => c2))
  (at level 10, x name, c1 at level 100, c2 at level 200).
Notation "c1 ;+ c2" := (out_bind c1 (fun _ => c2))
  (at level 100, c2 at level 200, right associativity).

Section Sweep.
(** The external benchmark: [subprocess.run] of run_benchmark.py with the
    given transformers directory, model, batch size, sequence length and
    [--tpu] flag; its value is the captured standard output, [.stdout], as
    bytes. *)
Variable run_benchmark : string -> string -> nat -> nat -> bool -> bytes.
(** [bytes.decode()] is Python's: it gives the text, or raises
    UnicodeDecodeError on bytes that are not valid UTF-8.  It is a
    parameter of the development. *)
Variable decode : bytes -> result text.
Variable transformers_dir : string.

(** The body of the innermost loop (lines 17-45). *)
Definition sweep_body (model : string) (seq_len batch_size : nat) : Out unit :=
  print (Running model batch_size seq_len true) ;+
  let+ xla_out :=
    out_lift (decode (run_benchmark transformers_dir model batch_size seq_len true)) in
  print (Captured xla_out) ;+
  print (Running model batch_size seq_len false) ;+
  let+ native_out :=
    out_lift (decode (run_benchmark transformers_dir model batch_size seq_len false)) in
  print (Captured native_out) ;+
  let+ xla_latency := out_lift (latency xla_out) in
  let+ native_latency := out_lift (latency native_out) in
  print Columns ;+
  print (Aggregate model seq_len batch_size xla_latency native_latency).

Fixpoint for_each {A} (body : A -> Out unit) (xs : list A) : Out unit :=
  match xs with
  | [] => out_ret tt
  | x :: rest => body x ;+ for_each body rest
  end.

(** Lines 14-16. *)
Definition sweep (models : list string) (sequence_lengths batch_sizes : list nat)
  : Out unit :=
  for_each (fun model =>
    for_each (fun seq_len =>
      for_each (fun batch_size => sweep_body model seq_len batch_size)
               batch_sizes)
             sequence_lengths)
           models.
End Sweep.

(** ** Vocabulary of the specification *)

(** The Adam rule of the specification, per element: step count [t] after
    the increment, decay rates [b1] and [b2], learning rate [lr_], weight
    decay [wd] and numerical floor [eps_]. *)
Section AdamRule.
Variables (lr_ b1 b2 eps_ wd : R) (t : nat).

(** the gradient, augmented by [wd] times the parameter when [wd] is nonzero *)
Definition rule_grad (theta g : R) : R :=
  if Req_dec_T wd 0 then g else (g + wd * theta)%R.
(** m <- b1 m + (1 - b1) g *)
Definition rule_m (m g : R) : R := (b1 * m + (1 - b1) * g)%R.
(** v <- b2 v + (1 - b2) g^2 *)
Definition rule_v (v g : R) : R := (b2 * v + (1 - b2) * g ^ 2)%R.
(** parameter <- parameter - (lr / (1 - b1^t)) m / (sqrt(chosen) / sqrt(1 - b2^t) + eps) *)
Definition rule_param (theta m chosen : R) : R :=
  (theta - (lr_ / (1 - b1 ^ t)) * m / (sqrt chosen / sqrt (1 - b2 ^ t) + eps_))%R.
End AdamRule.

(** The state record of a parameter as an observer sees it: a record that
    has not been created yet reads as the one lazy initialisation creates. *)
Definition steps (w : World) (k : key) : nat :=
  match state w !! k with
  | Some s => step_count s
  | None => 0
  end.

Definition first_moment (w : World) (k : key) : tensor :=
  match state w !! k with
  | Some s => exp_avg s
  | None => zeros_like (data (heap w k))
  end.

Definition second_moment (w : World) (k : key) : tensor :=
  match state w !! k with
  | Some s => exp_avg_sq s
  | None => zeros_like (data (heap w k))
  end.

Definition value (w : World) (k : key) : tensor := data (heap w k).

(** All the parameter objects the optimizer knows, in iteration order. *)
Definition all_params (w : World) : list key :=
  concat (map params (param_groups w)).

(** The world in which the loop over the groups starts. *)
Definition after_closure (closure : option Closure) (w : World) : World :=
  match closure with
  | None => w
  | Some c => fst (run_closure c w)
  end.

(** The skip signal is set. *)
Definition skip_set (found_inf : option FlagTensor) : Prop :=
  exists fi, found_inf = Some fi /\ fitem fi = true.

(** The newline-terminated lines of a text, without their newline; what
    follows the last newline is not a line. *)
Definition lines (s : text) : list text := removelast (split newline s).

(** Whether the search finds the pattern in a line followed by its newline.
    A device of the proofs; what it is for a line to match is said by
    [matching_line], without the search. *)
Definition found_in_line (l : text) : bool :=
  match re_search results_pattern (l ++ [newline]) with
  | Some _ => true
  | None => false
  end.

(** [s.split()]: the maximal runs of non-whitespace characters. *)
Fixpoint tokens_from (cur : text) (s : text) : list text :=
  match s with
  | [] => match cur with [] => [] | _ => [rev cur] end
  | c :: s' =>
      if isspace c then
        match cur with
        | [] => tokens_from [] s'
        | _ => rev cur :: tokens_from [] s'
        end
      else tokens_from (c :: cur) s'
  end.

Definition tokens (s : text) : list text := tokens_from [] s.

Definition last_token (l : text) : option text := last (tokens l).

(** ** Definitions used by the proofs *)

(** A postcondition on the world and outcome of a computation. *)
Definition wp {A} (m : M A) (Q : World -> result A -> Prop) (w : World) : Prop :=
  Q (fst (m w)) (snd (m w)).

(** A relation between the worlds before and after that a computation
    establishes whatever its outcome. *)
Definition pres {A} (R : World -> World -> Prop) (m : M A) : Prop :=
  forall w, R w (fst (m w)).

(** Nothing an observer of values, moments and step counts can see has
    changed, and no state record has disappeared. *)
Definition unchanged (w w' : World) : Prop :=
  forall k,
    value w' k = value w k /\ steps w' k = steps w k /\
    first_moment w' k = first_moment w k /\
    second_moment w' k = second_moment w k /\
    (is_Some (state w !! k) -> is_Some (state w' !! k)).

(** The groups and the gradients are as before, and so is everything about
    the parameters outside [K]. *)
Definition framed (K : list key) (w w' : World) : Prop :=
  param_groups w' = param_groups w /\
  (forall k, grad (heap w' k) = grad (heap w k)) /\
  (forall k, k ∉ K -> heap w' k = heap w k /\ state w' !! k = state w !! k).

(** [framed], and moreover no step count has changed and no state record
    has appeared or disappeared. *)
Definition confined (K : list key) (w w' : World) : Prop :=
  param_groups w' = param_groups w /\
  (forall k, grad (heap w' k) = grad (heap w k) /\
             steps w' k = steps w k /\
             (is_Some (state w' !! k) <-> is_Some (state w !! k))) /\
  (forall k, k ∉ K -> heap w' k = heap w k /\ state w' !! k = state w !! k).

(** The parameter tensors are as before, and so are the moment tensors of
    every state record that existed; step counts have not decreased. *)
Definition moments_kept (w w' : World) : Prop :=
  (forall k, heap w' k = heap w k) /\
  param_groups w' = param_groups w /\
  pdb_entries w' = pdb_entries w /\
  forall k s, state w !! k = Some s ->
    exists s', state w' !! k = Some s' /\ exp_avg s' = exp_avg s /\
               exp_avg_sq s' = exp_avg_sq s /\
               max_exp_avg_sq s' = max_exp_avg_sq s /\
               step_count s <= step_count s'.

Definition grows (w w' : World) : Prop := forall k, steps w k <= steps w' k.

(** The state record of [p] that the loop over a group's parameters works
    on, and the record it leaves. *)
Definition lazy_state (group : Group) (w : World) (p : key) : State :=
  match state w !! p with
  | Some s => s
  | None => fresh_state group (heap w p)
  end.

Definition bump (fi : FlagTensor) (s : State) : State :=
  if fitem fi then s
  else mkState (step_count s + 1) (exp_avg s) (exp_avg_sq s) (max_exp_avg_sq s).

Definition with_state (w : World) (st : gmap key State) : World :=
  mkWorld (heap w) (param_groups w) st (pdb_entries w).

Definition push (acc : Lists) (p : key) (g : tensor) (ams : bool) (t : nat) : Lists :=
  mkLists (params_with_grad acc ++ [p]) (grads acc ++ [g])
          (exp_avgs acc ++ [p]) (exp_avg_sqs acc ++ [p])
          (if ams then max_exp_avg_sqs acc ++ [p] else max_exp_avg_sqs acc)
          (state_steps acc ++ [t]).

(** [collect_param] in direct style. *)
Definition collect_param_outcome (group : Group) (fi : FlagTensor) (acc : Lists)
    (p : key) (w : World) : World * result Lists :=
  match grad (heap w p) with
  | None => (w, Ok acc)
  | Some g =>
      if is_sparse g then (w, Raise sparse_error)
      else
        let s0 := lazy_state group w p in
        if amsgrad group && negb (bool_decide (is_Some (max_exp_avg_sq s0))) then
          (with_state w (<[p := s0]> (state w)), Raise (KeyError "max_exp_avg_sq"))
        else
          (with_state w (<[p := bump fi s0]> (state w)),
           Ok (push acc p (gdata g) (amsgrad group) (step_count (bump fi s0))))
  end.

(** The keys that [index] may deliver. *)
Definition at_index (l : list key) (i : nat) : list key := option_list (l !! i).

(** The parameters of a list that have a gradient attached. *)
Definition with_grad (w : World) (ps : list key) : list key :=
  filter (fun k => is_Some (grad (heap w k))) ps.

(** The gradient tensor attached to a parameter. *)
Definition grad_of (w : World) (k : key) : tensor :=
  match grad (heap w k) with
  | Some g => gdata g
  | None => []
  end.

(** The lists that a run of [collect] over [ks] appends. *)
Definition extend (acc : Lists) (ks : list key) (G : key -> tensor)
    (T : key -> nat) (ams : bool) : Lists :=
  mkLists (params_with_grad acc ++ ks) (grads acc ++ map G ks)
          (exp_avgs acc ++ ks) (exp_avg_sqs acc ++ ks)
          (max_exp_avg_sqs acc ++ (if ams then ks else []))
          (state_steps acc ++ map T ks).

(** The maximum of the second moments, where it is kept. *)
Definition max_moment (s : State) : tensor :=
  match max_exp_avg_sq s with
  | Some t => t
  | None => []
  end.

(** One parameter has been updated by the Adam rule, elementwise: from the
    tensor [p] and record [s] to [p'] and [s'], under the gradient [g] and
    the step count [t]. *)
Definition adam_updated (ams : bool) (b1 b2 lr_ wd eps_ : R) (g : tensor) (t : nat)
    (p : tensor) (s : State) (p' : tensor) (s' : State) : Prop :=
  step_count s' = step_count s /\
  length g = length p /\ length (exp_avg s) = length p /\
  length (exp_avg_sq s) = length p /\
  length p' = length p /\ length (exp_avg s') = length p /\
  length (exp_avg_sq s') = length p /\
  (ams = true -> length (max_moment s) = length p /\ length (max_moment s') = length p) /\
  forall i theta gi m v,
    p !! i = Some theta -> g !! i = Some gi ->
    exp_avg s !! i = Some m -> exp_avg_sq s !! i = Some v ->
    let g' := rule_grad wd theta gi in
    let m' := rule_m b1 m g' in
    let v' := rule_v b2 v g' in
    exp_avg s' !! i = Some m' /\
    exp_avg_sq s' !! i = Some v' /\
    if ams then
      exists vmax, max_moment s !! i = Some vmax /\
        max_moment s' !! i = Some (Rmax vmax v') /\
        p' !! i = Some (rule_param lr_ b1 b2 eps_ t theta m' (Rmax vmax v'))
    else
      p' !! i = Some (rule_param lr_ b1 b2 eps_ t theta m' v').

(** The lists only ever hold parameters of [K]. *)
Definition lists_within (K : list key) (l : Lists) : Prop :=
  params_with_grad l ⊆ K /\ exp_avgs l ⊆ K /\ exp_avg_sqs l ⊆ K /\
  max_exp_avg_sqs l ⊆ K.

(** The running maximum of the second moment as an observer sees it. *)
Definition running_max (w : World) (k : key) : tensor :=
  match state w !! k with
  | Some s => max_moment s
  | None => zeros_like (data (heap w k))
  end.

(** The hyperparameters that the constructor accepts. *)
Definition valid_hyperparameters (lr_ : R) (betas_ : R * R) (eps_ wd : R) : Prop :=
  (0 <= lr_)%R /\ (0 <= eps_)%R /\ (0 <= wd)%R /\
  (0 <= fst betas_ < 1)%R /\ (0 <= snd betas_ < 1)%R.

(** ** Concrete worlds *)

(** Scalar skip signals. *)
Definition unset : FlagTensor := mkFlag [] false.
Definition set_ : FlagTensor := mkFlag [] true.

(** The end-to-end scenario of the specification: one parameter of value
    1.0 with gradient 0.1 and the default hyperparameters. *)
Definition the_param : key := 1%positive.
Definition other_param : key := 2%positive.

Definition scenario_group : Group :=
  mkGroup [the_param] default_lr default_betas default_eps default_weight_decay
          default_amsgrad.

Definition scenario : World :=
  mkWorld (fun _ => mkParam [1%R] (Some (mkGradient [(1 / 10)%R] false)))
          [scenario_group] ∅ 0.

(** The same parameter without a gradient attached. *)
Definition no_gradient : World :=
  mkWorld (fun _ => mkParam [1%R] None) [scenario_group] ∅ 0.

(** Two parameters in one group, the second one with a sparse gradient. *)
Definition pair_group : Group :=
  mkGroup [the_param; other_param] default_lr default_betas default_eps
          default_weight_decay default_amsgrad.

Definition sparse_second : World :=
  mkWorld (fun k => mkParam [1%R]
                      (Some (mkGradient [(1 / 10)%R] (bool_decide (k = other_param)))))
          [pair_group] ∅ 0.

(** A base constructor that accepts everything. *)
Definition accept_all (params_ : list key) (d : Defaults) : result (list key * Defaults) :=
  Ok (params_, d).

(** ** Worlds on which [step] runs to completion *)

Definition valid_betas (group : Group) : Prop :=
  (0 <= fst (betas group) < 1)%R /\ (0 <= snd (betas group) < 1)%R.

(** The state record has the shape of the parameter, and under amsgrad it
    holds the running maximum. *)
Definition consistent (ams : bool) (p : Param) (s : State) : Prop :=
  length (exp_avg s) = length (data p) /\
  length (exp_avg_sq s) = length (data p) /\
  (ams = true ->
   exists vm, max_exp_avg_sq s = Some vm /\ length vm = length (data p)).

(** The gradient, if any, is dense and has the shape of the parameter, and
    the state record, if any, is consistent. *)
Definition ready (ams : bool) (p : Param) (os : option State) : Prop :=
  (forall g, grad p = Some g ->
             is_sparse g = false /\ length (gdata g) = length (data p)) /\
  (forall s, os = Some s -> consistent ams p s).

Definition steppable (w : World) : Prop :=
  NoDup (all_params w) /\
  forall group, group ∈ param_groups w ->
    valid_betas group /\
    forall k, k ∈ params group -> ready (amsgrad group) (heap w k) (state w !! k).

(** What one step takes off the parameter in the scenario. *)
Definition scenario_delta : R := (1 / 10000 / (1 / 10 + default_eps))%R.

(** What the loop over a group's parameters needs of a parameter to get
    past it: no sparse gradient, and under amsgrad a state record, if there
    is one, that holds the running maximum. *)
Definition gatherable (ams : bool) (p : Param) (os : option State) : Prop :=
  (forall g, grad p = Some g -> is_sparse g = false) /\
  (ams = true -> forall s, os = Some s -> is_Some (max_exp_avg_sq s)).

(** ** Vocabulary for the latency scraper *)

(** The texts that a pattern denotes. *)
Fixpoint denotes (p : list re_item) (m : text) : Prop :=
  match p with
  | [] => m = []
  | Lit c :: p' => exists m', m = c :: m' /\ denotes p' m'
  | NonSpaces :: p' =>
      exists t m', t <> [] /\ Forall (fun c => isspace c = false) t /\
                   m = t ++ m' /\ denotes p' m'
  end.

(** Every [\S+] of the pattern is followed by a literal whitespace
    character, which makes the greedy choice the only one. *)
Fixpoint delimited (p : list re_item) : bool :=
  match p with
  | [] => true
  | Lit _ :: p' => delimited p'
  | NonSpaces :: p' =>
      match p' with
      | Lit c :: _ => isspace c && delimited p'
      | _ => false
      end
  end.

(** [sep.join(parts)] *)
Fixpoint join (sep : ascii) (parts : list text) : text :=
  match parts with
  | [] => []
  | [x] => x
  | x :: rest => x ++ sep :: join sep rest
  end.

(** [c] put in front of the first part. *)
Definition cons_head (c : ascii) (parts : list text) : list text :=
  match parts with
  | h :: t => (c :: h) :: t
  | [] => [[c]]
  end.

(** Sample outputs. *)
Definition sample_output : text :=
  list_ascii_of_string "warming up" ++ [newline] ++
  list_ascii_of_string "   Results: bert 8 128 0.0123 s" ++ [newline] ++
  list_ascii_of_string "Results: bert 8 128 0.5 s" ++ [newline].

(** The pattern up to its fourth token; the rest is the space, the fifth
    token and the newline. *)
Definition results_head : list re_item :=
  literal "Results: " ++
  [NonSpaces; Lit space; NonSpaces; Lit space; NonSpaces; Lit space; NonSpaces].

(** No literal of the pattern is the character [c0]. *)
Definition avoids (c0 : ascii) (p : list re_item) : bool :=
  forallb (fun i => match i with
                    | Lit c => negb (Ascii.eqb c c0)
                    | NonSpaces => true
                    end) p.

(** The debugger has not been entered in between. *)
Definition same_pdb (w w' : World) : Prop := pdb_entries w' = pdb_entries w.

(** ** Further relations between the worlds before and after *)

(** The gradients are as before, nothing about a parameter that has no
    gradient attached has changed, and no state record has disappeared. *)
Definition spares (w w' : World) : Prop :=
  (forall k, grad (heap w' k) = grad (heap w k)) /\
  (forall k, grad (heap w k) = None ->
             heap w' k = heap w k /\ state w' !! k = state w !! k) /\
  (forall k, is_Some (state w !! k) -> is_Some (state w' !! k)).

(** The loss that a call of [step] returns. *)
Definition loss_of (closure : option Closure) (w : World) : option R :=
  match closure with
  | None => None
  | Some c => Some (snd (c (fun k => data (heap w k))))
  end.

(** Two parameters in one group, only the first with a gradient attached. *)
Definition half_attached : World :=
  mkWorld (fun k => mkParam [1%R]
                      (if bool_decide (k = the_param)
                       then Some (mkGradient [(1 / 10)%R] false) else None))
          [pair_group] ∅ 0.

Definition missing_max_error : exn := KeyError "max_exp_avg_sq".

(** A parameter whose state record was created without amsgrad, in a group
    that has amsgrad switched on. *)
Definition amsgrad_group : Group :=
  mkGroup [the_param] default_lr default_betas default_eps default_weight_decay true.

Definition amsgrad_switched_on : World :=
  mkWorld (fun _ => mkParam [1%R] (Some (mkGradient [(1 / 10)%R] false)))
          [amsgrad_group]
          {[ the_param := mkState 1 [(1 / 100)%R] [(1 / 100000)%R] None ]} 0.


(** ** Adam.adam_step_cpp (adam.py, lines 149-168) *)

Section AdamStepCpp.
(** The fused kernel [torch_xla._XLAC._xla_adam_optimizer_step] is native
    code outside the repository; it is a parameter of the development.
    Its arguments are, in order: found_inf, step, param, grad, exp_avg,
    exp_avg_sq, max_exp_avg_sq, amsgrad, beta1, beta2, lr, weight_decay,
    eps. *)
Variable xla_adam_optimizer_step :
  FlagTensor -> nat -> key -> tensor -> key -> key -> key -> bool ->
  R -> R -> R -> R -> R -> M unit.
Variables (grads : list tensor) (exp_avgs exp_avg_sqs max_exp_avg_sqs : list key)
          (state_steps : list nat).
Variables (amsgrad_ : bool) (beta1 beta2 lr_ weight_decay_ eps_ : R)
          (found_inf : FlagTensor).

(** One iteration of the loop body, for [i, param]. *)
Definition cpp_param (i : nat) (param : key) : M unit :=
  let* grad := index grads i in
  let* exp_avg_r := index exp_avgs i in
  let* exp_avg_sq_r := index exp_avg_sqs i in
  let* step := index state_steps i in
  let* max_exp_avg_sq_r := index max_exp_avg_sqs i in
  xla_adam_optimizer_step found_inf step param grad exp_avg_r exp_avg_sq_r
                          max_exp_avg_sq_r amsgrad_ beta1 beta2 lr_ weight_decay_ eps_.

(** [for i, param in enumerate(params)] *)
Fixpoint cpp_loop (i : nat) (ps : list key) : M unit :=
  match ps with
  | [] => ret tt
  | param :: rest => cpp_param i param ;; cpp_loop (S i) rest
  end.

Definition adam_step_cpp (ps : list key) : M unit := cpp_loop 0 ps.
End AdamStepCpp.

Definition index_error : exn := IndexError "list index out of range".

(** A kernel that would change everything it is handed. *)
Definition marking_kernel (found_inf : FlagTensor) (step : nat) (param : key)
    (grad : tensor) (exp_avg_r exp_avg_sq_r max_exp_avg_sq_r : key) (amsgrad_ : bool)
    (beta1 beta2 lr_ weight_decay_ eps_ : R) : M unit :=
  set_data param [] ;; pdb_set_trace.


(** ** Adam.__setstate__ (adam.py, lines 54-57) *)

(** The values held by a param group, which is a dict from option names to
    values: the list under 'params', the floats, the pair under 'betas'
    and the flag under 'amsgrad'. *)
Inductive pyval : Type :=
| PyBool (b : bool)
| PyFloat (x : R)
| PyPair (x y : R)
| PyParams (ps : list key).

Abbreviation group_dict := (gmap string pyval).

(** [d.setdefault(k, v)], for the dict it leaves. *)
Definition setdefault (d : group_dict) (k : string) (v : pyval) : group_dict :=
  match d !! k with
  | Some _ => d
  | None => <[k := v]> d
  end.

(** [d[k]] *)
Definition getitem (d : group_dict) (k : string) : result pyval :=
  match d !! k with
  | Some v => Ok v
  | None => Raise (KeyError k)
  end.

Section SetState.
(** [Optimizer.__setstate__(state)] belongs to torch; it is a parameter of
    the development: the param groups that the restored optimizer holds,
    or the exception raised. *)
Context {Pickled : Type}.
Variable Optimizer_setstate : Pickled -> result (list group_dict).

(** The param groups of the optimizer after [__setstate__]. *)
Definition Adam_setstate (st : Pickled) : result (list group_dict) :=
  result_bind (Optimizer_setstate st) (fun groups =>
  Ok (map (fun group => setdefault group "amsgrad" (PyBool false)) groups)).
End SetState.

(** A group pickled by a version that had no amsgrad option, and one that
    has it switched on. *)
Definition old_group : group_dict :=
  {[ "lr" := PyFloat default_lr; "eps" := PyFloat default_eps ]}.

Definition new_group : group_dict :=
  {[ "lr" := PyFloat default_lr; "amsgrad" := PyBool true ]}.


(** ** More vocabulary for the latency scraper *)

(** A non-empty run of non-whitespace characters, what [\S+] matches. *)
Definition token (t : text) : Prop :=
  t <> [] /\ Forall (fun c => isspace c = false) t.

(** The texts of the form [Results: t1 t2 t3 t4 t5\n]. *)
Definition results_line (t1 t2 t3 t4 t5 : text) : text :=
  list_ascii_of_string "Results: " ++
  t1 ++ space :: t2 ++ space :: t3 ++ space :: t4 ++ space :: t5 ++ [newline].

(** [out] has an occurrence of such a text after [pre], with fifth token
    [t5]. *)
Definition occurs_at (pre t5 out : text) : Prop :=
  exists t1 t2 t3 t4 post,
    token t1 /\ token t2 /\ token t3 /\ token t4 /\ token t5 /\
    out = pre ++ results_line t1 t2 t3 t4 t5 ++ post.

(** ** What the specification says of the reported latency *)

(** A line matches the five-token pattern when, with its newline, it ends
    in a text of the form [Results: t1 t2 t3 t4 t5\n]. *)
Definition matching_line (l : text) : Prop :=
  exists pre t1 t2 t3 t4 t5,
    token t1 /\ token t2 /\ token t3 /\ token t4 /\ token t5 /\
    l ++ [newline] = pre ++ results_line t1 t2 t3 t4 t5.

(** The latency that the specification reports for a captured output: the
    last whitespace-delimited token of the first line that matches, or the
    sentinel when no line matches. *)
Definition reports (out tok : text) : Prop :=
  (exists before l after,
     lines out = before ++ l :: after /\ matching_line l /\
     (forall l', l' ∈ before -> ~ matching_line l') /\
     last_token l = Some tok) \/
  ((forall l, l ∈ lines out -> ~ matching_line l) /\ tok = not_available).

(** The text of a captured output that decodes. *)
Definition decoded (decode : bytes -> result text) (b : bytes) : text :=
  match decode b with
  | Ok t => t
  | Raise _ => []
  end.

(** What a sweep that runs to its end prints according to the
    specification: one block per triple, in order, ending in the row with
    the two reported latencies, [rep] giving the latency reported for a
    captured output. *)
Definition expected_output (rep : text -> text)
    (run_benchmark : string -> string -> nat -> nat -> bool -> bytes)
    (decode : bytes -> result text)
    (transformers_dir : string) (models : list string)
    (sequence_lengths batch_sizes : list nat) : list printed :=
  flat_map (fun model =>
    flat_map (fun seq_len =>
      flat_map (fun batch_size =>
        let xla_out :=
          decoded decode (run_benchmark transformers_dir model batch_size seq_len true) in
        let native_out :=
          decoded decode (run_benchmark transformers_dir model batch_size seq_len false) in
        [Running model batch_size seq_len true; Captured xla_out;
         Running model batch_size seq_len false; Captured native_out;
         Columns;
         Aggregate model seq_len batch_size (rep xla_out) (rep native_out)])
      batch_sizes)
    sequence_lengths)
  models.

(** The latency that the code extracts, as a function of the output. *)
Definition extracted (out : text) : text :=
  match latency out with
  | Ok tok => tok
  | Raise _ => []
  end.

(** A parameter on which the first unskipped call is the first update:
    step count 0 and zero moments, as for a parameter that has no state
    record yet or whose record was created by skipped calls. *)
Definition untouched_moments (ams : bool) (w : World) (k : key) : Prop :=
  steps w k = 0 /\
  first_moment w k = zeros_like (value w k) /\
  second_moment w k = zeros_like (value w k) /\
  (ams = true -> running_max w k = zeros_like (value w k)).

(** The scenario with a zero gradient. *)
Definition zero_gradient : World :=
  mkWorld (fun _ => mkParam [1%R] (Some (mkGradient [0%R] false)))
          [scenario_group] ∅ 0.

(** * Reasoning about monadic code *)

Lemma wp_bind {A B} (m : M A) (k : A -> M B) Q w :
  wp m (fun w' r => match r with
                    | Ok a => wp (k a) Q w'
                    | Raise e => Q w' (Raise e)
                    end) w ->
  wp (bind m k) Q w.
Proof. unfold wp, bind. by destruct (m w) as [w' [a|e]]. Qed.

Lemma wp_ret {A} (a : A) Q w : Q w (Ok a) -> wp (ret a) Q w.
Proof. done. Qed.

Lemma wp_raise {A} e (Q : World -> result A -> Prop) w :
  Q w (Raise e) -> wp (raise e) Q w.
Proof. done. Qed.

Lemma wp_lift {A} (r : result A) Q w : Q w r -> wp (lift r) Q w.
Proof. done. Qed.

Lemma wp_get_param p Q w : Q w (Ok (heap w p)) -> wp (get_param p) Q w.
Proof. done. Qed.

Lemma wp_get_state p Q w : Q w (Ok (state w !! p)) -> wp (get_state p) Q w.
Proof. done. Qed.

Lemma wp_set_state p s Q w :
  Q (mkWorld (heap w) (param_groups w) (<[p := s]> (state w)) (pdb_entries w)) (Ok tt) ->
  wp (set_state p s) Q w.
Proof. done. Qed.

Lemma wp_set_data p t Q w :
  Q (mkWorld (fun q => if decide (q = p) then mkParam t (grad (heap w p)) else heap w q)
             (param_groups w) (state w) (pdb_entries w)) (Ok tt) ->
  wp (set_data p t) Q w.
Proof. done. Qed.

Lemma wp_pdb Q w :
  Q (mkWorld (heap w) (param_groups w) (state w) (S (pdb_entries w))) (Ok tt) ->
  wp pdb_set_trace Q w.
Proof. done. Qed.

Lemma wp_index {A} (xs : list A) i Q w :
  match xs !! i with
  | Some x => Q w (Ok x)
  | None => Q w (Raise (IndexError "list index out of range"))
  end -> wp (index xs i) Q w.
Proof. unfold index. by destruct (xs !! i). Qed.

Lemma wp_deref f p Q w :
  match state w !! p with
  | Some st => Q w (Ok st)
  | None => Q w (Raise (KeyError f))
  end -> wp (deref f p) Q w.
Proof. unfold deref, wp, bind, get_state. simpl. by destruct (state w !! p). Qed.

Lemma wp_run {A} (m : M A) Q w w' r : wp m Q w -> m w = (w', r) -> Q w' r.
Proof. unfold wp. intros H E. by rewrite E in H. Qed.

Lemma run_wp {A} (m : M A) (Q : World -> result A -> Prop) w :
  (forall w' r, m w = (w', r) -> Q w' r) -> wp m Q w.
Proof. unfold wp. intros H. apply H. by destruct (m w). Qed.

Ltac wp_proj := cbn [state heap param_groups pdb_entries fst snd] in *.

Ltac wp_lookup :=
  repeat match goal with
    | |- context [<[?a := _]> _ !! ?a] => rewrite lookup_insert_eq
    | |- context [<[?a := _]> _ !! ?b] =>
        destruct (decide (a = b)) as [->|?];
        [rewrite lookup_insert_eq | rewrite lookup_insert_ne by done]
    end.

Ltac wp_case x :=
  first
   [ match goal with H : x = _ |- _ => rewrite H end
   | destruct x eqn:? ].

Ltac wp_step :=
  cbv beta iota zeta; wp_proj;
  lazymatch goal with
  | |- wp (bind _ _) _ _ => apply wp_bind
  | |- wp (ret _) _ _ => apply wp_ret
  | |- wp (raise _) _ _ => apply wp_raise
  | |- wp (lift ?r) _ _ => apply wp_lift
  | |- wp (get_param _) _ _ => apply wp_get_param
  | |- wp (get_state _) _ _ => apply wp_get_state
  | |- wp (set_state _ _) _ _ => apply wp_set_state
  | |- wp (set_data _ _) _ _ => apply wp_set_data
  | |- wp pdb_set_trace _ _ => apply wp_pdb
  | |- wp (index _ _) _ _ => apply wp_index
  | |- wp (deref _ _) _ _ => apply wp_deref; wp_proj; wp_lookup
  | |- wp (read_exp_avg _) _ _ => unfold read_exp_avg
  | |- wp (write_exp_avg _ _) _ _ => unfold write_exp_avg
  | |- wp (read_exp_avg_sq _) _ _ => unfold read_exp_avg_sq
  | |- wp (write_exp_avg_sq _ _) _ _ => unfold write_exp_avg_sq
  | |- wp (read_max_exp_avg_sq _) _ _ => unfold read_max_exp_avg_sq
  | |- wp (write_max_exp_avg_sq _ _) _ _ => unfold write_max_exp_avg_sq
  | |- wp (denominator _ _ _ _) _ _ => unfold denominator
  | |- wp (match ?x with _ => _ end) _ _ => wp_case x
  | |- match ?x with _ => _ end => wp_case x
  end.

Ltac wp_go := repeat wp_step; cbv beta iota zeta; wp_proj.

Lemma bind_Ok {A B} (m : M A) (k : A -> M B) w w' b :
  bind m k w = (w', Ok b) ->
  exists w1 a, m w = (w1, Ok a) /\ k a w1 = (w', Ok b).
Proof. unfold bind. destruct (m w) as [w1 [a|e]]; [eauto | done]. Qed.

Lemma bind_run {A B} (m : M A) (k : A -> M B) w w1 a :
  m w = (w1, Ok a) -> bind m k w = k a w1.
Proof. unfold bind. by intros ->. Qed.

Lemma bind_raise {A B} (m : M A) (k : A -> M B) w w1 e :
  m w = (w1, Raise e) -> bind m k w = (w1, Raise e).
Proof. unfold bind. by intros ->. Qed.

Section Pres.
Context (R : World -> World -> Prop) `{!Reflexive R, !Transitive R}.

Lemma pres_bind {A B} (m : M A) (k : A -> M B) :
  pres R m -> (forall a, pres R (k a)) -> pres R (bind m k).
Proof.
  intros Hm Hk w. unfold bind. specialize (Hm w).
  destruct (m w) as [w1 [a|e]]; simpl in *; [|done].
  etrans; [exact Hm | apply Hk].
Qed.

Lemma pres_bind_index {A B} (xs : list A) i (k : A -> M B) :
  (forall x, xs !! i = Some x -> pres R (k x)) -> pres R (bind (index xs i) k).
Proof.
  intros Hk w. unfold bind, index. destruct (xs !! i) as [x|] eqn:E; simpl; [|done].
  by apply Hk.
Qed.

Lemma pres_ret {A} (a : A) : pres R (ret a).
Proof. by intros w. Qed.
Lemma pres_raise {A} e : pres R (@raise A e).
Proof. by intros w. Qed.
Lemma pres_lift {A} (r : result A) : pres R (lift r).
Proof. by intros w. Qed.
Lemma pres_get_param p : pres R (get_param p).
Proof. by intros w. Qed.
Lemma pres_get_state p : pres R (get_state p).
Proof. by intros w. Qed.
Lemma pres_index {A} (xs : list A) i : pres R (index xs i).
Proof. intros w. unfold index. by destruct (xs !! i). Qed.
Lemma pres_deref f p : pres R (deref f p).
Proof. intros w. unfold deref, bind, get_state. simpl. by destruct (state w !! p). Qed.
Lemma pres_read_exp_avg p : pres R (read_exp_avg p).
Proof. apply pres_bind; [apply pres_deref | intros; apply pres_ret]. Qed.
Lemma pres_read_exp_avg_sq p : pres R (read_exp_avg_sq p).
Proof. apply pres_bind; [apply pres_deref | intros; apply pres_ret]. Qed.
Lemma pres_read_max_exp_avg_sq p : pres R (read_max_exp_avg_sq p).
Proof.
  apply pres_bind; [apply pres_deref | intros a].
  destruct (max_exp_avg_sq a); [apply pres_ret | apply pres_raise].
Qed.
Lemma pres_denominator e sq n bc : pres R (denominator e sq n bc).
Proof.
  destruct n; simpl; [apply pres_ret|].
  apply pres_bind; [apply pres_lift | intros; apply pres_ret].
Qed.
End Pres.

Lemma pres_weaken {A} (R R' : World -> World -> Prop) (m : M A) :
  (forall w w', R w w' -> R' w w') -> pres R m -> pres R' m.
Proof. intros H Hm w. apply H, Hm. Qed.

Lemma pres_run {A} R (m : M A) w w' r : pres R m -> m w = (w', r) -> R w w'.
Proof. intros H E. specialize (H w). by rewrite E in H. Qed.

Ltac pres_tc := try (lazymatch goal with
                     | |- Reflexive _ => apply _
                     | |- Transitive _ => apply _
                     end).

Ltac pres_step :=
  lazymatch goal with
  | |- pres _ (bind (index _ _) _) => apply pres_bind_index; pres_tc; intros ? ?
  | |- pres _ (bind _ _) => apply pres_bind; pres_tc; [|intros ?]
  | |- pres _ (ret _) => apply pres_ret; pres_tc
  | |- pres _ (raise _) => apply pres_raise; pres_tc
  | |- pres _ (lift _) => apply pres_lift; pres_tc
  | |- pres _ (get_param _) => apply pres_get_param; pres_tc
  | |- pres _ (get_state _) => apply pres_get_state; pres_tc
  | |- pres _ (index _ _) => apply pres_index; pres_tc
  | |- pres _ (deref _ _) => apply pres_deref; pres_tc
  | |- pres _ (read_exp_avg _) => apply pres_read_exp_avg; pres_tc
  | |- pres _ (read_exp_avg_sq _) => apply pres_read_exp_avg_sq; pres_tc
  | |- pres _ (read_max_exp_avg_sq _) => apply pres_read_max_exp_avg_sq; pres_tc
  | |- pres _ (denominator _ _ _ _) => apply pres_denominator; pres_tc
  | |- pres _ (match ?x with _ => _ end) => destruct x eqn:?
  end.

Ltac views := unfold value, steps, first_moment, second_moment in *; wp_proj.

(** * The relations are preorders *)

#[local] Instance unchanged_refl : Reflexive unchanged.
Proof. intros w k. by repeat split. Qed.

#[local] Instance unchanged_trans : Transitive unchanged.
Proof.
  intros w1 w2 w3 H1 H2 k.
  destruct (H1 k) as (? & ? & ? & ? & ?), (H2 k) as (? & ? & ? & ? & ?).
  repeat split; try congruence. auto.
Qed.

#[local] Instance framed_refl K : Reflexive (framed K).
Proof. intros w. by repeat split. Qed.

#[local] Instance framed_trans K : Transitive (framed K).
Proof.
  intros w1 w2 w3 (G1 & A1 & F1) (G2 & A2 & F2). split; [congruence|]. split.
  - intros k. by rewrite A2, A1.
  - intros k Hk. destruct (F1 k Hk), (F2 k Hk). split; congruence.
Qed.

Lemma framed_weaken K K' w w' : K ⊆ K' -> framed K w w' -> framed K' w w'.
Proof.
  intros HK (G & A & F). split; [done|]. split; [done|].
  intros k Hk. apply F. intros Hin. by apply Hk, HK.
Qed.

#[local] Instance confined_refl K : Reflexive (confined K).
Proof. intros w. by repeat split. Qed.

#[local] Instance confined_trans K : Transitive (confined K).
Proof.
  intros w1 w2 w3 (G1 & A1 & F1) (G2 & A2 & F2). split; [congruence|]. split.
  - intros k. destruct (A1 k) as (? & ? & E1), (A2 k) as (? & ? & E2).
    split; [congruence|]. split; [congruence|]. by rewrite E2, E1.
  - intros k Hk. destruct (F1 k Hk), (F2 k Hk). split; congruence.
Qed.

Lemma confined_weaken K K' w w' : K ⊆ K' -> confined K w w' -> confined K' w w'.
Proof.
  intros HK (G & A & F). split; [done|]. split; [done|].
  intros k Hk. apply F. intros Hin. by apply Hk, HK.
Qed.

Lemma confined_framed K w w' : confined K w w' -> framed K w w'.
Proof. intros (G & A & F). split; [done|]. split; [|done]. intros k. apply A. Qed.

Lemma confined_grows K w w' : confined K w w' -> grows w w'.
Proof. intros (G & A & F) k. destruct (A k) as (_ & -> & _). done. Qed.

#[local] Instance moments_kept_refl : Reflexive moments_kept.
Proof. intros w. repeat split; try done. intros k s Hs. exists s. by repeat split. Qed.

#[local] Instance moments_kept_trans : Transitive moments_kept.
Proof.
  intros w1 w2 w3 (H1 & G1 & D1 & S1) (H2 & G2 & D2 & S2).
  split; [intros k; by rewrite H2, H1|]. split; [congruence|]. split; [congruence|].
  intros k s Hs. destruct (S1 k s Hs) as (s' & Hs' & ? & ? & ? & ?).
  destruct (S2 k s' Hs') as (s'' & Hs'' & ? & ? & ? & ?).
  exists s''. repeat split; try congruence. lia.
Qed.

Lemma moments_kept_grows w w' : moments_kept w w' -> grows w w'.
Proof.
  intros (_ & _ & _ & S) k. unfold steps. destruct (state w !! k) as [s|] eqn:E; [|lia].
  destruct (S k s E) as (s' & -> & _ & _ & _ & ?). done.
Qed.

#[local] Instance grows_refl : Reflexive grows.
Proof. by intros w k. Qed.

#[local] Instance grows_trans : Transitive grows.
Proof. intros w1 w2 w3 H1 H2 k. specialize (H1 k). specialize (H2 k). lia. Qed.


(** * Tensor kernels *)

Lemma lookup_map {A B} (f : A -> B) (l : list A) i : map f l !! i = f <$> l !! i.
Proof. apply (list_lookup_fmap f l i). Qed.

Lemma pointwise_Ok f (a b c : list R) :
  pointwise f a b = Ok c -> length a = length b /\ c = zip_with f a b.
Proof. unfold pointwise. case_decide; [|done]. by intros [= <-]. Qed.

Lemma pointwise3_Ok f (a b c d : list R) :
  pointwise3 f a b c = Ok d ->
  length a = length b /\ length a = length c /\
  d = zip_with (fun x yz => f x (fst yz) (snd yz)) a (zip b c).
Proof. unfold pointwise3. repeat case_decide; try done. by intros [= <-]. Qed.

Lemma pointwise_length f (a b c : list R) : pointwise f a b = Ok c -> length c = length a.
Proof. intros [E ->]%pointwise_Ok. rewrite length_zip_with. lia. Qed.

Lemma pointwise3_length f (a b c d : list R) : pointwise3 f a b c = Ok d -> length d = length a.
Proof.
  intros (E1 & E2 & ->)%pointwise3_Ok. rewrite length_zip_with, length_zip_with. lia.
Qed.

Lemma pointwise_lookup f (a b c : list R) i x y :
  pointwise f a b = Ok c -> a !! i = Some x -> b !! i = Some y -> c !! i = Some (f x y).
Proof.
  intros [_ ->]%pointwise_Ok Ha Hb. apply lookup_zip_with_Some. by exists x, y.
Qed.

Lemma pointwise3_lookup f (a b c d : list R) i x y z :
  pointwise3 f a b c = Ok d -> a !! i = Some x -> b !! i = Some y -> c !! i = Some z ->
  d !! i = Some (f x y z).
Proof.
  intros (_ & _ & ->)%pointwise3_Ok Ha Hb Hc.
  apply lookup_zip_with_Some. exists x, (y, z). split; [done|]. split; [done|].
  apply lookup_zip_with_Some. by exists y, z.
Qed.

Lemma zip_with_zeros (a b : list R) :
  length a = length b -> zip_with (fun x y => (x + 1 * y)%R) a (zeros_like b) = a.
Proof.
  revert b; induction a as [|x a IH]; intros [|y b]; simpl; intros H; try done.
  f_equal; [lra | apply IH; lia].
Qed.

Lemma add_zeros_inv (a b c : list R) : add_alpha a (zeros_like b) 1 = Ok c -> c = a.
Proof.
  unfold add_alpha, pointwise, zeros_like. rewrite length_map.
  case_decide; [|done]. intros [= <-]. by apply zip_with_zeros.
Qed.

Lemma length_zeros_like (t : list R) : length (zeros_like t) = length t.
Proof. apply length_map. Qed.

Lemma math_sqrt_Ok x s : math_sqrt x = Ok s -> s = sqrt x.
Proof. unfold math_sqrt. destruct (Rlt_dec x 0); [done|]. by intros [= <-]. Qed.

Lemma float_div_Ok x y q : float_div x y = Ok q -> q = (x / y)%R.
Proof. unfold float_div. destruct (Req_dec_T y 0); [done|]. by intros [= <-]. Qed.

(** * The loop over the parameters of a group *)

Lemma world_eta w : mkWorld (heap w) (param_groups w) (state w) (pdb_entries w) = w.
Proof. by destruct w. Qed.

Lemma collect_param_unfold group fi acc p w :
  collect_param group fi acc p w = collect_param_outcome group fi acc p w.
Proof.
  enough (wp (collect_param group fi acc p)
             (fun w' r => (w', r) = collect_param_outcome group fi acc p w) w) as H.
  { unfold wp in H. rewrite <- H. by destruct (collect_param _ _ _ _ _). }
  unfold collect_param, collect_param_outcome, lazy_state, bump, push, with_state.
  wp_go.
  all: repeat match goal with H : ?x = _ |- context [?x] => rewrite H end; simpl.
  all: rewrite ?insert_insert_eq; try rewrite (insert_id (state w)) by done.
  all: rewrite ?world_eta; done.
Qed.

Lemma bump_fields fi s :
  exp_avg (bump fi s) = exp_avg s /\ exp_avg_sq (bump fi s) = exp_avg_sq s /\
  max_exp_avg_sq (bump fi s) = max_exp_avg_sq s /\
  step_count (bump fi s) = if fitem fi then step_count s else S (step_count s).
Proof. unfold bump. destruct (fitem fi); simpl; repeat split; lia. Qed.

Lemma moments_kept_insert w p s :
  (forall s0, state w !! p = Some s0 ->
     exp_avg s = exp_avg s0 /\ exp_avg_sq s = exp_avg_sq s0 /\
     max_exp_avg_sq s = max_exp_avg_sq s0 /\ step_count s0 <= step_count s) ->
  moments_kept w (with_state w (<[p := s]> (state w))).
Proof.
  intros H. repeat split; try done. intros k s0 Hs0. simpl.
  destruct (decide (p = k)) as [->|].
  - rewrite lookup_insert_eq. exists s. destruct (H s0 Hs0) as (? & ? & ? & ?). done.
  - rewrite lookup_insert_ne by done. exists s0. done.
Qed.

Lemma collect_param_kept group fi acc p : pres moments_kept (collect_param group fi acc p).
Proof.
  intros w. rewrite collect_param_unfold. unfold collect_param_outcome.
  destruct (grad (heap w p)) as [g|]; [|done].
  destruct (is_sparse g); [done|].
  destruct (_ && _); simpl; apply moments_kept_insert; intros s0 Hs0;
    unfold lazy_state; rewrite Hs0; [by repeat split|].
  destruct (bump_fields fi s0) as (-> & -> & -> & ->). repeat split.
  destruct (fitem fi); lia.
Qed.

Lemma collect_param_framed group fi acc p : pres (framed [p]) (collect_param group fi acc p).
Proof.
  intros w. rewrite collect_param_unfold. unfold collect_param_outcome.
  destruct (grad (heap w p)) as [g|]; [|done].
  destruct (is_sparse g); [done|].
  destruct (_ && _); simpl; (split; [done|]; split; [done|]);
    intros k Hk; simpl; (split; [done|]);
    rewrite lookup_insert_ne; [done| |done|]; intros ->; apply Hk; set_solver.
Qed.

Lemma unchanged_insert w p s :
  step_count s = steps w p -> exp_avg s = first_moment w p ->
  exp_avg_sq s = second_moment w p ->
  unchanged w (with_state w (<[p := s]> (state w))).
Proof.
  intros H1 H2 H3 k. views. simpl. destruct (decide (p = k)) as [->|].
  - rewrite lookup_insert_eq. by repeat split.
  - rewrite lookup_insert_ne by done. by repeat split.
Qed.

Lemma collect_param_skip group fi acc p :
  fitem fi = true -> pres unchanged (collect_param group fi acc p).
Proof.
  intros Hfi w. rewrite collect_param_unfold. unfold collect_param_outcome.
  destruct (grad (heap w p)) as [g|]; [|done].
  destruct (is_sparse g); [done|].
  unfold bump. rewrite Hfi.
  destruct (_ && _); simpl; apply unchanged_insert;
    unfold lazy_state; views; by destruct (state w !! p).
Qed.

Lemma collect_pres R `{!Reflexive R, !Transitive R} group fi :
  (forall acc p, pres R (collect_param group fi acc p)) ->
  forall ps acc, pres R (collect group fi acc ps).
Proof.
  intros H ps. induction ps as [|p ps IH]; intros acc; simpl.
  - by apply pres_ret.
  - apply pres_bind; [done | apply H | intros acc'; apply IH].
Qed.

Lemma collect_framed group fi ps acc : pres (framed ps) (collect group fi acc ps).
Proof.
  revert acc. induction ps as [|p ps IH]; intros acc; simpl.
  - apply pres_ret; apply _.
  - apply pres_bind; [apply _| |intros acc'].
    + eapply pres_weaken; [|apply collect_param_framed].
      intros w w'. apply framed_weaken. set_solver.
    + eapply pres_weaken; [|apply IH].
      intros w w'. apply framed_weaken. set_solver.
Qed.


(** * The update loop, whatever it is handed *)

Lemma at_index_subseteq (l : list key) i : at_index l i ⊆ l.
Proof.
  unfold at_index. intros k. destruct (l !! i) as [x|] eqn:E; simpl; [|set_solver].
  intros ->%list_elem_of_singleton. by eapply list_elem_of_lookup_2.
Qed.

Lemma confined_set_state K p s s' w :
  p ∈ K -> state w !! p = Some s -> step_count s' = step_count s ->
  confined K w (mkWorld (heap w) (param_groups w) (<[p := s']> (state w)) (pdb_entries w)).
Proof.
  intros Hp Hs Hc. split; [done|]. split.
  - intros k. views. destruct (decide (p = k)) as [->|].
    + rewrite lookup_insert_eq, Hs. by repeat split.
    + by rewrite lookup_insert_ne.
  - intros k Hk. simpl. rewrite lookup_insert_ne; [done|]. by intros ->.
Qed.

Lemma confined_write_exp_avg K p t : p ∈ K -> pres (confined K) (write_exp_avg p t).
Proof.
  intros Hp w. unfold write_exp_avg, deref, bind, get_state, set_state, ret, raise. simpl.
  destruct (state w !! p) eqn:E; simpl; [|done]. by eapply confined_set_state.
Qed.

Lemma confined_write_exp_avg_sq K p t : p ∈ K -> pres (confined K) (write_exp_avg_sq p t).
Proof.
  intros Hp w. unfold write_exp_avg_sq, deref, bind, get_state, set_state, ret, raise. simpl.
  destruct (state w !! p) eqn:E; simpl; [|done]. by eapply confined_set_state.
Qed.

Lemma confined_write_max_exp_avg_sq K p t :
  p ∈ K -> pres (confined K) (write_max_exp_avg_sq p t).
Proof.
  intros Hp w. unfold write_max_exp_avg_sq, deref, bind, get_state, set_state, ret, raise.
  simpl. destruct (state w !! p) eqn:E; simpl; [|done]. by eapply confined_set_state.
Qed.

Lemma confined_set_data K p t : p ∈ K -> pres (confined K) (set_data p t).
Proof.
  intros Hp w. unfold set_data. simpl. split; [done|]. split.
  - intros k. views. case_decide; by subst.
  - intros k Hk. simpl. case_decide; [by subst|done].
Qed.

Lemma confined_pdb K : pres (confined K) pdb_set_trace.
Proof. intros w. by repeat split. Qed.

Ltac at_index_mem :=
  unfold at_index;
  repeat match goal with
    | H : _ !! _ = Some _ |- _ => rewrite H; clear H
    end;
  simpl; set_solver.

Lemma adam_param_confined gr ea eas mx ss ams b1 b2 l wd e fi i p :
  pres (confined (p :: at_index ea i ++ at_index eas i ++ at_index mx i))
       (adam_param gr ea eas mx ss ams b1 b2 l wd e fi i p).
Proof.
  unfold adam_param.
  repeat first
    [ pres_step
    | apply confined_pdb
    | apply confined_write_exp_avg
    | apply confined_write_exp_avg_sq
    | apply confined_write_max_exp_avg_sq
    | apply confined_set_data ].
  all: at_index_mem.
Qed.

Lemma adam_loop_confined gr ea eas mx ss ams b1 b2 l wd e fi K ps :
  ps ⊆ K -> ea ⊆ K -> eas ⊆ K -> mx ⊆ K ->
  forall i, pres (confined K) (adam_loop gr ea eas mx ss ams b1 b2 l wd e fi i ps).
Proof.
  intros Hps Hea Heas Hmx. induction ps as [|p ps IH]; intros i; simpl.
  - apply pres_ret; apply _.
  - apply pres_bind; [apply _| |intros _; apply IH; set_solver].
    eapply pres_weaken; [|apply adam_param_confined].
    intros w w'. apply confined_weaken.
    pose proof (at_index_subseteq ea i). pose proof (at_index_subseteq eas i).
    pose proof (at_index_subseteq mx i). set_solver.
Qed.

(** * The update loop when the skip signal is set *)

Lemma unchanged_pdb : pres unchanged pdb_set_trace.
Proof. intros w k. by repeat split. Qed.

Lemma unchanged_write_max_exp_avg_sq p t : pres unchanged (write_max_exp_avg_sq p t).
Proof.
  intros w. unfold write_max_exp_avg_sq, deref, bind, get_state, set_state, ret, raise.
  simpl. destruct (state w !! p) as [s|] eqn:E; simpl; [|done].
  intros k. views. destruct (decide (p = k)) as [->|].
  - rewrite lookup_insert_eq, E. by repeat split.
  - rewrite lookup_insert_ne by done. by repeat split.
Qed.

Lemma unchanged_zero_delta p r :
  pres unchanged
    (let* p0 := get_param p in
     let* m := read_exp_avg r in
     let* p' := lift (add_alpha (data p0) (zeros_like m) 1) in
     set_data p p').
Proof.
  intros w. unfold read_exp_avg, deref, bind, get_param, get_state, set_data, lift, ret, raise.
  simpl. destruct (state w !! r) as [s|]; simpl; [|done].
  destruct (add_alpha _ _ _) as [c|] eqn:E; simpl; [|done].
  apply add_zeros_inv in E. subst c.
  intros k. views. case_decide; subst; by repeat split.
Qed.

Lemma adam_param_skip gr ea eas mx ss ams b1 b2 l wd e fi i p :
  fitem fi = true ->
  pres unchanged (adam_param gr ea eas mx ss ams b1 b2 l wd e fi i p).
Proof.
  intros Hfi. unfold adam_param. rewrite Hfi. cbv beta iota.
  repeat first
    [ apply unchanged_zero_delta
    | pres_step
    | apply unchanged_pdb
    | apply unchanged_write_max_exp_avg_sq ].
Qed.

Lemma adam_loop_pres R `{!Reflexive R, !Transitive R} gr ea eas mx ss ams b1 b2 l wd e fi :
  (forall i p, pres R (adam_param gr ea eas mx ss ams b1 b2 l wd e fi i p)) ->
  forall ps i, pres R (adam_loop gr ea eas mx ss ams b1 b2 l wd e fi i ps).
Proof.
  intros H ps. induction ps as [|p ps IH]; intros i; simpl.
  - by apply pres_ret.
  - apply pres_bind; [done | apply H | intros _; apply IH].
Qed.

(** * One group *)

Lemma collect_within K group fi ps :
  ps ⊆ K ->
  forall acc w w' l,
    lists_within K acc -> collect group fi acc ps w = (w', Ok l) -> lists_within K l.
Proof.
  induction ps as [|p ps IH]; intros Hps acc w w' l Hacc; simpl.
  - by intros [= _ <-].
  - intros (w1 & acc' & E1 & E2)%bind_Ok. eapply IH; [set_solver| |exact E2].
    rewrite collect_param_unfold in E1. unfold collect_param_outcome in E1.
    destruct (grad (heap w p)) as [g|]; [|by simplify_eq].
    destruct (is_sparse g); [done|]. destruct (_ && _); [done|].
    simplify_eq. destruct Hacc as (? & ? & ? & ?).
    unfold lists_within, push; simpl. destruct (amsgrad group); set_solver.
Qed.

Lemma step_group_framed fi group : pres (framed (params group)) (step_group fi group).
Proof.
  intros w. unfold step_group, bind.
  destruct (collect _ _ _ _ w) as [w1 [l|e]] eqn:E; simpl.
  - assert (lists_within (params group) l) as (? & ? & ? & ?).
    { eapply collect_within; [done| |exact E]. unfold lists_within, no_lists. set_solver. }
    etrans; [eapply (pres_run _ _ _ _ _ (collect_framed _ _ _ _) E)|].
    apply confined_framed. by apply adam_loop_confined.
  - eapply (pres_run _ _ _ _ _ (collect_framed _ _ _ _) E).
Qed.

Lemma step_group_grows fi group : pres grows (step_group fi group).
Proof.
  unfold step_group. apply pres_bind; [apply _| |intros l].
  - apply collect_pres; [apply _..|]. intros acc p.
    eapply pres_weaken; [apply moments_kept_grows | apply collect_param_kept].
  - unfold adam_step_py. apply adam_loop_pres; [apply _..|]. intros i p.
    eapply pres_weaken; [apply confined_grows | apply adam_param_confined].
Qed.

Lemma step_group_skip fi group :
  fitem fi = true -> pres unchanged (step_group fi group).
Proof.
  intros Hfi. unfold step_group. apply pres_bind; [apply _| |intros l].
  - apply collect_pres; [apply _..|]. intros acc p. by apply collect_param_skip.
  - unfold adam_step_py. apply adam_loop_pres; [apply _..|]. intros i p.
    by apply adam_param_skip.
Qed.

(** * All the groups, and [step] *)

Lemma step_groups_pres R `{!Reflexive R, !Transitive R} fi :
  (forall group, pres R (step_group fi group)) ->
  forall groups, pres R (step_groups fi groups).
Proof.
  intros H groups. induction groups as [|g gs IH]; simpl.
  - by apply pres_ret.
  - apply pres_bind; [done | apply H | intros _; apply IH].
Qed.

Lemma step_groups_framed fi groups :
  pres (framed (concat (map params groups))) (step_groups fi groups).
Proof.
  induction groups as [|g gs IH]; simpl.
  - apply pres_ret; apply _.
  - apply pres_bind; [apply _| |intros _].
    + eapply pres_weaken; [|apply step_group_framed].
      intros w w'. apply framed_weaken. set_solver.
    + eapply pres_weaken; [|apply IH].
      intros w w'. apply framed_weaken. set_solver.
Qed.

Lemma step_unfold closure fi w :
  step closure (Some fi) w =
  if decide (length (fshape fi) <> 0) then (w, Raise not_scalar_error)
  else
    let w0 := after_closure closure w in
    let loss := match closure with
                | None => None
                | Some c => Some (snd (c (fun k => data (heap w k))))
                end in
    match step_groups fi (param_groups w) w0 with
    | (w', Ok _) => (w', Ok loss)
    | (w', Raise e) => (w', Raise e)
    end.
Proof.
  unfold step, check_found_inf, bind, raise, ret, get_param_groups, after_closure.
  case_decide; [done|]. destruct closure as [c|]; simpl.
  - by destruct (step_groups _ _ _) as [w' [[]|e]].
  - by destruct (step_groups _ _ _) as [w' [[]|e]].
Qed.

Lemma step_none closure w : step closure None w = (w, Raise none_shape_error).
Proof. done. Qed.

Lemma unchanged_after_closure closure w : unchanged w (after_closure closure w).
Proof. destruct closure; intros k; by repeat split. Qed.

Lemma grows_after_closure closure w : grows w (after_closure closure w).
Proof. destruct closure; by intros k. Qed.

Lemma step_grows closure found_inf : pres grows (step closure found_inf).
Proof.
  intros w. destruct found_inf as [fi|]; [|by rewrite step_none].
  rewrite step_unfold. case_decide; [done|]. cbv zeta.
  pose proof (step_groups_pres grows fi (step_group_grows fi) (param_groups w)
                (after_closure closure w)) as Hrun.
  destruct (step_groups _ _ _) as [w' [[]|e]]; simpl in *;
    (etrans; [apply grows_after_closure | exact Hrun]).
Qed.

Lemma step_skip closure found_inf :
  skip_set found_inf -> pres unchanged (step closure found_inf).
Proof.
  intros (fi & -> & Hfi) w. rewrite step_unfold. case_decide; [done|]. cbv zeta.
  pose proof (step_groups_pres unchanged fi (fun g => step_group_skip fi g Hfi)
                (param_groups w) (after_closure closure w)) as Hrun.
  destruct (step_groups _ _ _) as [w' [[]|e]]; simpl in *;
    (etrans; [apply unchanged_after_closure | exact Hrun]).
Qed.

Lemma unchanged_attach g w : unchanged w (attach g w).
Proof. intros k. by repeat split. Qed.

Lemma grows_attach g w : grows w (attach g w).
Proof. by intros k. Qed.

Lemma run_app es1 es2 w : run (es1 ++ es2) w = run es2 (run es1 w).
Proof. unfold run. apply fold_left_app. Qed.

Lemma run_grows es w : grows w (run es w).
Proof.
  revert w. induction es as [|e es IH]; intros w; [done|].
  change (run (e :: es) w) with (run es (run_event e w)).
  etrans; [|apply IH]. destruct e as [g|c fi]; simpl.
  - apply grows_attach.
  - apply step_grows.
Qed.

Lemma run_skip es w :
  (forall c fi, Step c fi ∈ es -> skip_set fi) -> unchanged w (run es w).
Proof.
  revert w. induction es as [|e es IH]; intros w Hes; [done|].
  change (run (e :: es) w) with (run es (run_event e w)).
  etrans; [|apply IH; intros c fi Hin; apply (Hes c fi); set_solver].
  destruct e as [g|c fi]; simpl.
  - apply unchanged_attach.
  - apply step_skip. apply (Hes c). set_solver.
Qed.


(** * The update loop on the lists that [step] builds *)

Lemma length_mul_scalar (t : list R) c : length (mul_scalar t c) = length t.
Proof. apply length_map. Qed.

Lemma lookup_mul_scalar (t : list R) c i x :
  t !! i = Some x -> mul_scalar t c !! i = Some (x * c)%R.
Proof. intros H. unfold mul_scalar. rewrite lookup_map. by rewrite H. Qed.

Lemma lookup_denominator (t : list R) c e i x :
  t !! i = Some x ->
  add_scalar (div_scalar (tsqrt t) c) e !! i = Some (sqrt x / c + e)%R.
Proof.
  intros H. unfold add_scalar, div_scalar, tsqrt. rewrite !lookup_map.
  by rewrite H.
Qed.

Lemma length_denominator (t : list R) c e :
  length (add_scalar (div_scalar (tsqrt t) c) e) = length t.
Proof. unfold add_scalar, div_scalar, tsqrt. by rewrite !length_map. Qed.

Lemma adam_updated_intro (ams : bool) b1 b2 l wd e (g : list R) t (p : list R) s
    (g' m' v' den p' : list R) s' :
  (if Req_dec_T wd 0 then g' = g
   else exists dec, add_alpha g p wd = Ok dec /\ where_ false g dec = Ok g') ->
  add_alpha (mul_scalar (exp_avg s) b1) g' (1 - b1) = Ok m' ->
  addcmul (mul_scalar (exp_avg_sq s) b2) g' g' (1 - b2) = Ok v' ->
  (if ams then
     exists vm vm', max_exp_avg_sq s = Some vm /\ maximum vm v' = Ok vm' /\
       max_exp_avg_sq s' = Some vm' /\
       den = add_scalar (div_scalar (tsqrt vm') (sqrt (1 - b2 ^ t))) e
   else den = add_scalar (div_scalar (tsqrt v') (sqrt (1 - b2 ^ t))) e) ->
  addcdiv p m' den (- (l / (1 - b1 ^ t))) = Ok p' ->
  step_count s' = step_count s -> exp_avg s' = m' -> exp_avg_sq s' = v' ->
  adam_updated ams b1 b2 l wd e g t p s p' s'.
Proof.
  intros Hg' Hm' Hv' Hden Hp' Hstep Em Ev.
  pose proof (pointwise_Ok _ _ _ _ Hm') as [Lm _].
  pose proof (pointwise_length _ _ _ _ Hm') as Lm'.
  pose proof (pointwise3_Ok _ _ _ _ _ Hv') as (Lv & _ & _).
  pose proof (pointwise3_length _ _ _ _ _ Hv') as Lv'.
  pose proof (pointwise3_Ok _ _ _ _ _ Hp') as (Lp & Lpd & _).
  pose proof (pointwise3_length _ _ _ _ _ Hp') as Lp'.
  rewrite length_mul_scalar in Lm, Lm', Lv, Lv'.
  assert (length g' = length g /\
          forall i theta gi, p !! i = Some theta -> g !! i = Some gi ->
                             g' !! i = Some (rule_grad wd theta gi)) as [Lg Hg'i].
  { unfold rule_grad. destruct (Req_dec_T wd 0) as [E|E].
    - subst g'. split; [done|]. by intros i theta gi _ ->.
    - destruct Hg' as (dec & Hdec & Hwh). split.
      + by apply pointwise_length in Hwh.
      + intros i theta gi Hth Hgi.
        eapply (pointwise_lookup _ _ _ _ _ _ _ Hwh Hgi).
        eapply (pointwise_lookup _ _ _ _ _ _ _ Hdec Hgi Hth). }
  assert (forall i theta gi m, p !! i = Some theta -> g !! i = Some gi ->
            exp_avg s !! i = Some m ->
            m' !! i = Some (rule_m b1 m (rule_grad wd theta gi))) as Hmi.
  { intros i theta gi m Hth Hgi Hm.
    rewrite (pointwise_lookup _ _ _ _ _ _ _ Hm' (lookup_mul_scalar _ b1 _ _ Hm)
               (Hg'i i theta gi Hth Hgi)).
    f_equal. unfold rule_m. ring. }
  assert (forall i theta gi v, p !! i = Some theta -> g !! i = Some gi ->
            exp_avg_sq s !! i = Some v ->
            v' !! i = Some (rule_v b2 v (rule_grad wd theta gi))) as Hvi.
  { intros i theta gi v Hth Hgi Hv.
    rewrite (pointwise3_lookup _ _ _ _ _ _ _ _ _ Hv' (lookup_mul_scalar _ b2 _ _ Hv)
               (Hg'i i theta gi Hth Hgi) (Hg'i i theta gi Hth Hgi)).
    f_equal. unfold rule_v. ring. }
  assert (forall i theta m'i c, p !! i = Some theta -> m' !! i = Some m'i ->
            den !! i = Some (sqrt c / sqrt (1 - b2 ^ t) + e)%R ->
            p' !! i = Some (rule_param l b1 b2 e t theta m'i c)) as Hpi.
  { intros i theta m'i c Hth Hm Hd.
    rewrite (pointwise3_lookup _ _ _ _ _ _ _ _ _ Hp' Hth Hm Hd).
    f_equal. unfold rule_param, Rdiv. ring. }
  destruct ams.
  - destruct Hden as (vm & vm' & Hvm & Hmax & Hvm' & ->).
    pose proof (pointwise_Ok _ _ _ _ Hmax) as [Lvm _].
    pose proof (pointwise_length _ _ _ _ Hmax) as Lvm'.
    rewrite length_denominator in Lpd.
    unfold adam_updated, max_moment. rewrite Hvm, Hvm', Em, Ev.
    repeat split; try congruence; try lia; [eauto | eauto | ].
    destruct (lookup_lt_is_Some_2 vm i) as [vmax Hvmax].
    { rewrite Lvm, Lv', Lv, Lg. by eapply lookup_lt_Some. }
    exists vmax. split; [done|].
    pose proof (pointwise_lookup _ _ _ _ _ _ _ Hmax Hvmax (Hvi _ _ _ _ H H0 H2)) as Hmx.
    split; [done|]. apply Hpi; eauto using lookup_denominator.
  - subst den. rewrite length_denominator in Lpd.
    unfold adam_updated. rewrite Em, Ev.
    repeat split; try congruence; try lia; [eauto | eauto | ].
    apply Hpi; eauto using lookup_denominator.
Qed.

Ltac clean_state :=
  cbn [step_count exp_avg exp_avg_sq max_exp_avg_sq data grad] in *;
  repeat match goal with
    | H : math_sqrt _ = Ok _ |- _ => apply math_sqrt_Ok in H as ->
    | H : float_div _ _ = Ok _ |- _ => apply float_div_Ok in H as ->
    | H : Some _ = Some _ |- _ => injection H as <-
    end.

Lemma adam_param_update gr ea eas mx ss ams b1 b2 l wd e fi i k g t s w :
  gr !! i = Some g -> ea !! i = Some k -> eas !! i = Some k ->
  (ams = true -> mx !! i = Some k) -> ss !! i = Some (S t) ->
  fitem fi = false -> state w !! k = Some s ->
  wp (adam_param gr ea eas mx ss ams b1 b2 l wd e fi i k)
     (fun w' r => r = Ok tt ->
        exists s', state w' !! k = Some s' /\
          adam_updated ams b1 b2 l wd e g (S t) (data (heap w k)) s
                       (data (heap w' k)) s') w.
Proof.
  intros Hg Hea Heas Hmx Hss Hfi Hs. unfold adam_param. rewrite Hfi.
  destruct ams; [specialize (Hmx eq_refl)|clear Hmx].
  all: wp_go.
  all: intros [=].
  all: rewrite lookup_insert_eq; eexists; split; [reflexivity|].
  all: rewrite decide_True by done; clean_state.
  all: eapply adam_updated_intro; [..|reflexivity|reflexivity|reflexivity]; try eassumption.
  all: try (destruct (Req_dec_T wd 0); [done|by eauto]).
  all: try (destruct (Req_dec_T wd 0); [reflexivity|done]).
  all: try reflexivity.
  all: try (by repeat eexists).
Qed.


Lemma with_grad_cons w p ps :
  with_grad w (p :: ps) =
  match grad (heap w p) with
  | Some _ => p :: with_grad w ps
  | None => with_grad w ps
  end.
Proof.
  unfold with_grad. destruct (grad (heap w p)) eqn:E.
  - rewrite filter_cons_True; [done|]. by rewrite E.
  - rewrite filter_cons_False; [done|]. rewrite E. by intros [? ?].
Qed.

Lemma with_grad_subseteq w ps : with_grad w ps ⊆ ps.
Proof.
  unfold with_grad. intros k H.
  by apply (list_elem_of_filter (fun k => is_Some (grad (heap w k)))) in H as [_ ?].
Qed.

Lemma with_grad_elem w ps k :
  k ∈ with_grad w ps <-> is_Some (grad (heap w k)) /\ k ∈ ps.
Proof. unfold with_grad. apply (list_elem_of_filter (fun k => is_Some (grad (heap w k)))). Qed.

Lemma with_grad_ext w w' ps :
  (forall k, grad (heap w' k) = grad (heap w k)) -> with_grad w' ps = with_grad w ps.
Proof.
  intros H. induction ps as [|p ps IH]; [done|].
  by rewrite !with_grad_cons, H, IH.
Qed.

Lemma lazy_state_steps group w k : step_count (lazy_state group w k) = steps w k.
Proof. unfold lazy_state, steps. by destruct (state w !! k). Qed.

Lemma collect_Ok group fi ps :
  NoDup ps ->
  forall acc w w' l,
    collect group fi acc ps w = (w', Ok l) ->
    l = extend acc (with_grad w ps) (grad_of w) (steps w') (amsgrad group) /\
    (forall k, heap w' k = heap w k) /\
    (forall k, k ∉ with_grad w ps -> state w' !! k = state w !! k) /\
    (forall k, k ∈ with_grad w ps ->
       state w' !! k = Some (bump fi (lazy_state group w k))).
Proof.
  induction 1 as [|p ps Hp Hnd IH]; intros acc w w' l; simpl.
  - intros [= <- <-]. unfold extend. simpl.
    split; [destruct (amsgrad group); rewrite !app_nil_r; by destruct acc|].
    repeat split; try done.
    intros k Hk. by apply not_elem_of_nil in Hk.
  - intros (w1 & acc1 & E1 & E2)%bind_Ok.
    rewrite collect_param_unfold in E1. unfold collect_param_outcome in E1.
    rewrite with_grad_cons.
    destruct (grad (heap w p)) as [g|] eqn:Eg.
    2:{ simplify_eq. by apply IH. }
    destruct (is_sparse g); [done|]. destruct (_ && _); [done|]. simplify_eq.
    destruct (IH _ _ _ _ E2) as (-> & Hh & Hout & Hin).
    change (with_grad (with_state w _) ps) with (with_grad w ps) in *.
    assert (p ∉ with_grad w ps) as Hp' by (intros ?%with_grad_subseteq; done).
    assert (state w' !! p = Some (bump fi (lazy_state group w p))) as Hsp.
    { rewrite (Hout p Hp'). simpl. apply lookup_insert_eq. }
    split; [|split; [done|split]].
    + assert (grad_of w p = gdata g) as EG by (unfold grad_of; by rewrite Eg).
      assert (steps w' p = step_count (bump fi (lazy_state group w p))) as ES
        by (unfold steps; by rewrite Hsp).
      unfold extend, push. simpl. rewrite EG, ES.
      rewrite <- !app_assoc. simpl.
      f_equal. by destruct (amsgrad group); rewrite <- ?app_assoc.
    + intros k Hk. apply not_elem_of_cons in Hk as [Hne Hk].
      rewrite (Hout k Hk). simpl. by rewrite lookup_insert_ne.
    + intros k [->|Hk]%elem_of_cons; [done|].
      rewrite (Hin k Hk). unfold lazy_state. simpl.
      rewrite lookup_insert_ne; [done|]. intros ->. done.
Qed.

Lemma adam_loop_aligned (ams : bool) b1 b2 l wd e fi (G : key -> tensor) (T : key -> nat) :
  fitem fi = false ->
  forall rest pre w w',
    NoDup (pre ++ rest) ->
    (forall k, k ∈ rest -> T k <> 0) ->
    (forall k, k ∈ rest -> is_Some (state w !! k)) ->
    adam_loop (map G (pre ++ rest)) (pre ++ rest) (pre ++ rest)
              (if ams then pre ++ rest else []) (map T (pre ++ rest))
              ams b1 b2 l wd e fi (length pre) rest w = (w', Ok tt) ->
    (forall k, k ∈ rest ->
       exists s s', state w !! k = Some s /\ state w' !! k = Some s' /\
         adam_updated ams b1 b2 l wd e (G k) (T k) (data (heap w k)) s
                      (data (heap w' k)) s') /\
    (forall k, k ∉ rest -> heap w' k = heap w k /\ state w' !! k = state w !! k).
Proof.
  intros Hfi rest. induction rest as [|k rest IH]; intros pre w w' Hnd HT Hst; simpl.
  - intros [= <-]. split; [|done]. intros k Hk. by apply not_elem_of_nil in Hk.
  - intros (w1 & [] & E1 & E2)%bind_Ok.
    assert (k ∉ rest) as Hk.
    { apply NoDup_app in Hnd as (_ & _ & Hnd). by apply NoDup_cons in Hnd as [? _]. }
    destruct (Hst k) as [s Hs]; [set_solver|].
    destruct (T k) as [|t] eqn:ET; [by destruct (HT k); [set_solver|]|].
    (* the iteration for [k] *)
    pose proof (adam_param_update (map G (pre ++ k :: rest)) (pre ++ k :: rest)
                  (pre ++ k :: rest) (if ams then pre ++ k :: rest else [])
                  (map T (pre ++ k :: rest)) ams b1 b2 l wd e fi (length pre) k
                  (G k) t s w) as Hupd.
    unfold wp in Hupd. rewrite E1 in Hupd. simpl in Hupd.
    destruct Hupd as (s1 & Hs1 & Hupd); try done.
    { by rewrite lookup_map, list_lookup_middle. }
    { by apply list_lookup_middle. }
    { by apply list_lookup_middle. }
    { intros ->. by apply list_lookup_middle. }
    { by rewrite lookup_map, list_lookup_middle, <- ET. }
    pose proof (pres_run _ _ _ _ _ (adam_param_confined _ _ _ _ _ _ _ _ _ _ _ _ _ _) E1)
      as (_ & _ & Hframe).
    assert (forall k', k' <> k -> heap w1 k' = heap w k' /\ state w1 !! k' = state w !! k')
      as Hother.
    { intros k' Hne. apply Hframe. unfold at_index.
      rewrite !list_lookup_middle by done.
      destruct ams; rewrite ?list_lookup_middle by done; simpl; set_solver. }
    (* the later iterations *)
    replace (pre ++ k :: rest) with ((pre ++ [k]) ++ rest) in E2, Hnd
      by (by rewrite <- app_assoc).
    replace (S (length pre)) with (length (pre ++ [k])) in E2
      by (rewrite length_app; simpl; lia).
    destruct (IH (pre ++ [k]) w1 w' Hnd) as [Hin Hout]; [| |exact E2|].
    { intros k' Hk'. apply HT. set_solver. }
    { intros k' Hk'. destruct (Hother k') as [_ ->]; [by intros ->|].
      apply Hst. set_solver. }
    split.
    + intros k' [->|Hk']%elem_of_cons.
      * destruct (Hout k Hk) as [Eh Es]. exists s, s1.
        rewrite Eh, Es, ET. done.
      * destruct (Hin k' Hk') as (s2 & s3 & Hs2 & Hs3 & Hu).
        destruct (Hother k') as [Eh Es]; [by intros ->|].
        exists s2, s3. by rewrite <- Es, <- Eh.
    + intros k' [Hne Hk']%not_elem_of_cons.
      destruct (Hout k' Hk') as [-> ->]. by apply Hother.
Qed.


Lemma step_group_Ok fi group w w' :
  fitem fi = false -> NoDup (params group) ->
  step_group fi group w = (w', Ok tt) ->
  (forall k, k ∈ with_grad w (params group) ->
     exists s', state w' !! k = Some s' /\
       adam_updated (amsgrad group) (fst (betas group)) (snd (betas group)) (lr group)
                    (weight_decay group) (eps group) (grad_of w k) (S (steps w k))
                    (value w k) (bump fi (lazy_state group w k)) (value w' k) s') /\
  (forall k, k ∉ with_grad w (params group) ->
     heap w' k = heap w k /\ state w' !! k = state w !! k).
Proof.
  intros Hfi Hnd (w1 & l & E1 & E2)%bind_Ok.
  destruct (collect_Ok _ _ _ Hnd _ _ _ _ E1) as (-> & Hh & Hout & Hin).
  unfold extend, no_lists, adam_step_py in E2. simpl in E2.
  set (ks := with_grad w (params group)) in *.
  assert (forall k, k ∈ ks -> steps w1 k = S (steps w k)) as HT.
  { intros k Hk. unfold steps at 1. rewrite (Hin k Hk).
    destruct (bump_fields fi (lazy_state group w k)) as (_ & _ & _ & ->).
    by rewrite Hfi, lazy_state_steps. }
  destruct (adam_loop_aligned (amsgrad group) (fst (betas group)) (snd (betas group))
              (lr group) (weight_decay group) (eps group) fi (grad_of w) (steps w1)
              Hfi ks [] w1 w') as [Hupd Hrest]; simpl.
  - by apply NoDup_filter.
  - intros k Hk. rewrite (HT k Hk). lia.
  - intros k Hk. rewrite (Hin k Hk). eauto.
  - by destruct (amsgrad group).
  - split.
    + intros k Hk. destruct (Hupd k Hk) as (s & s' & Hs & Hs' & Hu).
      exists s'. split; [done|]. rewrite (Hin k Hk) in Hs. injection Hs as <-.
      unfold value. by rewrite <- (HT k Hk), <- (Hh k).
    + intros k Hk. destruct (Hrest k Hk) as [-> ->]. split; [apply Hh | by apply Hout].
Qed.

Lemma lazy_state_ext group w w' k :
  heap w' k = heap w k -> state w' !! k = state w !! k ->
  lazy_state group w' k = lazy_state group w k.
Proof. unfold lazy_state. by intros -> ->. Qed.

Lemma step_groups_Ok fi groups :
  fitem fi = false -> NoDup (concat (map params groups)) ->
  forall w w',
    step_groups fi groups w = (w', Ok tt) ->
    (forall group k, group ∈ groups -> k ∈ with_grad w (params group) ->
       exists s', state w' !! k = Some s' /\
         adam_updated (amsgrad group) (fst (betas group)) (snd (betas group)) (lr group)
                      (weight_decay group) (eps group) (grad_of w k) (S (steps w k))
                      (value w k) (bump fi (lazy_state group w k)) (value w' k) s') /\
    (forall k, (forall group, group ∈ groups -> k ∉ with_grad w (params group)) ->
       heap w' k = heap w k /\ state w' !! k = state w !! k).
Proof.
  intros Hfi. induction groups as [|g0 gs IH]; intros Hnd w w'; simpl.
  - intros [= <-]. split; [|done]. intros g k Hg. by apply not_elem_of_nil in Hg.
  - intros (w1 & [] & E1 & E2)%bind_Ok.
    simpl in Hnd. apply NoDup_app in Hnd as (Hnd0 & Hdisj & Hnds).
    destruct (step_group_Ok _ _ _ _ Hfi Hnd0 E1) as [Hupd0 Hrest0].
    destruct (IH Hnds _ _ E2) as [Hupd Hrest].
    pose proof (pres_run _ _ _ _ _ (step_group_framed fi g0) E1) as (_ & Hgr & _).
    assert (forall ps, with_grad w1 ps = with_grad w ps) as Hwg
      by (intros ps; by apply with_grad_ext).
    assert (forall g k, g ∈ gs -> k ∈ params g -> k ∉ params g0) as Hsep.
    { intros g k Hg Hk Hk0. apply (Hdisj k Hk0).
      apply list_elem_of_In, in_concat. exists (params g). split.
      - apply in_map. by apply list_elem_of_In.
      - by apply list_elem_of_In. }
    split.
    + intros g k [->|Hg]%elem_of_cons Hk.
      * destruct (Hupd0 k Hk) as (s' & Hs' & Hu). exists s'.
        destruct (Hrest k) as [Eh Es].
        { intros g Hg. rewrite Hwg. intros Hk'%with_grad_subseteq.
          apply with_grad_subseteq in Hk. by apply (Hsep g k). }
        unfold value. by rewrite Eh, Es.
      * assert (k ∉ with_grad w (params g0)) as Hk0.
        { intros Hk0%with_grad_subseteq. apply with_grad_subseteq in Hk.
          by apply (Hsep g k). }
        destruct (Hrest0 k Hk0) as [Eh Es].
        destruct (Hupd g k Hg) as (s' & Hs' & Hu); [by rewrite Hwg|].
        exists s'. split; [done|].
        rewrite (lazy_state_ext g w w1 k) in Hu by done.
        unfold value, grad_of, steps in *. by rewrite Eh, Es in Hu.
    + intros k Hk. destruct (Hrest0 k) as [Eh Es]; [apply Hk; set_solver|].
      destruct (Hrest k) as [-> ->]; [|done].
      intros g Hg. rewrite Hwg. apply Hk. set_solver.
Qed.


(** * [step] as a whole *)

Lemma step_Ok_groups closure fi w w' r :
  step closure (Some fi) w = (w', Ok r) ->
  fshape fi = [] /\
  step_groups fi (param_groups w) (after_closure closure w) = (w', Ok tt).
Proof.
  rewrite step_unfold. case_decide as Hs; [done|]. cbv zeta.
  destruct (step_groups _ _ _) as [w1 [[]|e]] eqn:E; [|done].
  intros [= <- _]. split; [|done].
  destruct (fshape fi); [done|]. simpl in Hs. lia.
Qed.

Lemma all_params_elem w k :
  k ∈ all_params w <-> exists group, group ∈ param_groups w /\ k ∈ params group.
Proof.
  unfold all_params. rewrite list_elem_of_In, in_concat. split.
  - intros (ps & (g & <- & Hg)%in_map_iff & Hk).
    exists g. by rewrite !list_elem_of_In.
  - intros (g & Hg & Hk). exists (params g). rewrite <- !list_elem_of_In.
    split; [|done]. apply list_elem_of_In, in_map. by apply list_elem_of_In.
Qed.

Lemma after_closure_facts closure w :
  let w0 := after_closure closure w in
  param_groups w0 = param_groups w /\ state w0 = state w /\
  (forall k, data (heap w0 k) = data (heap w k)).
Proof. by destruct closure. Qed.

Example no_gradient_step : step None (Some unset) no_gradient = (no_gradient, Ok None).
Proof. reflexivity. Qed.


(** * Totality: when [step] runs to completion *)

Lemma pointwise_total f (a b : list R) :
  length a = length b -> pointwise f a b = Ok (zip_with f a b).
Proof. intros H. unfold pointwise. by rewrite decide_True. Qed.

Lemma pointwise_Raise f (a b : list R) e :
  pointwise f a b = Raise e -> length a <> length b.
Proof. unfold pointwise. by case_decide. Qed.

Lemma pointwise3_Raise f (a b c : list R) e :
  pointwise3 f a b c = Raise e -> length a <> length b \/ length a <> length c.
Proof. unfold pointwise3. repeat case_decide; try done; auto. Qed.

Lemma pow_le_1 x n : (0 <= x <= 1)%R -> (0 <= x ^ n <= 1)%R.
Proof.
  intros Hx. induction n as [|n IH]; simpl; [lra|].
  split; [apply Rmult_le_pos; lra|].
  replace 1%R with (1 * 1)%R by ring. apply Rmult_le_compat; lra.
Qed.

Lemma pow_lt_1 x n : (0 <= x < 1)%R -> (x ^ S n < 1)%R.
Proof.
  intros Hx. simpl. destruct (pow_le_1 x n) as [H0 H1]; [lra|].
  apply Rle_lt_trans with (x * 1)%R; [|lra].
  apply Rmult_le_compat_l; lra.
Qed.

Lemma math_sqrt_total b n :
  (0 <= b < 1)%R -> math_sqrt (1 - b ^ n) = Ok (sqrt (1 - b ^ n)).
Proof.
  intros Hb. unfold math_sqrt. destruct (Rlt_dec _ _) as [H|H]; [|done].
  destruct (pow_le_1 b n); lra.
Qed.

Lemma float_div_total x b n :
  (0 <= b < 1)%R -> float_div x (1 - b ^ S n) = Ok (x / (1 - b ^ S n))%R.
Proof.
  intros Hb. unfold float_div. destruct (Req_dec_T _ _) as [H|H]; [|done].
  pose proof (pow_lt_1 b n Hb). lra.
Qed.

Ltac learn_lengths :=
  repeat match goal with
    | H : add_alpha _ _ _ = Ok _ |- _ =>
        let L := fresh "L" in let L' := fresh "L" in
        pose proof (pointwise_length _ _ _ _ H) as L;
        apply pointwise_Ok in H as [L' _]
    | H : where_ _ _ _ = Ok _ |- _ =>
        let L := fresh "L" in let L' := fresh "L" in
        pose proof (pointwise_length _ _ _ _ H) as L;
        apply pointwise_Ok in H as [L' _]
    | H : maximum _ _ = Ok _ |- _ =>
        let L := fresh "L" in let L' := fresh "L" in
        pose proof (pointwise_length _ _ _ _ H) as L;
        apply pointwise_Ok in H as [L' _]
    | H : addcmul _ _ _ _ = Ok _ |- _ =>
        let L := fresh "L" in let L' := fresh "L" in let L'' := fresh "L" in
        pose proof (pointwise3_length _ _ _ _ _ H) as L;
        apply pointwise3_Ok in H as (L' & L'' & _)
    | H : addcdiv _ _ _ _ = Ok _ |- _ =>
        let L := fresh "L" in let L' := fresh "L" in let L'' := fresh "L" in
        pose proof (pointwise3_length _ _ _ _ _ H) as L;
        apply pointwise3_Ok in H as (L' & L'' & _)
    | H : add_alpha _ _ _ = Raise _ |- _ => apply pointwise_Raise in H
    | H : where_ _ _ _ = Raise _ |- _ => apply pointwise_Raise in H
    | H : maximum _ _ = Raise _ |- _ => apply pointwise_Raise in H
    | H : addcmul _ _ _ _ = Raise _ |- _ => apply pointwise3_Raise in H
    | H : addcdiv _ _ _ _ = Raise _ |- _ => apply pointwise3_Raise in H
    end;
  unfold ones_like, zeros_like, mul_scalar, add_scalar, div_scalar, tsqrt in *;
  rewrite ?length_map in *.

Lemma adam_param_total gr ea eas mx ss (ams : bool) b1 b2 l wd e fi i k g t s w :
  gr !! i = Some g -> ea !! i = Some k -> eas !! i = Some k ->
  (ams = true -> mx !! i = Some k) -> ss !! i = Some t ->
  state w !! k = Some s ->
  (0 <= b1 < 1)%R -> (0 <= b2 < 1)%R ->
  length g = length (data (heap w k)) ->
  consistent ams (heap w k) s ->
  wp (adam_param gr ea eas mx ss ams b1 b2 l wd e fi i k) (fun _ r => r = Ok tt) w.
Proof.
  intros Hg Hea Heas Hmx Hss Hs Hb1 Hb2 Lg (Lm & Lv & Hvm). unfold adam_param.
  destruct ams; [specialize (Hmx eq_refl); destruct (Hvm eq_refl) as (vm & Evm & Lvm)
                |clear Hmx Hvm].
  all: destruct t as [|t].
  all: wp_go.
  all: try done.
  all: clean_state; simplify_eq; learn_lengths.
  all: exfalso; repeat match goal with H : _ \/ _ |- _ => destruct H end; try lia.
  all: match goal with
       | H : float_div _ _ = Raise _ |- _ => by rewrite float_div_total in H
       | H : math_sqrt _ = Raise _ |- _ => by rewrite math_sqrt_total in H
       end.
Qed.


Lemma consistent_bump ams p fi s : consistent ams p s -> consistent ams p (bump fi s).
Proof.
  unfold consistent. by destruct (bump_fields fi s) as (-> & -> & -> & _).
Qed.

Lemma consistent_lazy group w k :
  ready (amsgrad group) (heap w k) (state w !! k) ->
  consistent (amsgrad group) (heap w k) (lazy_state group w k).
Proof.
  intros [_ Hs]. unfold lazy_state. destruct (state w !! k) as [s|]; [by apply Hs|].
  unfold consistent, fresh_state. simpl. rewrite !length_zeros_like.
  repeat split. intros ->. eexists. split; [done|]. apply length_zeros_like.
Qed.

Lemma collect_total group fi ps :
  NoDup ps ->
  forall acc w,
    (forall k, k ∈ ps -> ready (amsgrad group) (heap w k) (state w !! k)) ->
    exists w' l, collect group fi acc ps w = (w', Ok l).
Proof.
  induction 1 as [|p ps Hp Hnd IH]; intros acc w Hready; simpl; [by eauto|].
  pose proof (collect_param_unfold group fi acc p w) as E.
  unfold collect_param_outcome in E.
  pose proof (Hready p ltac:(set_solver)) as Hrp.
  pose proof (consistent_lazy group w p Hrp) as (_ & _ & Hmax).
  destruct (grad (heap w p)) as [g|] eqn:Eg.
  2:{ erewrite bind_run by exact E. apply IH. intros k Hk. apply Hready. set_solver. }
  destruct Hrp as [Hd _]. destruct (Hd g Eg) as [Hdense _]. rewrite Hdense in E.
  assert (amsgrad group && negb (bool_decide (is_Some
            (max_exp_avg_sq (lazy_state group w p)))) = false) as Hams.
  { destruct (amsgrad group); [|done]. simpl.
    destruct (Hmax eq_refl) as (vm & -> & _). by rewrite bool_decide_true. }
  rewrite Hams in E. erewrite bind_run by exact E. apply IH.
  intros k Hk. simpl. rewrite lookup_insert_ne by (by intros ->).
  apply Hready. set_solver.
Qed.

Lemma adam_loop_total (ams : bool) b1 b2 l wd e fi (G : key -> tensor) (T : key -> nat) :
  (0 <= b1 < 1)%R -> (0 <= b2 < 1)%R ->
  forall rest pre w,
    NoDup (pre ++ rest) ->
    (forall k, k ∈ rest ->
       length (G k) = length (data (heap w k)) /\
       exists s, state w !! k = Some s /\ consistent ams (heap w k) s) ->
    exists w',
      adam_loop (map G (pre ++ rest)) (pre ++ rest) (pre ++ rest)
                (if ams then pre ++ rest else []) (map T (pre ++ rest))
                ams b1 b2 l wd e fi (length pre) rest w = (w', Ok tt).
Proof.
  intros Hb1 Hb2 rest. induction rest as [|k rest IH]; intros pre w Hnd Hok; simpl.
  - by eauto.
  - assert (k ∉ rest) as Hk.
    { apply NoDup_app in Hnd as (_ & _ & Hnd). by apply NoDup_cons in Hnd as [? _]. }
    destruct (Hok k) as (Lg & s & Hs & Hcs); [set_solver|].
    pose proof (adam_param_total (map G (pre ++ k :: rest)) (pre ++ k :: rest)
                  (pre ++ k :: rest) (if ams then pre ++ k :: rest else [])
                  (map T (pre ++ k :: rest)) ams b1 b2 l wd e fi (length pre) k
                  (G k) (T k) s w) as Htot.
    unfold wp in Htot.
    destruct (adam_param _ _ _ _ _ _ _ _ _ _ _ _ _ _ w) as [w1 r] eqn:E1.
    simpl in Htot. assert (r = Ok tt) as ->.
    { apply Htot; try done.
      - by rewrite lookup_map, list_lookup_middle.
      - by apply list_lookup_middle.
      - by apply list_lookup_middle.
      - intros ->. by apply list_lookup_middle.
      - by rewrite lookup_map, list_lookup_middle. }
    pose proof (pres_run _ _ _ _ _ (adam_param_confined _ _ _ _ _ _ _ _ _ _ _ _ _ _) E1)
      as (_ & _ & Hframe).
    assert (forall k', k' <> k -> heap w1 k' = heap w k' /\ state w1 !! k' = state w !! k')
      as Hother.
    { intros k' Hne. apply Hframe. unfold at_index.
      rewrite !list_lookup_middle by done.
      destruct ams; rewrite ?list_lookup_middle by done; simpl; set_solver. }
    erewrite bind_run by exact E1.
    replace (pre ++ k :: rest) with ((pre ++ [k]) ++ rest) in *
      by (by rewrite <- app_assoc).
    replace (S (length pre)) with (length (pre ++ [k]))
      by (rewrite length_app; simpl; lia).
    apply IH; [done|]. intros k' Hk'.
    destruct (Hother k') as [-> ->]; [by intros ->|]. apply Hok. set_solver.
Qed.


Lemma step_group_total fi group w :
  NoDup (params group) -> valid_betas group ->
  (forall k, k ∈ params group -> ready (amsgrad group) (heap w k) (state w !! k)) ->
  exists w', step_group fi group w = (w', Ok tt).
Proof.
  intros Hnd [Hb1 Hb2] Hready.
  destruct (collect_total group fi _ Hnd no_lists w Hready) as (w1 & l & E1).
  destruct (collect_Ok _ _ _ Hnd _ _ _ _ E1) as (-> & Hh & Hout & Hin).
  unfold step_group. erewrite bind_run by exact E1.
  unfold extend, no_lists, adam_step_py. simpl.
  set (ks := with_grad w (params group)) in *.
  destruct (adam_loop_total (amsgrad group) (fst (betas group)) (snd (betas group))
              (lr group) (weight_decay group) (eps group) fi (grad_of w) (steps w1)
              Hb1 Hb2 ks [] w1) as [w' E2]; simpl.
  - by apply NoDup_filter.
  - intros k Hk. pose proof Hk as [[g Eg] Hkp]%with_grad_elem.
    pose proof (Hready k Hkp) as Hr. rewrite (Hh k). split.
    + destruct Hr as [Hd _]. destruct (Hd g Eg) as [_ <-].
      unfold grad_of. by rewrite Eg.
    + eexists. split; [by apply Hin|]. by apply consistent_bump, consistent_lazy.
  - exists w'. destruct (amsgrad group); exact E2.
Qed.

Lemma step_groups_total fi groups :
  NoDup (concat (map params groups)) ->
  forall w,
    (forall group, group ∈ groups ->
       valid_betas group /\
       forall k, k ∈ params group -> ready (amsgrad group) (heap w k) (state w !! k)) ->
    exists w', step_groups fi groups w = (w', Ok tt).
Proof.
  induction groups as [|g0 gs IH]; intros Hnd w Hok; simpl; [by eauto|].
  simpl in Hnd. apply NoDup_app in Hnd as (Hnd0 & Hdisj & Hnds).
  destruct (Hok g0) as [Hb Hr]; [set_solver|].
  destruct (step_group_total fi g0 w Hnd0 Hb Hr) as [w1 E1].
  erewrite bind_run by exact E1.
  pose proof (pres_run _ _ _ _ _ (step_group_framed fi g0) E1) as (_ & Hgr & Hfr).
  apply IH; [done|]. intros g Hg. destruct (Hok g) as [Hbg Hrg]; [set_solver|].
  split; [done|]. intros k Hk.
  destruct (Hfr k) as [-> ->]; [|by apply Hrg].
  intros Hk0. apply (Hdisj k Hk0).
  apply list_elem_of_In, in_concat. exists (params g). split.
  - apply in_map. by apply list_elem_of_In.
  - by apply list_elem_of_In.
Qed.

Lemma step_total closure fi w :
  fshape fi = [] -> steppable (after_closure closure w) ->
  exists w', step closure (Some fi) w =
             (w', Ok match closure with
                     | None => None
                     | Some c => Some (snd (c (fun k => data (heap w k))))
                     end).
Proof.
  intros Hs [Hnd Hok]. rewrite step_unfold, Hs. simpl. cbv zeta.
  destruct (after_closure_facts closure w) as (Eg & _ & _).
  unfold all_params in Hnd. rewrite Eg in Hnd, Hok.
  destruct (step_groups_total fi _ Hnd _ Hok) as [w' ->]. by eauto.
Qed.


(** * The claims about the optimizer *)

Lemma views_after_closure closure w k :
  let w0 := after_closure closure w in
  value w0 k = value w k /\ steps w0 k = steps w k /\
  first_moment w0 k = first_moment w k /\ second_moment w0 k = second_moment w k /\
  running_max w0 k = running_max w k.
Proof. by destruct closure. Qed.

Lemma lazy_state_views group w k :
  exp_avg (lazy_state group w k) = first_moment w k /\
  exp_avg_sq (lazy_state group w k) = second_moment w k /\
  (amsgrad group = true -> max_moment (lazy_state group w k) = running_max w k).
Proof.
  unfold lazy_state, first_moment, second_moment, running_max, max_moment, fresh_state.
  destruct (state w !! k); simpl; repeat split; try done. by intros ->.
Qed.

Lemma scenario_steppable : steppable scenario.
Proof.
  split.
  - unfold all_params. simpl. apply NoDup_singleton.
  - intros group ->%list_elem_of_singleton. split.
    + unfold valid_betas, scenario_group, default_betas. simpl. lra.
    + intros k _. split.
      * simpl. by intros g [= <-].
      * simpl. by intros s.
Qed.

Lemma scenario_first_step :
  step None (Some unset) scenario = (fst (step None (Some unset) scenario), Ok None).
Proof.
  destruct (step_total None unset scenario eq_refl scenario_steppable) as [w' E].
  by rewrite E.
Qed.

(** The elementwise effect of a completed, unskipped call on one parameter. *)
Lemma step_update_views closure fi w w' r group k g :
  step closure (Some fi) w = (w', Ok r) ->
  fitem fi = false ->
  NoDup (all_params w) ->
  group ∈ param_groups w -> k ∈ params group ->
  grad (heap (after_closure closure w) k) = Some g -> is_sparse g = false ->
  let t := S (steps w k) in
  let b1 := fst (betas group) in
  let b2 := snd (betas group) in
  1 <= t /\ steps w' k = t /\
  length (gdata g) = length (value w k) /\
  length (first_moment w k) = length (value w k) /\
  length (second_moment w k) = length (value w k) /\
  length (value w' k) = length (value w k) /\
  length (first_moment w' k) = length (value w k) /\
  length (second_moment w' k) = length (value w k) /\
  forall i theta gi m v,
    value w k !! i = Some theta -> gdata g !! i = Some gi ->
    first_moment w k !! i = Some m -> second_moment w k !! i = Some v ->
    let g' := rule_grad (weight_decay group) theta gi in
    let m' := rule_m b1 m g' in
    let v' := rule_v b2 v g' in
    first_moment w' k !! i = Some m' /\
    second_moment w' k !! i = Some v' /\
    if amsgrad group then
      exists vmax, running_max w k !! i = Some vmax /\
        running_max w' k !! i = Some (Rmax vmax v') /\
        value w' k !! i =
          Some (rule_param (lr group) b1 b2 (eps group) t theta m' (Rmax vmax v'))
    else
      value w' k !! i = Some (rule_param (lr group) b1 b2 (eps group) t theta m' v').
Proof.
  intros Hstep Hfi Hnd Hgroup Hk Hg _. cbv zeta.
  apply step_Ok_groups in Hstep as [_ Hstep].
  set (w0 := after_closure closure w) in *.
  destruct (after_closure_facts closure w) as (Eg & _ & _). fold w0 in Eg.
  destruct (views_after_closure closure w k) as (Ev & Es & Em & Ev2 & Emax).
  fold w0 in Ev, Es, Em, Ev2, Emax.
  unfold all_params in Hnd. rewrite <- Eg in Hnd, Hgroup, Hstep.
  destruct (step_groups_Ok fi _ Hfi Hnd _ _ Hstep) as [Hupd _].
  destruct (Hupd group k Hgroup) as (s' & Hs' & Hu).
  { apply with_grad_elem. split; [by rewrite Hg|done]. }
  destruct (lazy_state_views group w0 k) as (Lm & Lv & Lmax).
  destruct (bump_fields fi (lazy_state group w0 k)) as (Bm & Bv & Bmax & Bs).
  destruct Hu as (Hsc & L1 & L2 & L3 & L4 & L5 & L6 & Hams & Helem).
  rewrite Bm, Lm, Em in L2. rewrite Bv, Lv, Ev2 in L3.
  rewrite Ev in L1, L2, L3, L4, L5, L6.
  assert (grad_of w0 k = gdata g) as EG by (unfold grad_of; by rewrite Hg).
  rewrite EG in L1, Helem.
  split; [lia|]. split.
  { unfold steps at 1. rewrite Hs', Hsc, Bs, Hfi, lazy_state_steps. by rewrite Es. }
  do 4 (split; [done|]).
  split; [unfold first_moment; by rewrite Hs'|].
  split; [unfold second_moment; by rewrite Hs'|].
  intros i theta gi m v Hth Hgi Hm Hv.
  rewrite <- Ev in Hth. rewrite <- Em, <- Lm, <- Bm in Hm.
  rewrite <- Ev2, <- Lv, <- Bv in Hv.
  specialize (Helem i theta gi m v Hth Hgi Hm Hv). cbv zeta in Helem.
  rewrite Es in Helem.
  unfold first_moment at 1, second_moment at 1. rewrite Hs'.
  destruct Helem as (H1 & H2 & H3). split; [done|]. split; [done|].
  destruct (amsgrad group) eqn:Eams; [|done].
  destruct H3 as (vmax & Hvm & Hvm' & Hp). exists vmax.
  split; [|split; [|done]].
  - rewrite <- Emax, <- (Lmax eq_refl). unfold max_moment in *. by rewrite <- Bmax.
  - unfold running_max. by rewrite Hs'.
Qed.

(** C1: for a parameter with a dense gradient and a call of [step] with the
    skip signal unset: the call runs to completion when the signal is a
    scalar, the betas are in range and gradients and state tensors have the
    shapes of their parameters; and in a call that runs to completion the
    step count [t] after the increment is at least 1, the first moment
    becomes b1 m + (1 - b1) g and the second moment b2 v + (1 - b2) g^2,
    where g is the gradient, with weight decay times the parameter added
    when the weight decay is nonzero, and the parameter becomes
    parameter - (lr / (1 - b1^t)) m / (sqrt(chosen) / sqrt(1 - b2^t) + eps),
    where [chosen] is the running elementwise maximum of the second moment
    under amsgrad and the second moment otherwise; all of it elementwise,
    on tensors of one shape. *)
Theorem dense_update_follows_adam_rule closure fi w group k g :
  fitem fi = false ->
  NoDup (all_params w) ->
  group ∈ param_groups w -> k ∈ params group ->
  grad (heap (after_closure closure w) k) = Some g -> is_sparse g = false ->
  (fshape fi = [] -> steppable (after_closure closure w) ->
   exists w' r, step closure (Some fi) w = (w', Ok r)) /\
  forall w' r, step closure (Some fi) w = (w', Ok r) ->
  let t := S (steps w k) in
  let b1 := fst (betas group) in
  let b2 := snd (betas group) in
  1 <= t /\ steps w' k = t /\
  length (gdata g) = length (value w k) /\
  length (first_moment w k) = length (value w k) /\
  length (second_moment w k) = length (value w k) /\
  length (value w' k) = length (value w k) /\
  length (first_moment w' k) = length (value w k) /\
  length (second_moment w' k) = length (value w k) /\
  forall i theta gi m v,
    value w k !! i = Some theta -> gdata g !! i = Some gi ->
    first_moment w k !! i = Some m -> second_moment w k !! i = Some v ->
    let g' := rule_grad (weight_decay group) theta gi in
    let m' := rule_m b1 m g' in
    let v' := rule_v b2 v g' in
    first_moment w' k !! i = Some m' /\
    second_moment w' k !! i = Some v' /\
    if amsgrad group then
      exists vmax, running_max w k !! i = Some vmax /\
        running_max w' k !! i = Some (Rmax vmax v') /\
        value w' k !! i =
          Some (rule_param (lr group) b1 b2 (eps group) t theta m' (Rmax vmax v'))
    else
      value w' k !! i = Some (rule_param (lr group) b1 b2 (eps group) t theta m' v').
Proof.
  intros Hfi Hnd Hgroup Hk Hg Hdense. split.
  - intros Hs Hok. destruct (step_total closure fi w Hs Hok) as [w' Hw']. by eauto.
  - intros w' r Hstep. by apply (step_update_views closure fi w w' r group k g).
Qed.

Lemma dense_update_follows_adam_rule_witness :
  let w' := fst (step None (Some unset) scenario) in
  step None (Some unset) scenario = (w', Ok None) /\
  1 <= S (steps scenario the_param) /\ steps w' the_param = S (steps scenario the_param) /\
  length [(1 / 10)%R] = length (value scenario the_param) /\
  length (first_moment scenario the_param) = length (value scenario the_param) /\
  length (second_moment scenario the_param) = length (value scenario the_param) /\
  length (value w' the_param) = length (value scenario the_param) /\
  length (first_moment w' the_param) = length (value scenario the_param) /\
  length (second_moment w' the_param) = length (value scenario the_param) /\
  forall i theta gi m v,
    value scenario the_param !! i = Some theta -> [(1 / 10)%R] !! i = Some gi ->
    first_moment scenario the_param !! i = Some m -> second_moment scenario the_param !! i = Some v ->
    let g' := rule_grad default_weight_decay theta gi in
    let m' := rule_m (9 / 10) m g' in
    let v' := rule_v (999 / 1000) v g' in
    first_moment w' the_param !! i = Some m' /\
    second_moment w' the_param !! i = Some v' /\
    value w' the_param !! i =
      Some (rule_param default_lr (9 / 10) (999 / 1000) default_eps
                       (S (steps scenario the_param)) theta m' v').
Proof.
  destruct (dense_update_follows_adam_rule None unset scenario scenario_group
              the_param (mkGradient [(1 / 10)%R] false)) as [Htotal Hrule].
  - reflexivity.
  - unfold all_params. simpl. apply NoDup_singleton.
  - simpl. apply list_elem_of_singleton. reflexivity.
  - simpl. apply list_elem_of_singleton. reflexivity.
  - reflexivity.
  - reflexivity.
  - split; [exact scenario_first_step|].
    apply (Hrule _ None). exact scenario_first_step.
Defined.


(** C3: over any number of calls of [step] in which the skip signal is set
    on every call (with backward passes in between, with or without a
    closure, whether or not a call raises), after every call the value of
    every parameter, its first and its second moment are what they were at
    the start and its step count has not been incremented; a state record
    that existed keeps its step count and moment tensors. *)
Theorem skipped_steps_change_nothing (es : list event) (n : nat) (w : World) (k : key) :
  (forall c fi, Step c fi ∈ es -> skip_set fi) ->
  let w' := run (take n es) w in
  value w' k = value w k /\
  first_moment w' k = first_moment w k /\
  second_moment w' k = second_moment w k /\
  steps w' k = steps w k /\
  forall s, state w !! k = Some s ->
    exists s', state w' !! k = Some s' /\ step_count s' = step_count s /\
               exp_avg s' = exp_avg s /\ exp_avg_sq s' = exp_avg_sq s.
Proof.
  intros Hes w'.
  assert (unchanged w w') as Hun.
  { apply run_skip. intros c fi Hin. apply (Hes c).
    by apply (subseteq_take n es). }
  destruct (Hun k) as (Hv & Hs & Hm & Hv2 & Hex).
  repeat split; try done.
  intros s Hst. destruct Hex as [s' Hs']; [by eauto|].
  exists s'. unfold steps, first_moment, second_moment in *.
  rewrite Hs', Hst in *. done.
Qed.

Lemma skipped_steps_change_nothing_witness :
  let w' := run (take 2 [Step None (Some set_); Backward (fun _ => None);
                         Step None (Some set_)]) scenario in
  value w' the_param = value scenario the_param /\
  first_moment w' the_param = first_moment scenario the_param /\
  second_moment w' the_param = second_moment scenario the_param /\
  steps w' the_param = steps scenario the_param /\
  forall s, state scenario !! the_param = Some s ->
    exists s', state w' !! the_param = Some s' /\ step_count s' = step_count s /\
               exp_avg s' = exp_avg s /\ exp_avg_sq s' = exp_avg_sq s.
Proof.
  apply (skipped_steps_change_nothing
           [Step None (Some set_); Backward (fun _ => None); Step None (Some set_)]
           2 scenario the_param).
  intros c fi Hin. exists set_. split; [|reflexivity].
  apply elem_of_cons in Hin as [Hin|Hin]; [by injection Hin as _ ->|].
  apply elem_of_cons in Hin as [Hin|Hin]; [discriminate Hin|].
  apply list_elem_of_singleton in Hin. by injection Hin as _ ->.
Defined.

(** C4 as stated fails: a parameter that has no gradient attached is passed
    over, so a completed call with the skip signal unset leaves its step
    count where it was. *)
Lemma step_count_stays_without_gradient :
  fitem unset = false /\
  snd (step None (Some unset) no_gradient) = Ok None /\
  steps (fst (step None (Some unset) no_gradient)) the_param
    <> S (steps no_gradient the_param).
Proof. rewrite no_gradient_step. simpl. repeat split. unfold steps. simpl. lia. Qed.

(** C4, amended: the step count of every parameter never decreases over any
    sequence of backward passes and calls of [step]; in a call that runs to
    completion on an optimizer that lists each parameter once, a parameter
    of a group that has a gradient attached has its step count incremented
    by exactly 1 if the skip signal is unset and left alone if it is set,
    and a parameter that is in no group or has no gradient keeps its step
    count. *)
Theorem step_count_law (es : list event) closure fi (w w' : World) r (k : key) :
  steps w k <= steps (run es w) k /\
  (step closure (Some fi) w = (w', Ok r) -> NoDup (all_params w) ->
   (k ∈ all_params w -> is_Some (grad (heap (after_closure closure w) k)) ->
    steps w' k = if fitem fi then steps w k else S (steps w k)) /\
   (k ∉ all_params w \/ grad (heap (after_closure closure w) k) = None ->
    steps w' k = steps w k)).
Proof.
  split; [apply run_grows|]. intros Hstep Hnd.
  destruct (fitem fi) eqn:Hfi.
  { assert (steps w' k = steps w k) as ->; [|by split].
    pose proof (pres_run _ _ _ _ _ (step_skip closure (Some fi) ltac:(by exists fi)) Hstep)
      as Hun. by destruct (Hun k) as (_ & ? & _). }
  apply step_Ok_groups in Hstep as [_ Hstep].
  set (w0 := after_closure closure w) in *.
  destruct (after_closure_facts closure w) as (Eg & Est & _). fold w0 in Eg, Est.
  destruct (views_after_closure closure w k) as (_ & Es & _). fold w0 in Es.
  pose proof Hnd as Hnd'. unfold all_params in Hnd'. rewrite <- Eg in Hnd', Hstep.
  destruct (step_groups_Ok fi _ Hfi Hnd' _ _ Hstep) as [Hupd Hrest]. split.
  - intros (group & Hgroup & Hk)%all_params_elem Hgrad. rewrite <- Eg in Hgroup.
    destruct (Hupd group k Hgroup) as (s' & Hs' & Hu).
    { by apply with_grad_elem. }
    destruct Hu as (Hsc & _). unfold steps at 1. rewrite Hs', Hsc.
    destruct (bump_fields fi (lazy_state group w0 k)) as (_ & _ & _ & ->).
    by rewrite Hfi, lazy_state_steps, Es.
  - intros Hno. destruct (Hrest k) as [_ Hst].
    + intros group Hgroup [Hgrad Hk]%with_grad_elem. destruct Hno as [Hno|Hno].
      * apply Hno, all_params_elem. exists group. by rewrite <- Eg.
      * rewrite Hno in Hgrad. by destruct Hgrad.
    + unfold steps. by rewrite Hst, Est.
Qed.

Lemma step_count_law_witness :
  let w' := fst (step None (Some unset) scenario) in
  steps scenario the_param <= steps (run [Step None (Some unset)] scenario) the_param /\
  (step None (Some unset) scenario = (w', Ok None) -> NoDup (all_params scenario) ->
   (the_param ∈ all_params scenario ->
    is_Some (grad (heap (after_closure None scenario) the_param)) ->
    steps w' the_param
    = if fitem unset then steps scenario the_param else S (steps scenario the_param)) /\
   (the_param ∉ all_params scenario \/
    grad (heap (after_closure None scenario) the_param) = None ->
    steps w' the_param = steps scenario the_param)) /\
  steps w' the_param = 1.
Proof.
  pose proof (step_count_law [Step None (Some unset)] None unset scenario
                (fst (step None (Some unset) scenario)) None the_param) as [Hmono Hcall].
  split; [exact Hmono|]. split; [exact Hcall|].
  destruct Hcall as [Hinc _].
  - exact scenario_first_step.
  - unfold all_params. simpl. apply NoDup_singleton.
  - rewrite Hinc.
    + reflexivity.
    + unfold all_params. simpl. apply list_elem_of_singleton. reflexivity.
    + simpl. eexists. reflexivity.
Defined.

(** C6: a skip signal whose shape has nonzero rank makes [step] raise the
    invalid-argument error with the world as it was, the closure not even
    called; a scalar skip signal passes the check. *)
Theorem found_inf_shape_check closure fi w :
  match fshape fi with
  | [] => check_found_inf (Some fi) w = (w, Ok fi)
  | _ :: _ => step closure (Some fi) w = (w, Raise not_scalar_error)
  end.
Proof.
  destruct (fshape fi) as [|d ds] eqn:E.
  - unfold check_found_inf. by rewrite E.
  - rewrite step_unfold, E. done.
Qed.

(** C10: [found_inf] defaults to [None]; a call without it raises an
    attribute error from the shape check, which is not the invalid-argument
    error of that check, and leaves the world as it was. *)
Theorem step_without_found_inf closure w :
  step closure None w = (w, Raise none_shape_error) /\
  none_shape_error <> not_scalar_error /\
  (exists msg, none_shape_error = AttributeError msg) /\
  forall msg, none_shape_error <> ValueError msg.
Proof. repeat split; try done. by eexists. Qed.


(** * The constructor *)

Lemma Rleb_true x y : (x <= y)%R -> Rleb x y = true.
Proof. intros H. unfold Rleb. by destruct (Rle_dec x y). Qed.

Lemma Rleb_false x y : (y < x)%R -> Rleb x y = false.
Proof. intros H. unfold Rleb. destruct (Rle_dec x y); [lra|done]. Qed.

Lemma Rltb_true x y : (x < y)%R -> Rltb x y = true.
Proof. intros H. unfold Rltb. by destruct (Rlt_dec x y). Qed.

Lemma Rleb_spec x y : Rleb x y = true <-> (x <= y)%R.
Proof. unfold Rleb. destruct (Rle_dec x y); split; done. Qed.

Lemma Rltb_spec x y : Rltb x y = true <-> (x < y)%R.
Proof. unfold Rltb. destruct (Rlt_dec x y); split; done. Qed.

(** C7: with every hyperparameter in range (lr >= 0, eps >= 0,
    weight_decay >= 0, both betas in [0,1)) the constructor passes its
    checks and hands the defaults to the base constructor, whose result is
    the result of the construction; with one out of range it raises the
    invalid-argument error itself, whatever the base constructor would do. *)
Theorem constructor_validates {Params Optimizer : Type}
    (Optimizer_init : Params -> Defaults -> result Optimizer)
    (params_ : Params) (lr_ : R) (betas_ : R * R) (eps_ wd : R) (ams : bool) :
  (valid_hyperparameters lr_ betas_ eps_ wd ->
   Adam_init Optimizer_init params_ lr_ betas_ eps_ wd ams
   = Optimizer_init params_ (mkDefaults lr_ betas_ eps_ wd ams)) /\
  ((lr_ < 0)%R \/ (eps_ < 0)%R \/ (wd < 0)%R \/
   ~ (0 <= fst betas_ < 1)%R \/ ~ (0 <= snd betas_ < 1)%R ->
   exists msg,
     Adam_init Optimizer_init params_ lr_ betas_ eps_ wd ams = Raise (ValueError msg)).
Proof.
  unfold Adam_init. split.
  - intros (Hlr & Heps & Hwd & [H1 H1'] & [H2 H2']).
    by rewrite !Rleb_true, !Rltb_true.
  - intros Hbad.
    destruct (Rleb 0 lr_) eqn:Elr; simpl; [|by eauto].
    destruct (Rleb 0 eps_) eqn:Eeps; simpl; [|by eauto].
    destruct (Rleb 0 (fst betas_) && Rltb (fst betas_) 1) eqn:E1; simpl; [|by eauto].
    destruct (Rleb 0 (snd betas_) && Rltb (snd betas_) 1) eqn:E2; simpl; [|by eauto].
    destruct (Rleb 0 wd) eqn:Ewd; simpl; [|by eauto].
    exfalso. apply Rleb_spec in Elr, Eeps, Ewd.
    apply andb_true_iff in E1 as [E1 E1'], E2 as [E2 E2'].
    apply Rleb_spec in E1, E2. apply Rltb_spec in E1', E2'.
    destruct Hbad as [?|[?|[?|[H|H]]]]; try lra; apply H; lra.
Qed.

Lemma constructor_validates_witness :
  Adam_init accept_all [the_param] default_lr default_betas default_eps
            default_weight_decay default_amsgrad
  = Ok ([the_param],
        mkDefaults default_lr default_betas default_eps default_weight_decay
                   default_amsgrad) /\
  exists msg,
    Adam_init accept_all [the_param] (-1)%R default_betas default_eps
              default_weight_decay default_amsgrad
    = Raise (ValueError msg).
Proof.
  split.
  - apply (constructor_validates accept_all [the_param] default_lr default_betas
             default_eps default_weight_decay default_amsgrad).
    unfold valid_hyperparameters, default_lr, default_betas, default_eps,
      default_weight_decay. simpl. lra.
  - apply (constructor_validates accept_all [the_param] (-1)%R default_betas
             default_eps default_weight_decay default_amsgrad).
    left. lra.
Defined.


(** * The end-to-end scenario *)

Lemma singleton_of_lookup (l : list R) x : length l = 1 -> l !! 0 = Some x -> l = [x].
Proof. destruct l as [|y [|z l]]; simpl; try done. by intros _ [= ->]. Qed.

Lemma sqrt_ratio a b : (0 < b)%R -> a = (b / 100)%R -> (sqrt a / sqrt b = 1 / 10)%R.
Proof.
  intros Hb ->. rewrite <- sqrt_div_alt by done.
  replace (b / 100 / b)%R with ((1 / 10) * (1 / 10))%R by (field; lra).
  apply sqrt_square. lra.
Qed.

Lemma rule_grad_no_decay theta g : rule_grad default_weight_decay theta g = g.
Proof.
  unfold rule_grad, default_weight_decay. by destruct (Req_dec_T 0 0).
Qed.

Lemma step_frame closure fi w w' r :
  step closure (Some fi) w = (w', Ok r) ->
  param_groups w' = param_groups w /\
  forall k, grad (heap w' k) = grad (heap (after_closure closure w) k).
Proof.
  intros [_ Hs]%step_Ok_groups.
  pose proof (pres_run _ _ _ _ _ (step_groups_framed fi (param_groups w)) Hs)
    as (Hg & Hgr & _).
  split; [|done]. rewrite Hg. by destruct closure.
Qed.

(** One unskipped call on a world shaped like the scenario. *)
Lemma scenario_like_step w theta m v n :
  param_groups w = [scenario_group] ->
  (forall k, grad (heap w k) = Some (mkGradient [(1 / 10)%R] false)) ->
  value w the_param = [theta] -> steps w the_param = n ->
  first_moment w the_param = [m] -> second_moment w the_param = [v] ->
  let w' := fst (step None (Some unset) w) in
  let m' := rule_m (9 / 10) m (1 / 10) in
  let v' := rule_v (999 / 1000) v (1 / 10) in
  param_groups w' = [scenario_group] /\
  (forall k, grad (heap w' k) = Some (mkGradient [(1 / 10)%R] false)) /\
  steps w' the_param = S n /\
  first_moment w' the_param = [m'] /\
  second_moment w' the_param = [v'] /\
  value w' the_param =
    [rule_param default_lr (9 / 10) (999 / 1000) default_eps (S n) theta m' v'].
Proof.
  intros Hgroups Hgrads Hval Hsteps Hm Hv w' m' v'.
  assert (steppable w) as Hok.
  { split.
    - unfold all_params. rewrite Hgroups. simpl. apply NoDup_singleton.
    - rewrite Hgroups. intros group ->%list_elem_of_singleton. split.
      + unfold valid_betas, scenario_group, default_betas. simpl. lra.
      + intros k ->%list_elem_of_singleton. split.
        * rewrite Hgrads. intros g [= <-]. simpl. split; [done|].
          unfold value in Hval. by rewrite Hval.
        * intros s Hs. unfold first_moment, second_moment, value in *.
          rewrite Hs in Hm, Hv. unfold consistent. rewrite Hm, Hv, Hval. done. }
  destruct (step_total None unset w eq_refl Hok) as [w1 E].
  assert (w' = w1) as -> by (unfold w'; by rewrite E).
  destruct (step_frame _ _ _ _ _ E) as [Hg' Hgr'].
  destruct (step_update_views None unset w w1 None scenario_group the_param
              (mkGradient [(1 / 10)%R] false) E eq_refl)
    as (_ & Hs' & _ & _ & _ & L & Lm & Lv & Hel).
  { unfold all_params. rewrite Hgroups. simpl. apply NoDup_singleton. }
  { rewrite Hgroups. by apply list_elem_of_singleton. }
  { by apply list_elem_of_singleton. }
  { apply Hgrads. }
  { done. }
  destruct (Hel 0 theta (1 / 10)%R m v) as (Hm' & Hv' & Hp');
    [by rewrite Hval | done | by rewrite Hm | by rewrite Hv |].
  simpl in Hm', Hv', Hp'. rewrite rule_grad_no_decay in Hm', Hv', Hp'.
  rewrite Hval in L, Lm, Lv. simpl in L, Lm, Lv.
  split; [by rewrite Hg'|]. split; [intros k; by rewrite Hgr'|].
  split; [by rewrite Hs', Hsteps|].
  split; [by apply singleton_of_lookup|].
  split; [by apply singleton_of_lookup|].
  apply singleton_of_lookup; [done|]. by rewrite Hsteps in Hp'.
Qed.

Lemma scenario_delta_bounds : (0 < scenario_delta < default_lr)%R.
Proof.
  unfold scenario_delta, default_lr, default_eps. split.
  - apply Rdiv_lt_0_compat; lra.
  - apply Rmult_lt_reg_r with (1 / 10 + 1 / 100000000)%R; [lra|].
    unfold Rdiv at 1. rewrite Rmult_assoc, Rinv_l by lra. lra.
Qed.

Lemma scenario_first_moments :
  rule_m (9 / 10) 0 (1 / 10) = (1 / 100)%R /\
  rule_v (999 / 1000) 0 (1 / 10) = (1 / 100000)%R /\
  rule_m (9 / 10) (1 / 100) (1 / 10) = (19 / 1000)%R /\
  rule_v (999 / 1000) (1 / 100000) (1 / 10) = (1999 / 100000000)%R.
Proof. unfold rule_m, rule_v. repeat split; lra. Qed.

Lemma scenario_first_update :
  rule_param default_lr (9 / 10) (999 / 1000) default_eps 1 1 (1 / 100) (1 / 100000)
  = (1 - scenario_delta)%R.
Proof.
  unfold rule_param, scenario_delta, default_lr.
  rewrite (sqrt_ratio (1 / 100000) (1 - (999 / 1000) ^ 1)) by (simpl; lra).
  simpl. field. unfold default_eps. lra.
Qed.

Lemma scenario_second_update theta :
  rule_param default_lr (9 / 10) (999 / 1000) default_eps 2 theta (19 / 1000)
             (1999 / 100000000)
  = (theta - scenario_delta)%R.
Proof.
  unfold rule_param, scenario_delta, default_lr.
  rewrite (sqrt_ratio (1999 / 100000000) (1 - (999 / 1000) ^ 2)) by (simpl; lra).
  simpl. field. unfold default_eps. lra.
Qed.

Lemma scenario_after_one :
  let w1 := fst (step None (Some unset) scenario) in
  param_groups w1 = [scenario_group] /\
  (forall k, grad (heap w1 k) = Some (mkGradient [(1 / 10)%R] false)) /\
  steps w1 the_param = 1 /\
  first_moment w1 the_param = [(1 / 100)%R] /\
  second_moment w1 the_param = [(1 / 100000)%R] /\
  value w1 the_param = [(1 - scenario_delta)%R].
Proof.
  destruct scenario_first_moments as (Em & Ev & _).
  pose proof (scenario_like_step scenario 1 0 0 0 eq_refl (fun _ => eq_refl)
                eq_refl eq_refl eq_refl eq_refl) as H.
  cbv zeta in H. by rewrite Em, Ev, scenario_first_update in H.
Qed.

Lemma scenario_after_two :
  let w1 := fst (step None (Some unset) scenario) in
  let w2 := fst (step None (Some unset) w1) in
  steps w2 the_param = 2 /\
  value w2 the_param = [(1 - scenario_delta - scenario_delta)%R].
Proof.
  intros w1 w2. destruct scenario_after_one as (Hg & Hgr & Hs & Hm & Hv & Hval).
  fold w1 in Hg, Hgr, Hs, Hm, Hv, Hval.
  destruct scenario_first_moments as (_ & _ & Em & Ev).
  pose proof (scenario_like_step w1 _ _ _ _ Hg Hgr Hval Hs Hm Hv) as H.
  cbv zeta in H. fold w2 in H. rewrite Em, Ev, scenario_second_update in H.
  destruct H as (_ & _ & ? & _ & _ & ?). done.
Qed.

(** C2 as stated fails: the first call with the skip signal unset already
    moves the parameter of the scenario away from 1.0. *)
Lemma first_step_moves_the_parameter :
  fitem unset = false /\
  steps scenario the_param = 0 /\
  value (run [Step None (Some unset)] scenario) the_param <> [1%R].
Proof.
  split; [done|]. split; [done|].
  change (run [Step None (Some unset)] scenario)
    with (fst (step None (Some unset) scenario)).
  destruct scenario_after_one as (_ & _ & _ & _ & _ & ->).
  pose proof scenario_delta_bounds. intros [= H']. lra.
Qed.

(** The two steps of the scenario. *)
Lemma scenario_two_steps :
  let w1 := run [Step None (Some unset)] scenario in
  let w2 := run [Step None (Some unset); Step None (Some unset)] scenario in
  (0 < scenario_delta < default_lr)%R /\
  steps w1 the_param = 1 /\
  first_moment w1 the_param = [(1 / 100)%R] /\
  second_moment w1 the_param = [(1 / 100000)%R] /\
  value w1 the_param = [(1 - scenario_delta)%R] /\
  steps w2 the_param = 2 /\
  value w2 the_param = [(1 - scenario_delta - scenario_delta)%R].
Proof.
  intros w1 w2.
  change w1 with (fst (step None (Some unset) scenario)).
  change w2 with (fst (step None (Some unset) (fst (step None (Some unset) scenario)))).
  destruct scenario_after_one as (_ & _ & ? & ? & ? & ?).
  destruct scenario_after_two as (? & ?).
  split; [apply scenario_delta_bounds|]. done.
Qed.


(** * Raising in the middle of a group *)

Lemma collect_app group fi ps1 ps2 acc w :
  collect group fi acc (ps1 ++ ps2) w =
  bind (collect group fi acc ps1) (fun acc' => collect group fi acc' ps2) w.
Proof.
  revert acc w. induction ps1 as [|p ps1 IH]; intros acc w; simpl; [done|].
  unfold bind in *. destruct (collect_param group fi acc p w) as [w1 [acc1|e]]; [|done].
  apply IH.
Qed.

Lemma step_groups_app fi gs1 gs2 w :
  step_groups fi (gs1 ++ gs2) w =
  bind (step_groups fi gs1) (fun _ => step_groups fi gs2) w.
Proof.
  revert w. induction gs1 as [|g gs1 IH]; intros w; simpl; [done|].
  unfold bind in *. destruct (step_group fi g w) as [w1 [[]|e]]; [|done].
  apply IH.
Qed.

Lemma collect_gatherable group fi ps :
  forall acc w,
    (forall k, k ∈ ps -> gatherable (amsgrad group) (heap w k) (state w !! k)) ->
    exists w' l, collect group fi acc ps w = (w', Ok l).
Proof.
  induction ps as [|p ps IH]; intros acc w Hok; simpl; [by eauto|].
  pose proof (collect_param_unfold group fi acc p w) as E.
  unfold collect_param_outcome in E.
  destruct (Hok p ltac:(set_solver)) as [Hdense Hmax].
  destruct (grad (heap w p)) as [g|] eqn:Eg.
  2:{ erewrite bind_run by exact E. apply IH. intros k Hk. apply Hok. set_solver. }
  rewrite (Hdense g eq_refl) in E.
  assert (amsgrad group && negb (bool_decide (is_Some
            (max_exp_avg_sq (lazy_state group w p)))) = false) as Hams.
  { destruct (amsgrad group) eqn:Ea; [|done]. simpl. rewrite bool_decide_true; [done|].
    unfold lazy_state. destruct (state w !! p) as [s|] eqn:Es; [by eapply Hmax|].
    unfold fresh_state. rewrite Ea. simpl. by eexists. }
  rewrite Hams in E. erewrite bind_run by exact E. apply IH.
  intros k Hk. destruct (Hok k ltac:(set_solver)) as [Hd Hm]. split; [done|].
  intros Ha s. simpl. destruct (decide (p = k)) as [->|].
  - rewrite lookup_insert_eq. intros [= <-].
    destruct (bump_fields fi (lazy_state group w k)) as (_ & _ & -> & _).
    destruct (amsgrad group); [|done]. simpl in Hams.
    by apply negb_false_iff, bool_decide_eq_true in Hams.
  - rewrite lookup_insert_ne by done. by apply Hm.
Qed.

Example sparse_second_step :
  step None (Some unset) sparse_second
  = (with_state sparse_second {[the_param := mkState 1 [0%R] [0%R] None]},
     Raise sparse_error).
Proof. reflexivity. Qed.

(** C5 as stated fails: with a dense parameter visited before the sparse
    one and the skip signal unset, the state record of the dense parameter
    has been created and its step count incremented when the error is
    raised. *)
Lemma sparse_error_after_state_mutation :
  snd (step None (Some unset) sparse_second) = Raise sparse_error /\
  state sparse_second !! the_param = None /\
  steps sparse_second the_param = 0 /\
  steps (fst (step None (Some unset) sparse_second)) the_param = 1.
Proof. rewrite sparse_second_step. done. Qed.

(** C5, amended: when the loop over a group's parameters reaches a
    parameter with a sparse gradient (the groups before it having been
    stepped and the parameters before it in the group having been got
    past), [step] raises the designated error; since the group was entered
    no parameter tensor has changed, no moment tensor of a state record
    that existed has changed, and the state records of the sparse parameter
    and of every parameter not visited before it in the group are
    untouched. *)
Theorem sparse_gradient_raises closure fi w groups1 group groups2 ps1 k ps2 g w1 :
  fshape fi = [] ->
  param_groups w = groups1 ++ group :: groups2 ->
  step_groups fi groups1 (after_closure closure w) = (w1, Ok tt) ->
  params group = ps1 ++ k :: ps2 ->
  (forall k', k' ∈ ps1 -> gatherable (amsgrad group) (heap w1 k') (state w1 !! k')) ->
  grad (heap w1 k) = Some g -> is_sparse g = true ->
  exists w',
    step closure (Some fi) w = (w', Raise sparse_error) /\
    (forall k', heap w' k' = heap w1 k') /\
    (forall k' s, state w1 !! k' = Some s ->
       exists s', state w' !! k' = Some s' /\ exp_avg s' = exp_avg s /\
                  exp_avg_sq s' = exp_avg_sq s /\
                  max_exp_avg_sq s' = max_exp_avg_sq s) /\
    (forall k', k' ∉ ps1 -> state w' !! k' = state w1 !! k').
Proof.
  intros Hshape Hgroups Hbefore Hparams Hok Hg Hsparse.
  destruct (collect_gatherable group fi ps1 no_lists w1 Hok) as (w' & l & E1).
  pose proof (pres_run _ _ _ _ _
                (collect_pres moments_kept group fi (collect_param_kept group fi) _ _) E1)
    as (Hheap & _ & _ & Hkept).
  pose proof (pres_run _ _ _ _ _ (collect_framed group fi ps1 no_lists) E1)
    as (_ & _ & Hframe).
  exists w'. split; [|split; [done|split]].
  - rewrite step_unfold, Hshape, Hgroups. simpl. cbv zeta.
    rewrite step_groups_app. erewrite bind_run by exact Hbefore. simpl.
    erewrite bind_raise; [done|].
    unfold step_group. erewrite bind_raise; [done|].
    rewrite Hparams, collect_app. erewrite bind_run by exact E1. simpl.
    erewrite bind_raise; [done|].
    rewrite collect_param_unfold. unfold collect_param_outcome.
    by rewrite Hheap, Hg, Hsparse.
  - intros k' s Hs. destruct (Hkept k' s Hs) as (s' & ? & ? & ? & ? & _). by exists s'.
  - intros k' Hk'. by apply Hframe.
Qed.

Lemma sparse_gradient_raises_witness :
  exists w',
    step None (Some unset) sparse_second = (w', Raise sparse_error) /\
    (forall k', heap w' k' = heap sparse_second k') /\
    (forall k' s, state sparse_second !! k' = Some s ->
       exists s', state w' !! k' = Some s' /\ exp_avg s' = exp_avg s /\
                  exp_avg_sq s' = exp_avg_sq s /\
                  max_exp_avg_sq s' = max_exp_avg_sq s) /\
    (forall k', k' ∉ [the_param] -> state w' !! k' = state sparse_second !! k').
Proof.
  apply (sparse_gradient_raises None unset sparse_second [] pair_group []
           [the_param] other_param [] (mkGradient [(1 / 10)%R] true) sparse_second).
  - reflexivity.
  - reflexivity.
  - reflexivity.
  - reflexivity.
  - intros k' Hk'. split.
    + simpl. intros g Hg. apply list_elem_of_singleton in Hk'. subst k'.
      injection Hg as <-. reflexivity.
    + simpl. intros Hams. discriminate Hams.
  - reflexivity.
  - reflexivity.
Defined.

(** C8 as stated fails: a call can raise after it has mutated state; here
    the sparse gradient of the second parameter makes it raise when the
    state record of the first has already been created and counted. *)
Lemma step_raises_after_mutating_state :
  (exists e, snd (step None (Some unset) sparse_second) = Raise e) /\
  state (fst (step None (Some unset) sparse_second)) !! the_param
    <> state sparse_second !! the_param.
Proof. rewrite sparse_second_step. split; [by eexists|]. done. Qed.

(** C8, amended: what [step] does to the optimizer and the parameters is
    confined to the tensors of the parameters in its groups and to their
    state records: a call that fails the check of the skip signal leaves
    everything as it was, and any other call, completed or not, leaves the
    groups with their hyperparameters as they were, the gradients as the
    closure (if any) left them, and the tensor and the state record of every
    parameter outside the groups untouched. *)
Theorem step_effects_are_confined closure found_inf w :
  let w' := fst (step closure found_inf w) in
  match found_inf with
  | None => step closure found_inf w = (w, Raise none_shape_error)
  | Some fi =>
      match fshape fi with
      | _ :: _ => step closure found_inf w = (w, Raise not_scalar_error)
      | [] =>
          let w0 := after_closure closure w in
          param_groups w' = param_groups w /\
          (forall k, grad (heap w' k) = grad (heap w0 k)) /\
          (forall k, k ∉ all_params w ->
                     heap w' k = heap w0 k /\ state w' !! k = state w !! k)
      end
  end.
Proof.
  intros w'. destruct found_inf as [fi|]; [|done].
  destruct (fshape fi) as [|d ds] eqn:E.
  2:{ by rewrite step_unfold, E. }
  unfold w'. rewrite step_unfold, E. simpl. cbv zeta.
  destruct (after_closure_facts closure w) as (Eg & Est & _).
  pose proof (step_groups_framed fi (param_groups w) (after_closure closure w))
    as (Hg & Hgr & Hfr).
  destruct (step_groups _ _ _) as [w1 [[]|e]]; simpl in *.
  - split; [by rewrite Hg|]. split; [done|].
    intros k Hk. destruct (Hfr k Hk) as [-> ->]. by rewrite Est.
  - split; [by rewrite Hg|]. split; [done|].
    intros k Hk. destruct (Hfr k Hk) as [-> ->]. by rewrite Est.
Qed.

Lemma step_effects_are_confined_witness :
  let w' := fst (step None (Some unset) scenario) in
  param_groups w' = param_groups scenario /\
  (forall k, grad (heap w' k) = grad (heap scenario k)) /\
  heap w' other_param = heap scenario other_param /\
  state w' !! other_param = state scenario !! other_param.
Proof.
  intros w'.
  destruct (step_effects_are_confined None (Some unset) scenario) as (Hg & Hgr & Hout).
  split; [exact Hg|]. split; [exact Hgr|].
  apply (Hout other_param). unfold all_params. simpl.
  intros Hin. apply list_elem_of_singleton in Hin. discriminate Hin.
Defined.


(** * The latency scraper *)

(** ** The matcher against the denotation of the pattern *)

Lemma nonspaces_then_sound k s m :
  nonspaces_then k s = Some m ->
  exists t rest m', t <> [] /\ Forall (fun c => isspace c = false) t /\
    s = t ++ rest /\ k rest = Some m' /\ m = t ++ m'.
Proof.
  revert m. induction s as [|c s IH]; intros m; simpl; [done|].
  destruct (isspace c) eqn:Ec; [done|].
  destruct (nonspaces_then k s) as [m1|] eqn:E1.
  - intros [= <-]. destruct (IH m1 eq_refl) as (t & rest & m' & Ht & Hall & -> & Hk & ->).
    exists (c :: t), rest, m'. repeat split; try done. by constructor.
  - destruct (k s) as [m'|] eqn:Hk; [|done]. intros [= <-].
    exists [c], s, m'. repeat split; try done. by repeat constructor.
Qed.

Lemma nonspaces_then_complete k t rest m' :
  t <> [] -> Forall (fun c => isspace c = false) t ->
  match rest with [] => True | c :: _ => isspace c = true end ->
  k rest = Some m' ->
  nonspaces_then k (t ++ rest) = Some (t ++ m').
Proof.
  intros Ht Hall Hrest Hk. induction Hall as [|c t Hc Hall IH]; [done|].
  simpl. rewrite Hc. destruct t as [|c' t].
  - simpl. assert (nonspaces_then k rest = None) as ->.
    { destruct rest as [|d rest]; simpl; [done|]. by rewrite Hrest. }
    by rewrite Hk.
  - by rewrite IH.
Qed.

Lemma match_here_sound p s m :
  match_here p s = Some m -> denotes p m /\ exists rest, s = m ++ rest.
Proof.
  revert s m. induction p as [|[c|] p IH]; intros s m; simpl.
  - intros [= <-]. split; [done|]. by exists s.
  - destruct s as [|c' s]; [done|]. destruct (Ascii.eqb c c') eqn:Ec; [|done].
    apply Ascii.eqb_eq in Ec as <-.
    destruct (match_here p s) as [m'|] eqn:E; [|done]. intros [= <-].
    destruct (IH s m' E) as (Hd & rest & ->). split; [by exists m'|]. by exists rest.
  - intros (t & rest & m' & Ht & Hall & -> & Hk & ->)%nonspaces_then_sound.
    destruct (IH rest m' Hk) as (Hd & rest' & ->).
    split; [by exists t, m'|]. exists rest'. by rewrite <- app_assoc.
Qed.

Lemma match_here_complete p m rest :
  delimited p = true -> denotes p m -> match_here p (m ++ rest) = Some m.
Proof.
  revert m. induction p as [|[c|] p IH]; intros m; simpl.
  - by intros _ ->.
  - intros Hp (m' & -> & Hd). simpl. rewrite Ascii.eqb_refl. by rewrite (IH m' Hp Hd).
  - destruct p as [|[c|] p]; try done.
    intros [Hc Hp]%andb_true_iff (t & m' & Ht & Hall & -> & Hd).
    rewrite <- app_assoc. apply nonspaces_then_complete; try done.
    + destruct Hd as (m'' & -> & _). done.
    + by apply IH.
Qed.

(** ** The search *)

Lemma re_search_Some p s m :
  re_search p s = Some m ->
  exists pre rest,
    s = pre ++ m ++ rest /\ match_here p (m ++ rest) = Some m /\
    forall pre1 pre2, pre = pre1 ++ pre2 -> pre2 <> [] ->
                      match_here p (pre2 ++ m ++ rest) = None.
Proof.
  induction s as [|c s IH]; simpl.
  - destruct (match_here p []) as [m0|] eqn:E; [|done]. intros [= <-].
    destruct (match_here_sound _ _ _ E) as (_ & rest & Hrest).
    exists [], rest. rewrite <- Hrest. repeat split; try done.
    intros pre1 pre2 H. by destruct pre1, pre2.
  - destruct (match_here p (c :: s)) as [m0|] eqn:E.
    + intros [= <-]. destruct (match_here_sound _ _ _ E) as (_ & rest & Hrest).
      exists [], rest. rewrite <- Hrest. repeat split; try done.
      intros pre1 pre2 H. by destruct pre1, pre2.
    + intros (pre & rest & -> & Hm & Hleft)%IH.
      exists (c :: pre), rest. repeat split; try done.
      intros [|c1 pre1] pre2; simpl.
      * intros <- _. exact E.
      * intros [= <- ->]. by apply (Hleft pre1 pre2).
Qed.

Lemma re_search_None p s pre suf :
  re_search p s = None -> s = pre ++ suf -> match_here p suf = None.
Proof.
  revert pre. induction s as [|c s IH]; intros pre; simpl.
  - destruct (match_here p []) eqn:E; [done|]. intros _ H.
    symmetry in H. apply app_eq_nil in H as [_ ->]. done.
  - destruct (match_here p (c :: s)) eqn:E; [done|]. intros Hs.
    destruct pre as [|c' pre]; simpl.
    + by intros <-.
    + intros [= <- ->]. by eapply IH.
Qed.

Lemma re_search_is_Some p pre suf m :
  match_here p suf = Some m -> is_Some (re_search p (pre ++ suf)).
Proof.
  intros Hm. destruct (re_search p (pre ++ suf)) eqn:E; [by eauto|].
  by rewrite (re_search_None _ _ _ _ E eq_refl) in Hm.
Qed.


(** ** Splitting, joining, stripping and tokens *)

Lemma split_nonempty sep s : split sep s <> [].
Proof.
  destruct s as [|c s]; simpl; [done|].
  destruct (Ascii.eqb c sep); [done|]. by destruct (split sep s).
Qed.

Lemma split_cons_other sep c s :
  Ascii.eqb c sep = false -> split sep (c :: s) = cons_head c (split sep s).
Proof. intros H. simpl. by rewrite H. Qed.

Lemma split_nosep sep s : Forall (fun c => c <> sep) s -> split sep s = [s].
Proof.
  induction 1 as [|c s Hc _ IH]; [done|].
  simpl. rewrite IH. by apply Ascii.eqb_neq in Hc as ->.
Qed.

Lemma split_app_sep sep a b :
  split sep (a ++ sep :: b) = split sep a ++ split sep b.
Proof.
  induction a as [|c a IH]; simpl.
  - by rewrite Ascii.eqb_refl.
  - destruct (Ascii.eqb c sep); rewrite IH; [done|].
    pose proof (split_nonempty sep a). by destruct (split sep a).
Qed.

Lemma last_split sep a y :
  Forall (fun c => c <> sep) y -> last (split sep (a ++ sep :: y)) = Some y.
Proof.
  intros Hy. rewrite split_app_sep, (split_nosep sep y Hy). apply last_snoc.
Qed.

Lemma join_cons_head sep c parts :
  parts <> [] -> join sep (cons_head c parts) = c :: join sep parts.
Proof. destruct parts as [|h [|h' t]]; done. Qed.

Lemma join_split sep s : join sep (split sep s) = s.
Proof.
  induction s as [|c s IH]; [done|].
  destruct (Ascii.eqb c sep) eqn:E.
  - simpl. rewrite E. apply Ascii.eqb_eq in E as ->.
    pose proof (split_nonempty sep s). destruct (split sep s) eqn:Es; [done|].
    simpl in *. by rewrite IH.
  - rewrite split_cons_other, join_cons_head, IH by (done || apply split_nonempty).
    done.
Qed.

Lemma join_middle sep parts1 l parts2 :
  parts2 <> [] ->
  exists a b, join sep (parts1 ++ l :: parts2) = a ++ l ++ sep :: b.
Proof.
  intros H2. induction parts1 as [|x parts1 (a & b & IH)]; simpl.
  - destruct parts2 as [|y parts2]; [done|]. by exists [], (join sep (y :: parts2)).
  - destruct (parts1 ++ l :: parts2) eqn:E; [by destruct parts1|].
    exists (x ++ sep :: a), b. rewrite IH. by rewrite <- app_assoc.
Qed.

Lemma in_removelast {A} (l : A) parts :
  In l (removelast parts) -> exists parts1 parts2, parts = parts1 ++ l :: parts2 /\ parts2 <> [].
Proof.
  intros Hin. destruct parts as [|x parts] using rev_ind; [done|].
  rewrite removelast_last in Hin. apply in_split in Hin as (p1 & p2 & ->).
  exists p1, (p2 ++ [x]). rewrite <- app_assoc. split; [done|]. by destruct p2.
Qed.

(** A line of a text sits in it, followed by its newline. *)
Lemma in_lines l s : In l (lines s) -> exists a b, s = a ++ l ++ newline :: b.
Proof.
  intros (p1 & p2 & E & H2)%in_removelast.
  destruct (join_middle newline p1 l p2 H2) as (a & b & Hj).
  exists a, b. by rewrite <- Hj, <- E, join_split.
Qed.

Lemma lines_app_newline a b : lines (a ++ newline :: b) = split newline a ++ lines b.
Proof.
  unfold lines. rewrite split_app_sep. apply removelast_app, split_nonempty.
Qed.

Lemma cons_head_removelast c parts :
  parts <> [] ->
  removelast (cons_head c parts) =
  match removelast parts with
  | [] => []
  | h :: t => (c :: h) :: t
  end /\
  List.last (cons_head c parts) [] =
  match removelast parts with
  | [] => c :: List.last parts []
  | _ :: _ => List.last parts []
  end.
Proof. destruct parts as [|h [|h' t]]; done. Qed.

Lemma split_app_nosep sep pre body :
  Forall (fun c => c <> sep) body ->
  split sep (pre ++ body) =
  removelast (split sep pre) ++ [List.last (split sep pre) [] ++ body].
Proof.
  intros Hb. induction pre as [|c pre IH].
  - simpl. by apply split_nosep.
  - destruct (Ascii.eqb c sep) eqn:E.
    + simpl. rewrite E, IH.
      pose proof (split_nonempty sep pre). by destruct (split sep pre).
    + change ((c :: pre) ++ body) with (c :: (pre ++ body)).
      rewrite !split_cons_other, IH by done.
      destruct (cons_head_removelast c (split sep pre) (split_nonempty _ _)) as [-> ->].
      pose proof (split_nonempty sep pre).
      by destruct (removelast (split sep pre)).
Qed.

Lemma lstrip_nonspace c s : isspace c = false -> lstrip (c :: s) = c :: s.
Proof. intros H. simpl. by rewrite H. Qed.

Lemma strip_token t :
  t <> [] -> Forall (fun c => isspace c = false) t -> strip (t ++ [newline]) = t.
Proof.
  intros Ht Hall. unfold strip.
  destruct t as [|c t]; [done|]. apply Forall_cons in Hall as Hall'.
  destruct Hall' as [Hc _]. simpl app at 1. rewrite (lstrip_nonspace c _ Hc).
  change (c :: t ++ [newline]) with ((c :: t) ++ [newline]).
  rewrite rev_unit. remember (rev (c :: t)) as r0 eqn:Er. symmetry in Er.
  change (lstrip (newline :: r0)) with (lstrip r0).
  destruct r0 as [|d r].
  { apply (f_equal (@length _)) in Er. rewrite length_rev in Er. done. }
  assert (isspace d = false) as Hd.
  { apply Forall_forall with (x := d) in Hall; [done|].
    apply list_elem_of_In, in_rev. rewrite Er. by left. }
  rewrite (lstrip_nonspace d r Hd), <- Er. apply rev_involutive.
Qed.

Lemma tokens_from_space cur x c y :
  isspace c = true ->
  tokens_from cur (x ++ c :: y) = tokens_from cur (x ++ [c]) ++ tokens_from [] y.
Proof.
  intros Hc. revert cur. induction x as [|d x IH]; intros cur; simpl.
  - rewrite Hc. by destruct cur.
  - destruct (isspace d); [|apply IH]. destruct cur; simpl; by rewrite IH.
Qed.

Lemma tokens_from_token cur t :
  Forall (fun c => isspace c = false) t ->
  tokens_from cur t = match rev cur ++ t with [] => [] | l => [l] end.
Proof.
  intros Hall. revert cur. induction Hall as [|c t Hc _ IH]; intros cur; simpl.
  - rewrite app_nil_r. destruct cur as [|d cur]; [done|].
    destruct (rev (d :: cur)) eqn:E; [|done].
    apply (f_equal (@length _)) in E. rewrite length_rev in E. done.
  - rewrite Hc, IH. simpl. by rewrite <- app_assoc.
Qed.

Lemma last_token_after_space x c t :
  isspace c = true -> t <> [] -> Forall (fun c => isspace c = false) t ->
  last_token (x ++ c :: t) = Some t.
Proof.
  intros Hc Ht Hall. unfold last_token, tokens.
  rewrite (tokens_from_space [] x c t Hc), (tokens_from_token [] t Hall). simpl.
  destruct t; [done|]. apply last_snoc.
Qed.

Lemma find_middle {A} (f : A -> bool) l1 x l2 :
  (forall y, In y l1 -> f y = false) -> f x = true ->
  List.find f (l1 ++ x :: l2) = Some x.
Proof.
  intros H1 Hx. induction l1 as [|y l1 IH]; simpl.
  - by rewrite Hx.
  - rewrite (H1 y) by (by left). apply IH. intros z Hz. apply H1. by right.
Qed.


(** ** What the pattern matches *)

Lemma denotes_app q1 q2 m :
  denotes (q1 ++ q2) m -> exists m1 m2, m = m1 ++ m2 /\ denotes q1 m1 /\ denotes q2 m2.
Proof.
  revert m. induction q1 as [|[c|] q1 IH]; intros m; simpl.
  - intros H. by exists [], m.
  - intros (m' & -> & (m1 & m2 & -> & H1 & H2)%IH).
    exists (c :: m1), m2. repeat split; try done. by exists m1.
  - intros (t & m' & Ht & Hall & -> & (m1 & m2 & -> & H1 & H2)%IH).
    exists (t ++ m1), m2. rewrite <- app_assoc. repeat split; try done. by exists t, m1.
Qed.

Lemma denotes_avoids c0 q m :
  isspace c0 = true -> avoids c0 q = true -> denotes q m -> Forall (fun c => c <> c0) m.
Proof.
  intros Hc0. revert m. induction q as [|[c|] q IH]; intros m; simpl.
  - by intros _ ->.
  - intros [Hc Hq]%andb_true_iff (m' & -> & Hd). constructor; [|by apply IH].
    by apply negb_true_iff, Ascii.eqb_neq in Hc.
  - intros Hq (t & m' & Ht & Hall & -> & Hd). apply Forall_app. split; [|by apply IH].
    eapply Forall_impl; [exact Hall|]. intros c Hc ->. congruence.
Qed.

Lemma nonspace_neq c c0 : isspace c0 = true -> isspace c = false -> c <> c0.
Proof. intros H0 H ->. congruence. Qed.

Lemma results_shape m :
  denotes results_pattern m ->
  exists head t5,
    m = head ++ space :: t5 ++ [newline] /\
    t5 <> [] /\ Forall (fun c => isspace c = false) t5 /\
    Forall (fun c => c <> newline) head.
Proof.
  change results_pattern with (results_head ++ [Lit space; NonSpaces; Lit newline]).
  intros (head & m2 & -> & Hhead & Htail)%denotes_app.
  destruct Htail as (? & -> & t5 & ? & Ht5 & Hall & -> & ? & -> & ->).
  exists head, t5. repeat split; try done.
  by apply (denotes_avoids newline results_head).
Qed.

(** ** The latency against the lines of the output *)

Lemma found_in_line_true l pre suf m :
  l ++ [newline] = pre ++ suf -> match_here results_pattern suf = Some m ->
  found_in_line l = true.
Proof.
  intros E Hm. unfold found_in_line. rewrite E.
  by destruct (re_search_is_Some results_pattern pre suf m Hm) as [? ->].
Qed.

Lemma found_in_line_in_text l a b :
  found_in_line l = true ->
  exists pre m rest, a ++ l ++ newline :: b = pre ++ m ++ rest /\
    m <> [] /\ length pre <= length a + length l /\
    match_here results_pattern (m ++ rest) = Some m.
Proof.
  unfold found_in_line. destruct (re_search _ _) as [m|] eqn:E; [|done]. intros _.
  apply re_search_Some in E as (pre & rest & E & Hm & _).
  destruct (match_here_sound _ _ _ Hm) as [Hd _].
  destruct (results_shape m Hd) as (head & t5 & Em & _).
  exists (a ++ pre), m, (rest ++ b). split; [|split; [|split]].
  - replace (l ++ newline :: b) with ((l ++ [newline]) ++ b)
      by (by rewrite <- app_assoc).
    rewrite E, <- !app_assoc. done.
  - rewrite Em. by destruct head.
  - apply (f_equal (@length _)) in E. rewrite !length_app in E. rewrite length_app.
    assert (length m <> 0) by (rewrite Em; destruct head; simpl; lia).
    simpl in E. lia.
  - by apply match_here_complete.
Qed.

Lemma latency_found out m :
  re_search results_pattern out = Some m ->
  exists l tok,
    List.find found_in_line (lines out) = Some l /\
    last_token l = Some tok /\ latency out = Ok tok.
Proof.
  intros Hs. pose proof Hs as (pre & rest & Eout & Hm & Hleft)%re_search_Some.
  destruct (match_here_sound _ _ _ Hm) as [Hd _].
  destruct (results_shape m Hd) as (head & t5 & Em & Ht5 & Hall & Hhead).
  set (seg := List.last (split newline pre) []).
  exists (seg ++ head ++ space :: t5), t5. split; [|split].
  - (* the first line that matches *)
    assert (out = (pre ++ head ++ space :: t5) ++ newline :: rest) as ->.
    { rewrite Eout, Em, <- !app_assoc. simpl. by rewrite <- !app_assoc. }
    rewrite lines_app_newline, split_app_nosep.
    2:{ apply Forall_app. split; [done|]. constructor; [done|].
        eapply Forall_impl; [exact Hall|]. intros c Hc. by apply nonspace_neq. }
    rewrite <- app_assoc. apply find_middle.
    + intros l Hl. destruct (found_in_line l) eqn:El; [exfalso|done].
      apply in_lines in Hl as (a & b & Epre).
      destruct (found_in_line_in_text l a b El) as (pre' & m' & rest' & E' & Hm' & Hlen & Hmatch).
      rewrite <- Epre in E'.
      assert (exists pre2, pre = pre' ++ pre2 /\ pre2 <> []) as (pre2 & Epre2 & Hne).
      { exists (drop (length pre') pre). split.
        - rewrite <- (take_drop (length pre') pre) at 1. f_equal.
          rewrite E'. by rewrite take_app_length.
        - intros Hnil. apply (f_equal (@length _)) in Hnil. rewrite length_drop in Hnil.
          rewrite Epre in Hnil. rewrite !length_app in Hnil. simpl in Hnil, Hlen. lia. }
      assert (pre2 ++ m ++ rest = m' ++ rest' ++ m ++ rest) as E2.
      { apply (app_inv_head pre'). rewrite !app_assoc, <- Epre2.
        rewrite E'. by rewrite <- !app_assoc. }
      specialize (Hleft pre' pre2 Epre2 Hne). rewrite E2 in Hleft.
      destruct (match_here_sound _ _ _ Hmatch) as [Hd' _].
      by rewrite (match_here_complete results_pattern m' (rest' ++ m ++ rest)
                    eq_refl Hd') in Hleft.
    + apply (found_in_line_true _ seg (head ++ space :: t5 ++ [newline]) m).
      * by rewrite <- !app_assoc.
      * rewrite <- Em. rewrite <- (app_nil_r m) at 1. by apply match_here_complete.
  - rewrite app_assoc. by apply last_token_after_space.
  - unfold latency. rewrite Hs, Em. unfold last_item. rewrite last_split.
    + simpl. by rewrite strip_token.
    + apply Forall_app. split; [|by repeat constructor].
      eapply Forall_impl; [exact Hall|]. intros c Hc. by apply nonspace_neq.
Qed.

Lemma latency_not_found out :
  re_search results_pattern out = None ->
  List.find found_in_line (lines out) = None /\ latency out = Ok not_available.
Proof.
  intros Hs. split; [|unfold latency; by rewrite Hs].
  destruct (List.find found_in_line (lines out)) as [l|] eqn:E; [exfalso|done].
  apply find_some in E as [(a & b & Eout)%in_lines Hl].
  destruct (found_in_line_in_text l a b Hl) as (pre & m & rest & E' & _ & _ & Hm).
  rewrite <- Eout in E'.
  by rewrite (re_search_None _ _ pre (m ++ rest) Hs E') in Hm.
Qed.

Example sample_latency : latency sample_output = Ok (list_ascii_of_string "s").
Proof. reflexivity. Qed.

Example no_results_latency :
  latency (list_ascii_of_string "Results: a b c d e f" ++ [newline]) = Ok not_available.
Proof. reflexivity. Qed.

(** * The debugger trap *)

#[local] Instance same_pdb_refl : Reflexive same_pdb.
Proof. by intros w. Qed.

#[local] Instance same_pdb_trans : Transitive same_pdb.
Proof. unfold same_pdb. intros w1 w2 w3 H1 H2. congruence. Qed.

Lemma same_pdb_write_exp_avg p t : pres same_pdb (write_exp_avg p t).
Proof.
  intros w. unfold write_exp_avg, deref, bind, get_state, set_state, ret, raise. simpl.
  by destruct (state w !! p).
Qed.

Lemma same_pdb_write_exp_avg_sq p t : pres same_pdb (write_exp_avg_sq p t).
Proof.
  intros w. unfold write_exp_avg_sq, deref, bind, get_state, set_state, ret, raise. simpl.
  by destruct (state w !! p).
Qed.

Lemma same_pdb_write_max_exp_avg_sq p t : pres same_pdb (write_max_exp_avg_sq p t).
Proof.
  intros w. unfold write_max_exp_avg_sq, deref, bind, get_state, set_state, ret, raise.
  simpl. by destruct (state w !! p).
Qed.

Lemma same_pdb_set_data p t : pres same_pdb (set_data p t).
Proof. by intros w. Qed.

(** Every iteration of the update loop enters the debugger, once. *)
Lemma adam_param_enters_debugger gr ea eas mx ss ams b1 b2 l wd e fi i p w :
  pdb_entries (fst (adam_param gr ea eas mx ss ams b1 b2 l wd e fi i p w))
  = S (pdb_entries w).
Proof.
  unfold adam_param. unfold bind at 1. simpl.
  match goal with
  | |- pdb_entries (fst (?m ?w1)) = _ =>
      enough (pres same_pdb m) as H by (rewrite (H w1); done)
  end.
  repeat first
    [ pres_step
    | apply same_pdb_write_exp_avg
    | apply same_pdb_write_exp_avg_sq
    | apply same_pdb_write_max_exp_avg_sq
    | apply same_pdb_set_data ].
Qed.

Lemma adam_param_debugger_run gr ea eas mx ss ams b1 b2 l wd e fi i p w w' r :
  adam_param gr ea eas mx ss ams b1 b2 l wd e fi i p w = (w', r) ->
  pdb_entries w' = S (pdb_entries w).
Proof.
  intros E. pose proof (adam_param_enters_debugger gr ea eas mx ss ams b1 b2 l wd e fi i p w)
    as H. by rewrite E in H.
Qed.

(** A completed first step of the scenario has entered the debugger. *)
Lemma debugger_entered_in_scenario :
  pdb_entries scenario = 0 /\
  pdb_entries (fst (step None (Some unset) scenario)) = 1.
Proof.
  split; [done|].
  destruct (step_total None unset scenario eq_refl scenario_steppable) as [w' E].
  rewrite E. simpl.
  apply step_Ok_groups in E as [_ E]. simpl in E.
  apply bind_Ok in E as (w1 & [] & E1 & [= <-]).
  apply bind_Ok in E1 as (w0 & l & Ec & El).
  destruct (collect_Ok _ _ _ (NoDup_singleton the_param) _ _ _ _ Ec) as (-> & _).
  pose proof (pres_run _ _ _ _ _
                (collect_pres moments_kept _ _ (collect_param_kept _ _) _ _) Ec)
    as (_ & _ & Hpdb & _).
  unfold adam_step_py, extend in El. simpl in El.
  apply bind_Ok in El as (w2 & [] & Ea & [= <-]).
  apply adam_param_debugger_run in Ea. by rewrite Ea, Hpdb.
Qed.

(** * Parameters without a gradient *)

#[local] Instance spares_refl : Reflexive spares.
Proof. by intros w. Qed.

#[local] Instance spares_trans : Transitive spares.
Proof.
  intros w1 w2 w3 (Hg1 & Hn1 & Hs1) (Hg2 & Hn2 & Hs2). split; [|split].
  - intros k. by rewrite Hg2.
  - intros k Hk. destruct (Hn1 k Hk) as [E1 E2].
    destruct (Hn2 k) as [E3 E4]; [by rewrite Hg1|]. by rewrite E3, E4.
  - intros k Hk. by apply Hs2, Hs1.
Qed.

Lemma spares_insert w p s :
  is_Some (grad (heap w p)) -> spares w (with_state w (<[p := s]> (state w))).
Proof.
  intros Hp. split; [done|]. split.
  - intros k Hk. split; [done|]. simpl. rewrite lookup_insert_ne; [done|].
    intros ->. rewrite Hk in Hp. by destruct Hp.
  - intros k Hk. simpl. destruct (decide (p = k)) as [->|?].
    + by rewrite lookup_insert_eq.
    + by rewrite lookup_insert_ne.
Qed.

Lemma collect_param_spares group fi acc p : pres spares (collect_param group fi acc p).
Proof.
  intros w. rewrite collect_param_unfold. unfold collect_param_outcome.
  destruct (grad (heap w p)) as [g|] eqn:Hg; [|done].
  destruct (is_sparse g); [done|].
  destruct (amsgrad group && _); simpl; apply spares_insert; by rewrite Hg.
Qed.

Lemma confined_spares K w w' :
  (forall k, k ∈ K -> is_Some (grad (heap w k))) -> confined K w w' -> spares w w'.
Proof.
  intros HK (_ & Hall & Hout). split; [|split].
  - intros k. by destruct (Hall k).
  - intros k Hk. apply Hout. intros Hin. apply HK in Hin. rewrite Hk in Hin.
    by destruct Hin.
  - intros k Hk. by apply (Hall k).
Qed.

(** The key lists that the loop over a group's parameters builds hold the
    parameters that have a gradient, in order. *)
Lemma collect_gathers group fi ps :
  forall acc w w' l,
    collect group fi acc ps w = (w', Ok l) ->
    params_with_grad l = params_with_grad acc ++ with_grad w ps /\
    exp_avgs l = exp_avgs acc ++ with_grad w ps /\
    exp_avg_sqs l = exp_avg_sqs acc ++ with_grad w ps /\
    max_exp_avg_sqs l
    = max_exp_avg_sqs acc ++ (if amsgrad group then with_grad w ps else []).
Proof.
  induction ps as [|p ps IH]; intros acc w w' l; simpl.
  - intros [= <- <-]. unfold with_grad. simpl. rewrite !app_nil_r.
    by destruct (amsgrad group); rewrite ?app_nil_r.
  - intros (w1 & acc1 & E1 & E2)%bind_Ok.
    specialize (IH _ _ _ _ E2). rewrite with_grad_cons.
    rewrite collect_param_unfold in E1. unfold collect_param_outcome in E1.
    destruct (grad (heap w p)) as [g|] eqn:Hg.
    2:{ by injection E1 as <- <-. }
    destruct (is_sparse g); [done|].
    destruct (amsgrad group && _); [done|]. injection E1 as <- <-.
    rewrite (with_grad_ext w (with_state w _) ps) in IH by done.
    destruct IH as (-> & -> & -> & ->). simpl.
    destruct (amsgrad group); by rewrite <- !app_assoc.
Qed.

Lemma step_group_spares fi group : pres spares (step_group fi group).
Proof.
  intros w. unfold step_group, bind.
  pose proof (collect_pres spares group fi (collect_param_spares group fi)
                (params group) no_lists w) as Hc.
  destruct (collect group fi no_lists (params group) w) as [w1 [l|e]] eqn:E; [|done].
  simpl in Hc. etrans; [exact Hc|].
  destruct (collect_gathers _ _ _ _ _ _ _ E) as (E1 & E2 & E3 & E4). simpl in *.
  apply (confined_spares (with_grad w (params group))).
  - intros k [Hk _]%with_grad_elem. destruct Hc as [Hg _]. by rewrite Hg.
  - apply adam_loop_confined.
    + by rewrite E1.
    + by rewrite E2.
    + by rewrite E3.
    + rewrite E4. destruct (amsgrad group); [done|]. apply list_subseteq_nil.
Qed.

Lemma step_groups_spares fi groups : pres spares (step_groups fi groups).
Proof. apply step_groups_pres; [apply _..|]. apply step_group_spares. Qed.

(** X3: whatever the skip signal and whether the call completes or raises,
    [step] does not touch a parameter that has no gradient attached (after
    the closure, if any, has run): its value is as before and so is its
    state record; none is created for it. *)
Theorem gradientless_parameter_untouched closure found_inf w k :
  grad (heap (after_closure closure w) k) = None ->
  let w' := fst (step closure found_inf w) in
  value w' k = value w k /\ state w' !! k = state w !! k.
Proof.
  intros Hk w'. unfold w'. destruct found_inf as [fi|]; [|by rewrite step_none].
  rewrite step_unfold. destruct (decide _); [done|]. cbv zeta.
  destruct (after_closure_facts closure w) as (_ & Est & Ed).
  pose proof (step_groups_spares fi (param_groups w) (after_closure closure w))
    as (_ & Hn & _).
  destruct (Hn k Hk) as [Eh Es].
  destruct (step_groups _ _ _) as [w1 [[]|e]]; simpl in *;
    unfold value; by rewrite Eh, Es, Est, Ed.
Qed.

Lemma gradientless_parameter_untouched_witness :
  let w' := fst (step None (Some unset) half_attached) in
  value w' other_param = value half_attached other_param /\
  state w' !! other_param = state half_attached !! other_param.
Proof.
  apply (gradientless_parameter_untouched None (Some unset) half_attached other_param).
  reflexivity.
Defined.

Lemma collect_no_gradient group fi ps acc w :
  with_grad w ps = [] -> collect group fi acc ps w = (w, Ok acc).
Proof.
  revert acc. induction ps as [|p ps IH]; intros acc; simpl; [done|].
  rewrite with_grad_cons. destruct (grad (heap w p)) as [g|] eqn:Hg; [done|].
  intros Hps. erewrite bind_run; [by apply IH|].
  rewrite collect_param_unfold. unfold collect_param_outcome. by rewrite Hg.
Qed.

Lemma with_grad_nil w ps :
  (forall k, k ∈ ps -> grad (heap w k) = None) -> with_grad w ps = [].
Proof.
  induction ps as [|p ps IH]; intros Hno; [done|].
  rewrite with_grad_cons, (Hno p) by apply list_elem_of_here.
  apply IH. intros k Hk. apply Hno. by apply list_elem_of_further.
Qed.

Lemma with_grad_app w ps1 ps2 :
  with_grad w (ps1 ++ ps2) = with_grad w ps1 ++ with_grad w ps2.
Proof. unfold with_grad. apply filter_app. Qed.

Lemma step_groups_no_gradient fi groups w :
  with_grad w (concat (map params groups)) = [] ->
  step_groups fi groups w = (w, Ok tt).
Proof.
  induction groups as [|group groups IH]; simpl; [done|].
  rewrite with_grad_app. intros [E1 E2]%app_eq_nil.
  erewrite bind_run; [by apply IH|].
  unfold step_group. erewrite bind_run by (by apply collect_no_gradient). done.
Qed.

(** X1: when no parameter of any group has a gradient attached (after the
    closure, if any, has run), a call of [step] with a scalar skip signal
    completes and returns the loss having done nothing beyond what the
    closure did: no tensor is changed, no state record is created, the
    debugger is not entered. *)
Theorem step_without_gradients closure fi w :
  fshape fi = [] ->
  (forall k, k ∈ all_params w -> grad (heap (after_closure closure w) k) = None) ->
  step closure (Some fi) w = (after_closure closure w, Ok (loss_of closure w)).
Proof.
  intros Hs Hno. rewrite step_unfold, Hs. simpl. cbv zeta.
  rewrite step_groups_no_gradient; [done|]. by apply with_grad_nil.
Qed.

Lemma step_without_gradients_witness :
  step None (Some set_) no_gradient = (no_gradient, Ok None).
Proof.
  apply (step_without_gradients None set_ no_gradient).
  - reflexivity.
  - intros k Hk. reflexivity.
Defined.

(** X2: a call of [step] that completes returns the loss that the closure
    computed from the parameter values as they were before the update, and
    [None] when no closure was passed; the gradients attached afterwards
    are the ones the closure left (the old ones without a closure), and the
    groups are as before. *)
Theorem step_returns_closure_loss closure fi w w' r :
  step closure (Some fi) w = (w', Ok r) ->
  r = loss_of closure w /\
  param_groups w' = param_groups w /\
  forall k, grad (heap w' k)
            = match closure with
              | None => grad (heap w k)
              | Some c => fst (c (fun k => data (heap w k))) k
              end.
Proof.
  intros Hstep. destruct (step_frame _ _ _ _ _ Hstep) as [Hg Hgr].
  split; [|split; [done|]].
  - rewrite step_unfold in Hstep. destruct (decide _); [done|]. cbv zeta in Hstep.
    destruct (step_groups _ _ _) as [w1 [[]|e]]; [|done]. by injection Hstep as _ <-.
  - intros k. rewrite Hgr. by destruct closure.
Qed.

Lemma step_returns_closure_loss_witness :
  let w' := fst (step None (Some unset) scenario) in
  None = loss_of None scenario /\
  param_groups w' = param_groups scenario /\
  forall k, grad (heap w' k) = grad (heap scenario k).
Proof.
  apply (step_returns_closure_loss None unset scenario
           (fst (step None (Some unset) scenario)) None).
  exact scenario_first_step.
Defined.

(** * State records and the debugger *)

Lemma collect_creates group fi ps :
  forall acc w w' l,
    collect group fi acc ps w = (w', Ok l) ->
    forall k, k ∈ with_grad w ps -> is_Some (state w' !! k).
Proof.
  induction ps as [|p ps IH]; intros acc w w' l; simpl.
  - intros _ k Hk. by apply elem_of_nil in Hk.
  - intros (w1 & acc1 & E1 & E2)%bind_Ok k Hk.
    pose proof (pres_run _ _ _ _ _ (collect_param_spares group fi acc p) E1)
      as (Hg & _ & _).
    pose proof (pres_run _ _ _ _ _
                  (collect_pres spares group fi (collect_param_spares group fi) ps acc1) E2)
      as (_ & _ & Hkeep).
    rewrite with_grad_cons in Hk.
    assert (k ∈ with_grad w ps -> is_Some (state w' !! k)) as Hrest.
    { intros Hin. apply (IH _ _ _ _ E2). by rewrite (with_grad_ext w w1). }
    rewrite collect_param_unfold in E1. unfold collect_param_outcome in E1.
    destruct (grad (heap w p)) as [g|] eqn:Hp; [|by apply Hrest].
    apply elem_of_cons in Hk as [->|Hk]; [|by apply Hrest].
    apply Hkeep.
    destruct (is_sparse g); [done|].
    destruct (amsgrad group && _); [done|]. injection E1 as <- _.
    simpl. by rewrite lookup_insert_eq.
Qed.

Lemma step_group_creates fi group w w' :
  step_group fi group w = (w', Ok tt) ->
  forall k, k ∈ with_grad w (params group) -> is_Some (state w' !! k).
Proof.
  intros (w1 & l & E1 & E2)%bind_Ok k Hk.
  pose proof (collect_creates _ _ _ _ _ _ _ E1 k Hk) as Hs.
  destruct (collect_gathers _ _ _ _ _ _ _ E1) as (G1 & G2 & G3 & G4). simpl in *.
  assert (confined (with_grad w (params group)) w1 w') as (_ & Hall & _).
  { unfold adam_step_py in E2.
    refine (pres_run (confined (with_grad w (params group))) _ _ _ _ _ E2).
    apply adam_loop_confined.
    - by rewrite G1.
    - by rewrite G2.
    - by rewrite G3.
    - rewrite G4. destruct (amsgrad group); [done|]. apply list_subseteq_nil. }
  by apply (Hall k).
Qed.

Lemma step_groups_creates fi groups :
  forall w w',
    step_groups fi groups w = (w', Ok tt) ->
    forall group k, group ∈ groups -> k ∈ with_grad w (params group) ->
                    is_Some (state w' !! k).
Proof.
  induction groups as [|g groups IH]; intros w w'; simpl.
  - intros _ group k Hg. by apply elem_of_nil in Hg.
  - intros (w1 & [] & E1 & E2)%bind_Ok group k Hg Hk.
    pose proof (pres_run _ _ _ _ _ (step_group_spares fi g) E1) as (Hgr & _ & _).
    pose proof (pres_run _ _ _ _ _ (step_groups_spares fi groups) E2) as (_ & _ & Hkeep).
    apply elem_of_cons in Hg as [->|Hg].
    + apply Hkeep. by apply (step_group_creates _ _ _ _ E1).
    + apply (IH _ _ E2 group k Hg). by rewrite (with_grad_ext w w1).
Qed.

(** X4: after a call of [step] that completes, every parameter of a group
    that has a gradient attached has a state record, also when the skip
    signal is set; a record created in a skipped call holds step count 0
    and zero moments of the shape of the parameter. *)
Theorem state_record_created closure fi w w' r group k :
  step closure (Some fi) w = (w', Ok r) ->
  group ∈ param_groups w -> k ∈ params group ->
  is_Some (grad (heap (after_closure closure w) k)) ->
  exists s', state w' !! k = Some s' /\
    (fitem fi = true -> state w !! k = None ->
     step_count s' = 0 /\ exp_avg s' = zeros_like (value w k) /\
     exp_avg_sq s' = zeros_like (value w k)).
Proof.
  intros Hstep Hgroup Hk Hg.
  pose proof Hstep as [_ Hgroups]%step_Ok_groups.
  destruct (step_groups_creates _ _ _ _ Hgroups group k Hgroup) as [s' Hs'].
  { by apply with_grad_elem. }
  exists s'. split; [done|]. intros Hfi Hnone.
  pose proof (pres_run _ _ _ _ _
                (step_skip closure (Some fi) ltac:(by exists fi)) Hstep) as Hun.
  destruct (Hun k) as (_ & H1 & H2 & H3 & _).
  unfold steps, first_moment, second_moment in *. by rewrite Hs', Hnone in *.
Qed.

Lemma state_record_created_witness :
  exists s', state (fst (step None (Some set_) scenario)) !! the_param = Some s' /\
    (fitem set_ = true -> state scenario !! the_param = None ->
     step_count s' = 0 /\ exp_avg s' = zeros_like (value scenario the_param) /\
     exp_avg_sq s' = zeros_like (value scenario the_param)).
Proof.
  apply (state_record_created None set_ scenario
           (fst (step None (Some set_) scenario)) None scenario_group the_param).
  - destruct (step_total None set_ scenario eq_refl scenario_steppable) as [w' E].
    rewrite E. reflexivity.
  - simpl. apply list_elem_of_singleton. reflexivity.
  - simpl. apply list_elem_of_singleton. reflexivity.
  - simpl. eexists. reflexivity.
Defined.

Lemma adam_loop_debugger gr ea eas mx ss ams b1 b2 l wd e fi ps :
  forall i w w' r,
    adam_loop gr ea eas mx ss ams b1 b2 l wd e fi i ps w = (w', r) ->
    pdb_entries w' <= pdb_entries w + length ps /\
    (r = Ok tt -> pdb_entries w' = pdb_entries w + length ps).
Proof.
  induction ps as [|p ps IH]; intros i w w' r; simpl.
  - intros [= <- <-]. lia.
  - unfold bind.
    destruct (adam_param gr ea eas mx ss ams b1 b2 l wd e fi i p w) as [w1 [[]|e1]] eqn:E1;
      apply adam_param_debugger_run in E1.
    + intros E2. apply IH in E2 as [Hle Heq]. split; [lia|]. intros Hr.
      specialize (Heq Hr). lia.
    + intros [= <- <-]. split; [lia|done].
Qed.

Lemma step_group_debugger fi group w w' r :
  step_group fi group w = (w', r) ->
  pdb_entries w' <= pdb_entries w + length (with_grad w (params group)) /\
  (r = Ok tt ->
   pdb_entries w' = pdb_entries w + length (with_grad w (params group))).
Proof.
  unfold step_group, bind.
  pose proof (collect_pres moments_kept group fi (collect_param_kept group fi)
                (params group) no_lists w) as (_ & _ & Hpdb & _).
  destruct (collect group fi no_lists (params group) w) as [w1 [l|e]] eqn:E; simpl in Hpdb.
  - destruct (collect_gathers _ _ _ _ _ _ _ E) as (G1 & _). simpl in G1.
    unfold adam_step_py. intros E2.
    destruct (adam_loop_debugger _ _ _ _ _ _ _ _ _ _ _ _ _ _ _ _ _ E2) as [Hle Heq].
    rewrite G1, Hpdb in *. done.
  - intros [= <- <-]. split; [lia|done].
Qed.

Lemma step_groups_debugger fi groups :
  forall w w' r,
    step_groups fi groups w = (w', r) ->
    pdb_entries w' <= pdb_entries w + length (with_grad w (concat (map params groups))) /\
    (r = Ok tt ->
     pdb_entries w' = pdb_entries w + length (with_grad w (concat (map params groups)))).
Proof.
  induction groups as [|g groups IH]; intros w w' r; simpl.
  - intros [= <- <-]. unfold with_grad. simpl. lia.
  - rewrite with_grad_app, length_app. unfold bind.
    destruct (step_group fi g w) as [w1 [[]|e1]] eqn:E1.
    + pose proof (pres_run _ _ _ _ _ (step_group_spares fi g) E1) as (Hgr & _ & _).
      apply step_group_debugger in E1 as [_ E1]. specialize (E1 eq_refl).
      intros [Hle Heq]%IH.
      rewrite (with_grad_ext w w1) in Hle, Heq by done. split; [lia|].
      intros Hr. specialize (Heq Hr). lia.
    + apply step_group_debugger in E1 as [E1 _]. intros [= <- <-]. split; [lia|done].
Qed.

(** X9: the loop of [adam_step_py] enters the debugger at the start of
    every iteration: a call of [step] that completes has entered it once
    for every parameter of the groups that has a gradient attached, skip
    signal or not, and a call that raises has entered it at most that
    often (not at all when the check of the skip signal fails). *)
Theorem debugger_entered_per_parameter closure found_inf w :
  let w0 := after_closure closure w in
  let w' := fst (step closure found_inf w) in
  let n := length (with_grad w0 (all_params w)) in
  pdb_entries w' <= pdb_entries w + n /\
  ((exists r, snd (step closure found_inf w) = Ok r) ->
   pdb_entries w' = pdb_entries w + n) /\
  ((forall fi, found_inf = Some fi -> fshape fi <> []) ->
   pdb_entries w' = pdb_entries w).
Proof.
  intros w0 w' n. unfold w'.
  destruct found_inf as [fi|].
  2:{ rewrite step_none. simpl. split; [lia|]. split; [by intros [r Hr]|done]. }
  rewrite step_unfold. destruct (decide _) as [Hs|Hs]; simpl.
  { split; [lia|]. split; [by intros [r Hr]|done]. }
  assert (pdb_entries w0 = pdb_entries w) as Ew0 by (unfold w0; by destruct closure).
  fold w0. destruct (step_groups fi (param_groups w) w0) as [w1 [[]|e]] eqn:E;
    apply step_groups_debugger in E as [Hle Heq]; simpl; fold (all_params w) in *;
    fold n in Hle, Heq; rewrite Ew0 in *.
  - split; [lia|]. split; [auto|]. intros Hfi. destruct (fshape fi) eqn:Ef.
    + by destruct (Hfi fi eq_refl).
    + simpl in Hs. lia.
  - split; [lia|]. split; [by intros [r Hr]|]. intros Hfi. destruct (fshape fi) eqn:Ef.
    + by destruct (Hfi fi eq_refl).
    + simpl in Hs. lia.
Qed.

(** * A state record without the running maximum *)

(** X5: when the loop over a group's parameters reaches a parameter with a
    dense gradient whose state record exists but holds no 'max_exp_avg_sq'
    while the group has amsgrad on (the groups before it having been
    stepped and the parameters before it in the group having been got
    past), [step] raises KeyError for that key; since the group was entered
    no parameter tensor has changed, and the state record of that parameter
    and of every parameter not visited before it in the group are
    untouched. *)
Theorem missing_running_max_raises closure fi w groups1 group groups2 ps1 k ps2 g s w1 :
  fshape fi = [] ->
  param_groups w = groups1 ++ group :: groups2 ->
  step_groups fi groups1 (after_closure closure w) = (w1, Ok tt) ->
  params group = ps1 ++ k :: ps2 ->
  (forall k', k' ∈ ps1 -> gatherable (amsgrad group) (heap w1 k') (state w1 !! k')) ->
  grad (heap w1 k) = Some g -> is_sparse g = false ->
  amsgrad group = true ->
  state w1 !! k = Some s -> max_exp_avg_sq s = None ->
  exists w',
    step closure (Some fi) w = (w', Raise missing_max_error) /\
    (forall k', heap w' k' = heap w1 k') /\
    state w' !! k = Some s /\
    (forall k', k' ∉ ps1 -> state w' !! k' = state w1 !! k').
Proof.
  intros Hshape Hgroups Hbefore Hparams Hok Hg Hdense Hams Hs Hmax.
  destruct (collect_gatherable group fi ps1 no_lists w1 Hok) as (w2 & l & E1).
  pose proof (pres_run _ _ _ _ _
                (collect_pres moments_kept group fi (collect_param_kept group fi) _ _) E1)
    as (Hheap & _ & _ & _).
  pose proof (pres_run _ _ _ _ _ (collect_framed group fi ps1 no_lists) E1)
    as (_ & _ & Hframe).
  assert (k ∉ ps1) as Hk.
  { intros Hin. destruct (Hok k Hin) as [_ Hmx].
    destruct (Hmx Hams s Hs) as [vm Hvm]. by rewrite Hmax in Hvm. }
  assert (state w2 !! k = Some s) as Hs2.
  { destruct (Hframe k Hk) as [_ ->]. done. }
  assert (collect_param group fi l k w2 = (w2, Raise missing_max_error)) as E2.
  { rewrite collect_param_unfold. unfold collect_param_outcome.
    rewrite Hheap, Hg, Hdense. unfold lazy_state. rewrite Hs2, Hams, Hmax. simpl.
    f_equal. unfold with_state. rewrite insert_id by done. apply world_eta. }
  exists w2. split; [|split; [done|split; [done|]]].
  - rewrite step_unfold, Hshape, Hgroups. simpl. cbv zeta.
    rewrite step_groups_app. erewrite bind_run by exact Hbefore. simpl.
    erewrite bind_raise; [done|].
    unfold step_group. erewrite bind_raise; [done|].
    rewrite Hparams, collect_app. erewrite bind_run by exact E1. simpl.
    erewrite bind_raise; [done|]. exact E2.
  - intros k' Hk'. by apply Hframe.
Qed.

Lemma missing_running_max_raises_witness :
  exists w',
    step None (Some unset) amsgrad_switched_on = (w', Raise missing_max_error) /\
    (forall k', heap w' k' = heap amsgrad_switched_on k') /\
    state w' !! the_param = Some (mkState 1 [(1 / 100)%R] [(1 / 100000)%R] None) /\
    (forall k', k' ∉ [] -> state w' !! k' = state amsgrad_switched_on !! k').
Proof.
  apply (missing_running_max_raises None unset amsgrad_switched_on [] amsgrad_group []
           [] the_param [] (mkGradient [(1 / 10)%R] false)
           (mkState 1 [(1 / 100)%R] [(1 / 100000)%R] None) amsgrad_switched_on).
  - reflexivity.
  - reflexivity.
  - reflexivity.
  - reflexivity.
  - intros k' Hk'. apply elem_of_nil in Hk'. destruct Hk'.
  - reflexivity.
  - reflexivity.
  - reflexivity.
  - reflexivity.
  - reflexivity.
Defined.

(** * The update in numbers *)

Lemma collect_dense group fi ps :
  forall acc w w' l,
    collect group fi acc ps w = (w', Ok l) ->
    forall k g, k ∈ ps -> grad (heap w k) = Some g -> is_sparse g = false.
Proof.
  induction ps as [|p ps IH]; intros acc w w' l; simpl.
  - intros _ k g Hk. by apply elem_of_nil in Hk.
  - intros (w1 & acc1 & E1 & E2)%bind_Ok k g Hk Hg.
    pose proof (pres_run _ _ _ _ _ (collect_param_spares group fi acc p) E1)
      as (Hgr & _ & _).
    apply elem_of_cons in Hk as [->|Hk].
    + rewrite collect_param_unfold in E1. unfold collect_param_outcome in E1.
      rewrite Hg in E1. by destruct (is_sparse g).
    + apply (IH _ _ _ _ E2 k g Hk). by rewrite Hgr.
Qed.

Lemma step_groups_dense fi groups :
  forall w w',
    step_groups fi groups w = (w', Ok tt) ->
    forall group k g, group ∈ groups -> k ∈ params group ->
                      grad (heap w k) = Some g -> is_sparse g = false.
Proof.
  induction groups as [|g0 groups IH]; intros w w'; simpl.
  - intros _ group k g Hg. by apply elem_of_nil in Hg.
  - intros (w1 & [] & E1 & E2)%bind_Ok group k g Hgroup Hk Hg.
    pose proof (pres_run _ _ _ _ _ (step_group_spares fi g0) E1) as (Hgr & _ & _).
    apply elem_of_cons in Hgroup as [->|Hgroup].
    + apply bind_Ok in E1 as (w2 & l & Ec & _).
      by apply (collect_dense _ _ _ _ _ _ _ Ec k g).
    + apply (IH _ _ E2 group k g Hgroup Hk). by rewrite Hgr.
Qed.

(** A call that completes has met no sparse gradient. *)
Lemma step_Ok_dense closure fi w w' r group k g :
  step closure (Some fi) w = (w', Ok r) ->
  group ∈ param_groups w -> k ∈ params group ->
  grad (heap (after_closure closure w) k) = Some g -> is_sparse g = false.
Proof.
  intros [_ Hgroups]%step_Ok_groups Hgroup Hk Hg.
  by apply (step_groups_dense _ _ _ _ Hgroups group k g).
Qed.

Lemma sqrt_scaled_square c x : (0 < c)%R -> (sqrt (c * x ^ 2) / sqrt c = Rabs x)%R.
Proof.
  intros Hc. rewrite sqrt_mult by (try lra; apply pow2_ge_0).
  replace (x ^ 2)%R with (Rsqr x) by (unfold Rsqr; ring).
  rewrite sqrt_Rsqr_abs. field. apply Rgt_not_eq. by apply sqrt_lt_R0.
Qed.

(** The rule on zero moments at t = 1. *)
Lemma first_update_closed_form lr_ b1 b2 eps_ theta g :
  (0 <= b1 < 1)%R -> (0 <= b2 < 1)%R ->
  rule_param lr_ b1 b2 eps_ 1 theta (rule_m b1 0 g) (rule_v b2 0 g)
  = (theta - lr_ * g / (Rabs g + eps_))%R.
Proof.
  intros H1 H2. unfold rule_param, rule_m, rule_v.
  replace (b2 * 0 + (1 - b2) * g ^ 2)%R with ((1 - b2 ^ 1) * g ^ 2)%R by ring.
  rewrite sqrt_scaled_square by (simpl; lra).
  unfold Rdiv. f_equal. f_equal. simpl. field. lra.
Qed.

Lemma first_update_bound lr_ eps_ g :
  (0 <= lr_)%R -> (0 < eps_)%R -> (Rabs (lr_ * g / (Rabs g + eps_)) <= lr_)%R.
Proof.
  intros Hlr Heps. pose proof (Rabs_pos g) as Hg.
  unfold Rdiv. rewrite !Rabs_mult, (Rabs_pos_eq lr_) by done.
  rewrite Rabs_inv, (Rabs_pos_eq (Rabs g + eps_)) by lra.
  rewrite Rmult_assoc. rewrite <- (Rmult_1_r lr_) at 2.
  apply Rmult_le_compat_l; [done|].
  apply (Rmult_le_reg_r (Rabs g + eps_)); [lra|].
  rewrite Rmult_assoc, Rinv_l by lra. lra.
Qed.

Lemma lookup_zeros_like (t : list R) i x :
  t !! i = Some x -> zeros_like t !! i = Some 0%R.
Proof. intros H. unfold zeros_like. by rewrite lookup_map, H. Qed.

(** X6: the first update of a parameter.  In a completed call with the skip
    signal unset, for a parameter that has a gradient and no state record
    yet, in a group without weight decay and with betas in [0,1): every
    element moves from theta to theta - lr g / (|g| + eps), whatever the
    betas and with or without amsgrad, its moments become (1 - b1) g and
    (1 - b2) g^2, and with lr >= 0 and eps > 0 it moves by at most lr. *)
Theorem first_update_moves_by_at_most_lr closure fi w w' r group k g :
  step closure (Some fi) w = (w', Ok r) ->
  fitem fi = false ->
  NoDup (all_params w) ->
  group ∈ param_groups w -> k ∈ params group ->
  grad (heap (after_closure closure w) k) = Some g ->
  state w !! k = None ->
  weight_decay group = 0%R -> valid_betas group ->
  steps w' k = 1 /\
  forall i theta gi,
    value w k !! i = Some theta -> gdata g !! i = Some gi ->
    first_moment w' k !! i = Some ((1 - fst (betas group)) * gi)%R /\
    second_moment w' k !! i = Some ((1 - snd (betas group)) * gi ^ 2)%R /\
    value w' k !! i = Some (theta - lr group * gi / (Rabs gi + eps group))%R /\
    ((0 <= lr group)%R -> (0 < eps group)%R ->
     (Rabs (theta - lr group * gi / (Rabs gi + eps group) - theta) <= lr group)%R).
Proof.
  intros Hstep Hfi Hnd Hgroup Hk Hg Hnone Hwd [Hb1 Hb2].
  pose proof (step_Ok_dense _ _ _ _ _ _ _ _ Hstep Hgroup Hk Hg) as Hdense.
  destruct (step_update_views _ _ _ _ _ _ _ _ Hstep Hfi Hnd Hgroup Hk Hg Hdense)
    as (_ & Hsteps & _ & _ & _ & _ & _ & _ & Helem).
  assert (steps w k = 0) as Hzero by (unfold steps; by rewrite Hnone).
  rewrite Hzero in Hsteps, Helem. split; [done|].
  intros i theta gi Hth Hgi.
  assert (first_moment w k !! i = Some 0%R) as Hm.
  { unfold first_moment. rewrite Hnone. by apply (lookup_zeros_like _ _ theta). }
  assert (second_moment w k !! i = Some 0%R) as Hv.
  { unfold second_moment. rewrite Hnone. by apply (lookup_zeros_like _ _ theta). }
  destruct (Helem i theta gi 0%R 0%R Hth Hgi Hm Hv) as (H1 & H2 & H3).
  assert (rule_grad (weight_decay group) theta gi = gi) as Egr.
  { unfold rule_grad. rewrite Hwd. by destruct (Req_dec_T 0 0). }
  rewrite Egr in H1, H2, H3.
  split; [rewrite H1; f_equal; unfold rule_m; ring|].
  split; [rewrite H2; f_equal; unfold rule_v; ring|].
  split.
  - destruct (amsgrad group).
    + destruct H3 as (vmax & Hvm & _ & ->). f_equal.
      assert (vmax = 0%R) as ->.
      { unfold running_max in Hvm. rewrite Hnone in Hvm.
        rewrite (lookup_zeros_like _ _ theta) in Hvm by done. by injection Hvm. }
      rewrite Rmax_right.
      * by apply first_update_closed_form.
      * unfold rule_v. pose proof (pow2_ge_0 gi). nra.
    + rewrite H3. f_equal. by apply first_update_closed_form.
  - intros Hlr Heps.
    replace (theta - lr group * gi / (Rabs gi + eps group) - theta)%R
      with (- (lr group * gi / (Rabs gi + eps group)))%R by ring.
    rewrite Rabs_Ropp. by apply first_update_bound.
Qed.

Lemma first_update_moves_by_at_most_lr_witness :
  let w' := fst (step None (Some unset) scenario) in
  steps w' the_param = 1 /\
  forall i theta gi,
    value scenario the_param !! i = Some theta -> [(1 / 10)%R] !! i = Some gi ->
    first_moment w' the_param !! i = Some ((1 - 9 / 10) * gi)%R /\
    second_moment w' the_param !! i = Some ((1 - 999 / 1000) * gi ^ 2)%R /\
    value w' the_param !! i = Some (theta - default_lr * gi / (Rabs gi + default_eps))%R /\
    ((0 <= default_lr)%R -> (0 < default_eps)%R ->
     (Rabs (theta - default_lr * gi / (Rabs gi + default_eps) - theta) <= default_lr)%R).
Proof.
  apply (first_update_moves_by_at_most_lr None unset scenario
           (fst (step None (Some unset) scenario)) None scenario_group the_param
           (mkGradient [(1 / 10)%R] false)).
  - exact scenario_first_step.
  - reflexivity.
  - unfold all_params. simpl. apply NoDup_singleton.
  - simpl. apply list_elem_of_singleton. reflexivity.
  - simpl. apply list_elem_of_singleton. reflexivity.
  - reflexivity.
  - reflexivity.
  - reflexivity.
  - unfold valid_betas. simpl. lra.
Defined.

(** * Invariants of the second moment *)

(** X7: under amsgrad, after a completed call with the skip signal unset,
    the running maximum of a parameter that has a gradient is, element by
    element, at least the new second moment and at least the running
    maximum before. *)
Theorem running_max_dominates closure fi w w' r group k :
  step closure (Some fi) w = (w', Ok r) ->
  fitem fi = false ->
  NoDup (all_params w) ->
  group ∈ param_groups w -> k ∈ params group ->
  is_Some (grad (heap (after_closure closure w) k)) ->
  amsgrad group = true ->
  length (second_moment w' k) = length (value w k) /\
  forall i v', second_moment w' k !! i = Some v' ->
    exists old new, running_max w k !! i = Some old /\
      running_max w' k !! i = Some new /\ (v' <= new)%R /\ (old <= new)%R.
Proof.
  intros Hstep Hfi Hnd Hgroup Hk [g Hg] Hams.
  pose proof (step_Ok_dense _ _ _ _ _ _ _ _ Hstep Hgroup Hk Hg) as Hdense.
  destruct (step_update_views _ _ _ _ _ _ _ _ Hstep Hfi Hnd Hgroup Hk Hg Hdense)
    as (_ & _ & L1 & L2 & L3 & _ & _ & L6 & Helem).
  split; [done|]. intros i v' Hv'.
  assert (i < length (value w k)) as Hi.
  { rewrite <- L6. by apply lookup_lt_Some in Hv'. }
  destruct (lookup_lt_is_Some_2 (value w k) i Hi) as [theta Hth].
  destruct (lookup_lt_is_Some_2 (gdata g) i ltac:(by rewrite L1)) as [gi Hgi].
  destruct (lookup_lt_is_Some_2 (first_moment w k) i ltac:(by rewrite L2)) as [m Hm].
  destruct (lookup_lt_is_Some_2 (second_moment w k) i ltac:(by rewrite L3)) as [v Hv].
  destruct (Helem i theta gi m v Hth Hgi Hm Hv) as (_ & H2 & H3).
  rewrite Hams in H3. destruct H3 as (vmax & Hvm & Hvm' & _).
  rewrite Hv' in H2. injection H2 as ->.
  exists vmax, (Rmax vmax (rule_v (snd (betas group)) v
                             (rule_grad (weight_decay group) theta gi))).
  split; [done|]. split; [done|]. split; [apply Rmax_r|apply Rmax_l].
Qed.

Lemma running_max_dominates_witness :
  let w := mkWorld (heap scenario) [amsgrad_group] ∅ 0 in
  let w' := fst (step None (Some unset) w) in
  length (second_moment w' the_param) = length (value w the_param) /\
  forall i v', second_moment w' the_param !! i = Some v' ->
    exists old new, running_max w the_param !! i = Some old /\
      running_max w' the_param !! i = Some new /\ (v' <= new)%R /\ (old <= new)%R.
Proof.
  intros w w'.
  assert (steppable w) as Hok.
  { split.
    - unfold all_params. simpl. apply NoDup_singleton.
    - intros group Hgroup. apply list_elem_of_singleton in Hgroup. subst group. split.
      + unfold valid_betas. simpl. lra.
      + intros k _. split.
        * simpl. intros g Hg. injection Hg as <-. split; reflexivity.
        * simpl. intros s Hs. rewrite lookup_empty in Hs. discriminate Hs. }
  destruct (step_total None unset w eq_refl Hok) as [w1 E].
  apply (running_max_dominates None unset w w' None amsgrad_group the_param).
  - unfold w'. rewrite E. reflexivity.
  - reflexivity.
  - unfold all_params. simpl. apply NoDup_singleton.
  - simpl. apply list_elem_of_singleton. reflexivity.
  - simpl. apply list_elem_of_singleton. reflexivity.
  - simpl. eexists. reflexivity.
  - reflexivity.
Defined.

(** X8: the second moments stay non-negative.  In a call that completes on
    an optimizer whose groups have the second beta in [0,1], a parameter
    whose second moment has no negative element before the call has none
    after it. *)
Theorem second_moment_stays_nonnegative closure fi w w' r k :
  step closure (Some fi) w = (w', Ok r) ->
  NoDup (all_params w) ->
  (forall group, group ∈ param_groups w -> (0 <= snd (betas group) <= 1)%R) ->
  Forall (fun x => (0 <= x)%R) (second_moment w k) ->
  Forall (fun x => (0 <= x)%R) (second_moment w' k).
Proof.
  intros Hstep Hnd Hbetas Hpos.
  destruct (fitem fi) eqn:Hfi.
  { pose proof (pres_run _ _ _ _ _
                  (step_skip closure (Some fi) ltac:(by exists fi)) Hstep) as Hun.
    destruct (Hun k) as (_ & _ & _ & -> & _). done. }
  destruct (decide (k ∈ with_grad (after_closure closure w) (all_params w)))
    as [Hin|Hout].
  - apply with_grad_elem in Hin as [[g Hg] (group & Hgroup & Hk)%all_params_elem].
    pose proof (step_Ok_dense _ _ _ _ _ _ _ _ Hstep Hgroup Hk Hg) as Hdense.
    destruct (step_update_views _ _ _ _ _ _ _ _ Hstep Hfi Hnd Hgroup Hk Hg Hdense)
      as (_ & _ & L1 & L2 & L3 & _ & _ & L6 & Helem).
    apply Forall_lookup. intros i x Hx.
    assert (i < length (value w k)) as Hi.
    { rewrite <- L6. by apply lookup_lt_Some in Hx. }
    destruct (lookup_lt_is_Some_2 (value w k) i Hi) as [theta Hth].
    destruct (lookup_lt_is_Some_2 (gdata g) i ltac:(by rewrite L1)) as [gi Hgi].
    destruct (lookup_lt_is_Some_2 (first_moment w k) i ltac:(by rewrite L2)) as [m Hm].
    destruct (lookup_lt_is_Some_2 (second_moment w k) i ltac:(by rewrite L3)) as [v Hv].
    destruct (Helem i theta gi m v Hth Hgi Hm Hv) as (_ & H2 & _).
    rewrite Hx in H2. injection H2 as ->.
    pose proof (Forall_lookup_1 _ _ _ _ Hpos Hv) as Hv0. simpl in Hv0.
    pose proof (Hbetas group Hgroup) as Hb.
    unfold rule_v.
    pose proof (pow2_ge_0 (rule_grad (weight_decay group) theta gi)). nra.
  - apply step_Ok_groups in Hstep as [_ Hstep].
    destruct (after_closure_facts closure w) as (Eg & Est & Ed).
    pose proof Hnd as Hnd'. unfold all_params in Hnd'. rewrite <- Eg in Hnd', Hstep.
    destruct (step_groups_Ok fi _ Hfi Hnd' _ _ Hstep) as [_ Hrest].
    destruct (Hrest k) as [Eh Es].
    { intros group Hgroup [Hgr Hk]%with_grad_elem. apply Hout, with_grad_elem.
      split; [done|]. apply all_params_elem. exists group. by rewrite <- Eg. }
    unfold second_moment in *. by rewrite Es, Eh, Est, Ed.
Qed.

Lemma second_moment_stays_nonnegative_witness :
  Forall (fun x => (0 <= x)%R)
         (second_moment (fst (step None (Some unset) scenario)) the_param).
Proof.
  apply (second_moment_stays_nonnegative None unset scenario
           (fst (step None (Some unset) scenario)) None the_param).
  - exact scenario_first_step.
  - unfold all_params. simpl. apply NoDup_singleton.
  - intros group Hgroup. simpl in Hgroup. apply list_elem_of_singleton in Hgroup.
    subst group. simpl. lra.
  - unfold second_moment. simpl. apply Forall_cons. split; [lra|apply Forall_nil_2].
Defined.

(** * Which check of the constructor fails *)

Lemma in_range_false x : ~ (0 <= x < 1)%R -> Rleb 0 x && Rltb x 1 = false.
Proof.
  intros H. destruct (Rleb 0 x) eqn:E1; [|done]. destruct (Rltb x 1) eqn:E2; [|done].
  apply Rleb_spec in E1. apply Rltb_spec in E2. destruct H. lra.
Qed.

Lemma in_range_true x : (0 <= x < 1)%R -> Rleb 0 x && Rltb x 1 = true.
Proof. intros [H1 H2]. by rewrite Rleb_true, Rltb_true. Qed.

(** X10: the constructor checks lr, eps, betas[0], betas[1] and
    weight_decay in this order and raises for the first one that is out of
    range, with the message of that check, whatever the later ones are and
    whatever the base constructor would do. *)
Theorem constructor_reports_first_offence {Params Optimizer : Type}
    (Optimizer_init : Params -> Defaults -> result Optimizer)
    (params_ : Params) (lr_ : R) (betas_ : R * R) (eps_ wd : R) (ams : bool) :
  let made := Adam_init Optimizer_init params_ lr_ betas_ eps_ wd ams in
  ((lr_ < 0)%R -> made = Raise (ValueError "Invalid learning rate: {}")) /\
  ((0 <= lr_)%R -> (eps_ < 0)%R ->
   made = Raise (ValueError "Invalid epsilon value: {}")) /\
  ((0 <= lr_)%R -> (0 <= eps_)%R -> ~ (0 <= fst betas_ < 1)%R ->
   made = Raise (ValueError "Invalid beta parameter at index 0: {}")) /\
  ((0 <= lr_)%R -> (0 <= eps_)%R -> (0 <= fst betas_ < 1)%R ->
   ~ (0 <= snd betas_ < 1)%R ->
   made = Raise (ValueError "Invalid beta parameter at index 1: {}")) /\
  ((0 <= lr_)%R -> (0 <= eps_)%R -> (0 <= fst betas_ < 1)%R ->
   (0 <= snd betas_ < 1)%R -> (wd < 0)%R ->
   made = Raise (ValueError "Invalid weight_decay value: {}")).
Proof.
  intros made. unfold made, Adam_init. repeat split.
  - intros H. by rewrite Rleb_false.
  - intros H1 H2. by rewrite (Rleb_true 0 lr_), (Rleb_false 0 eps_).
  - intros H1 H2 H3.
    by rewrite (Rleb_true 0 lr_), (Rleb_true 0 eps_), in_range_false.
  - intros H1 H2 H3 H4.
    by rewrite (Rleb_true 0 lr_), (Rleb_true 0 eps_), (in_range_true (fst betas_)),
         in_range_false.
  - intros H1 H2 H3 H4 H5.
    by rewrite (Rleb_true 0 lr_), (Rleb_true 0 eps_), !in_range_true, Rleb_false.
Qed.

Lemma constructor_reports_first_offence_witness :
  Adam_init accept_all [the_param] (-1)%R (2%R, 3%R) (-1)%R (-1)%R false
  = Raise (ValueError "Invalid learning rate: {}") /\
  Adam_init accept_all [the_param] default_lr (2%R, 3%R) default_eps (-1)%R false
  = Raise (ValueError "Invalid beta parameter at index 0: {}").
Proof.
  split.
  - apply (constructor_reports_first_offence accept_all [the_param] (-1)%R (2%R, 3%R)
             (-1)%R (-1)%R false). lra.
  - apply (constructor_reports_first_offence accept_all [the_param] default_lr
             (2%R, 3%R) default_eps (-1)%R false).
    + unfold default_lr. lra.
    + unfold default_eps. lra.
    + simpl. lra.
Defined.

(** * The fused path *)

Lemma index_nil {A} i w : @index A [] i w = (w, Raise index_error).
Proof. done. Qed.

Lemma index_outcome {A} (xs : list A) i w :
  index xs i w = (w, match xs !! i with Some x => Ok x | None => Raise index_error end).
Proof. unfold index. by destruct (xs !! i). Qed.

(** Without the list of running maxima the first iteration of the fused
    loop raises before it reaches the kernel. *)
Lemma adam_step_cpp_without_maxima kernel gr ea eas ss ams b1 b2 l wd e fi p ps w :
  adam_step_cpp kernel gr ea eas [] ss ams b1 b2 l wd e fi (p :: ps) w
  = (w, Raise index_error).
Proof.
  unfold adam_step_cpp. simpl. unfold cpp_param, bind, index.
  destruct (gr !! 0); [|done]. simpl.
  destruct (ea !! 0); [|done]. simpl.
  destruct (eas !! 0); [|done]. simpl.
  destruct (ss !! 0); [|done]. done.
Qed.

(** X11: [adam_step_cpp] reads [max_exp_avg_sqs[i]] whether or not amsgrad
    is on, while [step] fills that list only under amsgrad.  So, handed the
    lists that [step] builds for a group without amsgrad in which some
    parameter has a gradient, it raises IndexError in its first iteration,
    before the kernel is called: nothing is changed, whatever the kernel
    is. *)
Theorem fused_path_needs_running_maxima
    (kernel : FlagTensor -> nat -> key -> tensor -> key -> key -> key -> bool ->
              R -> R -> R -> R -> R -> M unit)
    group fi w w1 l :
  collect group fi no_lists (params group) w = (w1, Ok l) ->
  amsgrad group = false ->
  with_grad w (params group) <> [] ->
  max_exp_avg_sqs l = [] /\ params_with_grad l = with_grad w (params group) /\
  adam_step_cpp kernel (grads l) (exp_avgs l) (exp_avg_sqs l) (max_exp_avg_sqs l)
                (state_steps l) (amsgrad group) (fst (betas group)) (snd (betas group))
                (lr group) (weight_decay group) (eps group) fi (params_with_grad l) w1
  = (w1, Raise index_error).
Proof.
  intros E Hams Hsome.
  destruct (collect_gathers _ _ _ _ _ _ _ E) as (G1 & _ & _ & G4).
  rewrite Hams in G4. simpl in G1, G4. rewrite G1, G4.
  split; [done|]. split; [done|].
  destruct (with_grad w (params group)) as [|p ps]; [done|].
  apply adam_step_cpp_without_maxima.
Qed.

Lemma fused_path_needs_running_maxima_witness :
  let w1 := fst (collect scenario_group unset no_lists [the_param] scenario) in
  let l := extend no_lists [the_param] (grad_of scenario) (steps w1) false in
  adam_step_cpp marking_kernel (grads l) (exp_avgs l) (exp_avg_sqs l) (max_exp_avg_sqs l)
                (state_steps l) false (9 / 10)%R (999 / 1000)%R default_lr
                default_weight_decay default_eps unset (params_with_grad l) w1
  = (w1, Raise index_error).
Proof.
  intros w1 l.
  assert (collect scenario_group unset no_lists (params scenario_group) scenario
          = (w1, Ok l)) as E.
  { destruct (collect_total scenario_group unset [the_param]
                (NoDup_singleton the_param) no_lists scenario) as (w2 & l2 & E2).
    - destruct scenario_steppable as [_ Hs].
      destruct (Hs scenario_group) as [_ Hr].
      + simpl. apply list_elem_of_singleton. reflexivity.
      + exact Hr.
    - destruct (collect_Ok _ _ _ (NoDup_singleton the_param) _ _ _ _ E2) as (El & _).
      subst w1 l. simpl params. rewrite E2. simpl. rewrite El. reflexivity. }
  destruct (fused_path_needs_running_maxima marking_kernel scenario_group unset
              scenario w1 l E) as (_ & _ & H).
  - reflexivity.
  - simpl. unfold with_grad. simpl. discriminate.
  - exact H.
Defined.

(** * Restoring a pickled optimizer *)

Lemma setdefault_lookup (d : group_dict) k v k' :
  setdefault d k v !! k'
  = if decide (k = k') then Some (default v (d !! k)) else d !! k'.
Proof.
  unfold setdefault. destruct (d !! k) as [x|] eqn:E.
  - destruct (decide (k = k')) as [<-|?]; [by rewrite E|done].
  - destruct (decide (k = k')) as [<-|?].
    + by rewrite lookup_insert_eq.
    + by rewrite lookup_insert_ne.
Qed.

Lemma setdefault_idemp (d : group_dict) k v :
  setdefault (setdefault d k v) k v = setdefault d k v.
Proof.
  unfold setdefault at 1. rewrite setdefault_lookup.
  by destruct (decide (k = k)).
Qed.

(** X12: [__setstate__] passes on an exception of the base class; otherwise
    it leaves as many groups as the base class restored, in the same order,
    and in each of them group['amsgrad'] can be read: it is the value the
    group had, or False when the group had none; every other entry of
    every group is as the base class left it, and restoring the defaults
    again changes nothing. *)
Theorem setstate_defaults_amsgrad {Pickled : Type}
    (Optimizer_setstate : Pickled -> result (list group_dict)) (st : Pickled) :
  match Optimizer_setstate st with
  | Raise e => Adam_setstate Optimizer_setstate st = Raise e
  | Ok groups =>
      exists groups',
        Adam_setstate Optimizer_setstate st = Ok groups' /\
        length groups' = length groups /\
        Adam_setstate (fun _ : Pickled => Ok groups') st = Ok groups' /\
        forall i group, groups !! i = Some group ->
          exists group',
            groups' !! i = Some group' /\
            getitem group' "amsgrad"
            = Ok (default (PyBool false) (group !! "amsgrad")) /\
            forall k, k <> "amsgrad" -> group' !! k = group !! k
  end.
Proof.
  unfold Adam_setstate. destruct (Optimizer_setstate st) as [groups|e]; simpl; [|done].
  eexists. split; [done|]. split; [by rewrite length_map|]. split.
  - f_equal. rewrite map_map. apply map_ext. intros d. apply setdefault_idemp.
  - intros i group Hi. exists (setdefault group "amsgrad" (PyBool false)).
    split; [by rewrite lookup_map, Hi|]. split.
    + unfold getitem. rewrite setdefault_lookup. by destruct (decide _).
    + intros k Hk. rewrite setdefault_lookup. by destruct (decide _).
Qed.

Lemma setstate_defaults_amsgrad_witness :
  exists groups',
    Adam_setstate (fun _ : unit => Ok [old_group; new_group]) tt = Ok groups' /\
    (exists group', groups' !! 0 = Some group' /\
       getitem group' "amsgrad" = Ok (PyBool false) /\
       group' !! "lr" = Some (PyFloat default_lr)) /\
    (exists group', groups' !! 1 = Some group' /\
       getitem group' "amsgrad" = Ok (PyBool true)).
Proof.
  destruct (setstate_defaults_amsgrad (fun _ : unit => Ok [old_group; new_group]) tt)
    as (groups' & E & _ & _ & H).
  exists groups'. split; [exact E|]. split.
  - destruct (H 0 old_group eq_refl) as (group' & H0 & Hget & Hrest).
    exists group'. split; [exact H0|]. split; [exact Hget|].
    rewrite Hrest; [reflexivity|discriminate].
  - destruct (H 1 new_group eq_refl) as (group' & H1 & Hget & _).
    exists group'. split; [exact H1|exact Hget].
Defined.

(** * The latency in terms of the occurrences of a result line *)

Lemma denotes_results_line m :
  denotes results_pattern m <->
  exists t1 t2 t3 t4 t5,
    token t1 /\ token t2 /\ token t3 /\ token t4 /\ token t5 /\
    m = results_line t1 t2 t3 t4 t5.
Proof.
  unfold results_line, token. split.
  - simpl. intros H.
    repeat match goal with
           | H : exists _, _ |- _ => destruct H
           | H : _ /\ _ |- _ => destruct H
           end.
    subst. do 5 eexists. repeat split; eassumption.
  - intros (t1 & t2 & t3 & t4 & t5 & [? ?] & [? ?] & [? ?] & [? ?] & [? ?] & ->).
    simpl. do 9 (eexists; split; [reflexivity|]).
    exists t1. eexists. do 3 (split; [done|]). eexists. split; [reflexivity|].
    exists t2. eexists. do 3 (split; [done|]). eexists. split; [reflexivity|].
    exists t3. eexists. do 3 (split; [done|]). eexists. split; [reflexivity|].
    exists t4. eexists. do 3 (split; [done|]). eexists. split; [reflexivity|].
    exists t5. eexists. do 3 (split; [done|]). eexists. split; [reflexivity|].
    done.
Qed.

Lemma token_no_space t : token t -> Forall (fun c => c <> space) (t ++ [newline]).
Proof.
  intros [_ Ht]. apply Forall_app. split.
  - eapply Forall_impl; [exact Ht|]. intros c Hc. by apply nonspace_neq.
  - by apply Forall_singleton.
Qed.

Lemma results_line_split t1 t2 t3 t4 t5 :
  results_line t1 t2 t3 t4 t5
  = (list_ascii_of_string "Results: " ++ t1 ++ space :: t2 ++ space :: t3 ++ space :: t4)
    ++ space :: (t5 ++ [newline]).
Proof.
  unfold results_line.
  by repeat (rewrite <- app_assoc || rewrite <- app_comm_cons).
Qed.

Lemma occurrence_found pre t5 out :
  occurs_at pre t5 out -> is_Some (re_search results_pattern out).
Proof.
  intros (t1 & t2 & t3 & t4 & post & H1 & H2 & H3 & H4 & H5 & ->).
  apply (re_search_is_Some _ _ _ (results_line t1 t2 t3 t4 t5)).
  apply match_here_complete; [done|].
  apply denotes_results_line. by exists t1, t2, t3, t4, t5.
Qed.

(** What the search returns is the leftmost occurrence, and the latency is
    its fifth token. *)
Lemma latency_of_match out m :
  re_search results_pattern out = Some m ->
  exists pre tok,
    latency out = Ok tok /\ occurs_at pre tok out /\
    forall pre0 t0, occurs_at pre0 t0 out -> length pre <= length pre0.
Proof.
  intros E. destruct (re_search_Some _ _ _ E) as (pre & rest & Hout & Hm & Hleft).
  destruct (match_here_sound _ _ _ Hm) as [Hden _].
  apply denotes_results_line in Hden
    as (t1 & t2 & t3 & t4 & t5 & H1 & H2 & H3 & H4 & H5 & ->).
  exists pre, t5. split; [|split].
  - unfold latency. rewrite E, results_line_split.
    unfold last_item. rewrite last_split by by apply token_no_space.
    simpl. f_equal. destruct H5. by apply strip_token.
  - by exists t1, t2, t3, t4, rest.
  - intros pre0 t0 (s1 & s2 & s3 & s4 & post0 & G1 & G2 & G3 & G4 & G5 & Hout0).
    destruct (decide (length pre <= length pre0)) as [|Hlt]; [done|exfalso].
    rewrite Hout in Hout0. apply app_eq_app in Hout0 as [l [[-> Hl]|[-> Hl]]].
    + destruct l as [|c l]; [rewrite app_nil_r in Hlt; lia|].
      specialize (Hleft pre0 (c :: l) eq_refl ltac:(done)).
      rewrite <- Hl in Hleft.
      rewrite match_here_complete in Hleft; [done..|].
      apply denotes_results_line. by exists s1, s2, s3, s4, t0.
    + rewrite length_app in Hlt. lia.
Qed.

(** X13: when the captured output has an occurrence of a text of the form
    "Results: t1 t2 t3 t4 t5" followed by a newline, each ti a non-empty
    run of non-whitespace characters, the latency reported is the fifth
    token of the leftmost occurrence. *)
Theorem latency_is_from_leftmost_occurrence out pre0 t0 :
  occurs_at pre0 t0 out ->
  exists pre tok,
    latency out = Ok tok /\ token tok /\ occurs_at pre tok out /\
    forall pre1 t1, occurs_at pre1 t1 out -> length pre <= length pre1.
Proof.
  intros [m E]%occurrence_found.
  destruct (latency_of_match out m E) as (pre & tok & Hlat & Hocc & Hleft).
  exists pre, tok. split; [done|]. split; [|done].
  by destruct Hocc as (? & ? & ? & ? & ? & _ & _ & _ & _ & ? & _).
Qed.

Lemma latency_is_from_leftmost_occurrence_witness :
  exists pre tok,
    latency sample_output = Ok tok /\ token tok /\ occurs_at pre tok sample_output /\
    forall pre1 t1, occurs_at pre1 t1 sample_output -> length pre <= length pre1.
Proof.
  apply (latency_is_from_leftmost_occurrence sample_output
           (list_ascii_of_string "warming up" ++ newline :: list_ascii_of_string "   ")
           (list_ascii_of_string "s")).
  exists (list_ascii_of_string "bert"), (list_ascii_of_string "8"),
    (list_ascii_of_string "128"), (list_ascii_of_string "0.0123"),
    (list_ascii_of_string "Results: bert 8 128 0.5 s" ++ [newline]).
  unfold token. repeat split; try discriminate; try reflexivity;
    repeat (apply Forall_cons; split; [reflexivity|]); apply Forall_nil_2.
Defined.

(** X14: when the captured output has no occurrence of such a text, the
    latency reported is the sentinel "N/A"; this is so in particular for an
    output without any newline, since the pattern ends in one. *)
Theorem latency_is_sentinel_without_occurrence out :
  ((forall pre t5, ~ occurs_at pre t5 out) -> latency out = Ok not_available) /\
  (newline ∉ out -> latency out = Ok not_available).
Proof.
  assert ((forall pre t5, ~ occurs_at pre t5 out) -> latency out = Ok not_available) as H.
  { intros Hno. destruct (re_search results_pattern out) as [m|] eqn:E.
    - destruct (latency_of_match out m E) as (pre & tok & _ & Hocc & _).
      by destruct (Hno pre tok).
    - by apply latency_not_found. }
  split; [done|]. intros Hnl. apply H.
  intros pre t5 (t1 & t2 & t3 & t4 & post & _ & _ & _ & _ & _ & ->).
  apply Hnl. rewrite results_line_split. set_solver.
Qed.

Lemma latency_is_sentinel_without_occurrence_witness :
  latency (list_ascii_of_string "Results: bert 8 128 0.5 s") = Ok not_available.
Proof.
  apply (latency_is_sentinel_without_occurrence
           (list_ascii_of_string "Results: bert 8 128 0.5 s")).
  simpl. intros Hin. repeat (apply elem_of_cons in Hin as [Hin|Hin]; [discriminate Hin|]).
  apply elem_of_nil in Hin. exact Hin.
Defined.


(** * What [adam_step_py] touches, and the running maximum under a skip *)

(** X16: [adam_step_py] works on the tensors it is handed and on nothing
    else: whatever the lists and whether it completes or raises, it leaves
    the groups, every gradient and every step count as they were, creates
    and deletes no state record, and leaves alone the tensor and the state
    record of every parameter that is neither in [params] nor referenced
    by one of the lists of moments. *)
Theorem adam_step_py_frame gr ea eas mx ss ams b1 b2 l wd e fi ps w :
  let w' := fst (adam_step_py gr ea eas mx ss ams b1 b2 l wd e fi ps w) in
  param_groups w' = param_groups w /\
  (forall k, grad (heap w' k) = grad (heap w k) /\ steps w' k = steps w k /\
             (is_Some (state w' !! k) <-> is_Some (state w !! k))) /\
  (forall k, k ∉ ps -> k ∉ ea -> k ∉ eas -> k ∉ mx ->
             heap w' k = heap w k /\ state w' !! k = state w !! k).
Proof.
  intros w'.
  destruct (adam_loop_confined gr ea eas mx ss ams b1 b2 l wd e fi
              (ps ++ ea ++ eas ++ mx) ps ltac:(set_solver) ltac:(set_solver)
              ltac:(set_solver) ltac:(set_solver) 0 w) as (Hg & Hall & Hout).
  split; [done|]. split; [done|].
  intros k H1 H2 H3 H4. apply Hout. set_solver.
Qed.

Lemma adam_param_skip_max gr ea eas mx ss b1 b2 l wd e fi i k g t s vm w :
  gr !! i = Some g -> ea !! i = Some k -> eas !! i = Some k -> mx !! i = Some k ->
  ss !! i = Some t ->
  fitem fi = true -> state w !! k = Some s -> max_exp_avg_sq s = Some vm ->
  wp (adam_param gr ea eas mx ss true b1 b2 l wd e fi i k)
     (fun w' r => r = Ok tt ->
        exists vm', maximum vm (exp_avg_sq s) = Ok vm' /\
          state w' !! k
          = Some (mkState (step_count s) (exp_avg s) (exp_avg_sq s) (Some vm'))) w.
Proof.
  intros Hg Hea Heas Hmx Hss Hfi Hs Hvm. unfold adam_param. rewrite Hfi.
  wp_go.
  all: intros [=].
  all: clean_state.
  all: eexists; split; [reflexivity|].
  all: by rewrite lookup_insert_eq.
Qed.

Lemma adam_loop_aligned_skip b1 b2 l wd e fi (G : key -> tensor) (T : key -> nat) :
  fitem fi = true ->
  forall rest pre w w',
    NoDup (pre ++ rest) ->
    (forall k, k ∈ rest -> exists s, state w !! k = Some s /\ is_Some (max_exp_avg_sq s)) ->
    adam_loop (map G (pre ++ rest)) (pre ++ rest) (pre ++ rest) (pre ++ rest)
              (map T (pre ++ rest)) true b1 b2 l wd e fi (length pre) rest w
    = (w', Ok tt) ->
    (forall k, k ∈ rest ->
       exists s vm vm', state w !! k = Some s /\ max_exp_avg_sq s = Some vm /\
         maximum vm (exp_avg_sq s) = Ok vm' /\
         state w' !! k
         = Some (mkState (step_count s) (exp_avg s) (exp_avg_sq s) (Some vm'))) /\
    (forall k, k ∉ rest -> state w' !! k = state w !! k).
Proof.
  intros Hfi rest. induction rest as [|k rest IH]; intros pre w w' Hnd Hst; simpl.
  - intros [= <-]. split; [|done]. intros k Hk. by apply not_elem_of_nil in Hk.
  - intros (w1 & [] & E1 & E2)%bind_Ok.
    assert (k ∉ rest) as Hk.
    { apply NoDup_app in Hnd as (_ & _ & Hnd). by apply NoDup_cons in Hnd as [? _]. }
    destruct (Hst k) as (s & Hs & vm & Hvm); [set_solver|].
    pose proof (adam_param_skip_max (map G (pre ++ k :: rest)) (pre ++ k :: rest)
                  (pre ++ k :: rest) (pre ++ k :: rest)
                  (map T (pre ++ k :: rest)) b1 b2 l wd e fi (length pre) k
                  (G k) (T k) s vm w) as Hupd.
    unfold wp in Hupd. rewrite E1 in Hupd. simpl in Hupd.
    destruct Hupd as (vm' & Hmax & Hs1); try done.
    { by rewrite lookup_map, list_lookup_middle. }
    { by apply list_lookup_middle. }
    { by apply list_lookup_middle. }
    { by apply list_lookup_middle. }
    { by rewrite lookup_map, list_lookup_middle. }
    pose proof (pres_run _ _ _ _ _ (adam_param_confined _ _ _ _ _ _ _ _ _ _ _ _ _ _) E1)
      as (_ & _ & Hframe).
    assert (forall k', k' <> k -> state w1 !! k' = state w !! k') as Hother.
    { intros k' Hne. apply Hframe. unfold at_index.
      rewrite !list_lookup_middle by done. simpl. set_solver. }
    replace (pre ++ k :: rest) with ((pre ++ [k]) ++ rest) in E2, Hnd
      by (by rewrite <- app_assoc).
    replace (S (length pre)) with (length (pre ++ [k])) in E2
      by (rewrite length_app; simpl; lia).
    destruct (IH (pre ++ [k]) w1 w' Hnd) as [Hin Hout]; [|exact E2|].
    { intros k' Hk'. rewrite Hother by (by intros ->). apply Hst. set_solver. }
    split.
    + intros k' [->|Hk']%elem_of_cons.
      * exists s, vm, vm'. by rewrite (Hout k Hk).
      * destruct (Hin k' Hk') as (s2 & vm2 & vm2' & Hs2 & ?).
        exists s2, vm2, vm2'. rewrite <- Hother by (by intros ->). done.
    + intros k' [Hne Hk']%not_elem_of_cons. rewrite (Hout k' Hk'). by apply Hother.
Qed.

Lemma collect_has_max group fi ps :
  amsgrad group = true ->
  forall acc w w' l,
    collect group fi acc ps w = (w', Ok l) ->
    forall k, k ∈ with_grad w ps ->
      exists s, state w' !! k = Some s /\ is_Some (max_exp_avg_sq s).
Proof.
  intros Hams. induction ps as [|p ps IH]; intros acc w w' l; simpl.
  - intros _ k Hk. by apply elem_of_nil in Hk.
  - intros (w1 & acc1 & E1 & E2)%bind_Ok k Hk.
    pose proof (pres_run _ _ _ _ _ (collect_param_spares group fi acc p) E1)
      as (Hg & _ & _).
    pose proof (pres_run _ _ _ _ _
                  (collect_pres moments_kept group fi (collect_param_kept group fi) ps acc1)
                  E2) as (_ & _ & _ & Hkeep).
    rewrite with_grad_cons in Hk.
    assert (k ∈ with_grad w ps ->
            exists s, state w' !! k = Some s /\ is_Some (max_exp_avg_sq s)) as Hrest.
    { intros Hin. apply (IH _ _ _ _ E2). by rewrite (with_grad_ext w w1). }
    rewrite collect_param_unfold in E1. unfold collect_param_outcome in E1.
    destruct (grad (heap w p)) as [g|] eqn:Hp; [|by apply Hrest].
    apply elem_of_cons in Hk as [->|Hk]; [|by apply Hrest].
    destruct (is_sparse g); [done|]. rewrite Hams in E1. simpl in E1.
    destruct (bool_decide (is_Some (max_exp_avg_sq (lazy_state group w p)))) eqn:Hmax;
      [|done].
    apply bool_decide_eq_true in Hmax. simpl in E1. injection E1 as <- _.
    destruct (Hkeep p (bump fi (lazy_state group w p))) as (s' & Hs' & _ & _ & Hm & _).
    { simpl. by rewrite lookup_insert_eq. }
    exists s'. split; [done|]. rewrite Hm.
    by destruct (bump_fields fi (lazy_state group w p)) as (_ & _ & -> & _).
Qed.

Lemma step_group_skip_max fi group w w' :
  fitem fi = true -> amsgrad group = true -> NoDup (params group) ->
  step_group fi group w = (w', Ok tt) ->
  forall k, k ∈ with_grad w (params group) ->
    exists vm vm' s',
      max_exp_avg_sq (lazy_state group w k) = Some vm /\
      maximum vm (exp_avg_sq (lazy_state group w k)) = Ok vm' /\
      state w' !! k = Some s' /\ max_exp_avg_sq s' = Some vm'.
Proof.
  intros Hfi Hams Hnd (w1 & l & E1 & E2)%bind_Ok k Hk.
  pose proof (collect_has_max group fi _ Hams _ _ _ _ E1) as Hmax.
  destruct (collect_Ok _ _ _ Hnd _ _ _ _ E1) as (-> & _ & _ & Hin).
  unfold extend, no_lists, adam_step_py in E2. simpl in E2. rewrite Hams in E2.
  set (ks := with_grad w (params group)) in *.
  destruct (adam_loop_aligned_skip (fst (betas group)) (snd (betas group))
              (lr group) (weight_decay group) (eps group) fi (grad_of w) (steps w1)
              Hfi ks [] w1 w') as [Hupd _]; simpl.
  - by apply NoDup_filter.
  - done.
  - done.
  - destruct (Hupd k Hk) as (s & vm & vm' & Hs & Hvm & Hm & Hs').
    rewrite (Hin k Hk) in Hs. injection Hs as <-.
    unfold bump in *. rewrite Hfi in *.
    exists vm, vm'. eexists. split; [done|]. split; [done|]. split; [exact Hs'|done].
Qed.

(** X17: the skip signal does not guard the running maximum.  Under
    amsgrad, a completed call with the skip signal set replaces the running
    maximum of every parameter that has a gradient by its elementwise
    maximum with the second moment; so it stays as it is where it already
    dominates the second moment. *)
Theorem skipped_call_updates_running_max closure fi w w' r group k :
  step closure (Some fi) w = (w', Ok r) ->
  fitem fi = true ->
  NoDup (all_params w) ->
  group ∈ param_groups w -> k ∈ params group ->
  is_Some (grad (heap (after_closure closure w) k)) ->
  amsgrad group = true ->
  forall i vmax v,
    running_max w k !! i = Some vmax -> second_moment w k !! i = Some v ->
    running_max w' k !! i = Some (Rmax vmax v) /\
    ((v <= vmax)%R -> running_max w' k !! i = Some vmax).
Proof.
  intros Hstep Hfi Hnd Hgroup Hk Hg Hams i vmax v Hvmax Hv.
  assert (running_max w' k !! i = Some (Rmax vmax v)) as Hres.
  2:{ split; [done|]. intros Hle. by rewrite Hres, Rmax_left. }
  apply step_Ok_groups in Hstep as [_ Hstep].
  destruct (after_closure_facts closure w) as (Eg & Est & Ed).
  destruct (views_after_closure closure w k) as (_ & _ & _ & Ev2 & Emax).
  set (w0 := after_closure closure w) in *.
  apply list_elem_of_split in Hgroup as (g1 & g2 & Hsplit).
  unfold all_params in Hnd. rewrite Hsplit in Hnd, Hstep.
  rewrite step_groups_app in Hstep.
  apply bind_Ok in Hstep as (w1 & [] & E1 & E2). simpl in E2.
  apply bind_Ok in E2 as (w2 & [] & E2 & E3).
  rewrite map_app, concat_app in Hnd. simpl in Hnd.
  apply NoDup_app in Hnd as (_ & Hd1 & Hnd).
  apply NoDup_app in Hnd as (Hnd & Hd2 & _).
  pose proof (pres_run _ _ _ _ _ (step_groups_framed fi g1) E1) as (_ & Hgr1 & Hf1).
  pose proof (pres_run _ _ _ _ _ (step_groups_framed fi g2) E3) as (_ & _ & Hf3).
  destruct (Hf1 k) as [Eh1 Es1].
  { intros Hin. by apply (Hd1 k Hin), elem_of_app; left. }
  destruct (Hf3 k) as [_ Es3]; [by apply Hd2|].
  destruct (step_group_skip_max fi group w1 w2 Hfi Hams Hnd E2 k)
    as (vm & vm' & s' & Hvm & Hm & Hs' & Hvm').
  { apply with_grad_elem. split; [by rewrite Hgr1|done]. }
  rewrite (lazy_state_ext group w0 w1 k) in Hvm, Hm by done.
  destruct (lazy_state_views group w0 k) as (_ & Lv & Lmax).
  specialize (Lmax Hams). unfold max_moment in Lmax. rewrite Hvm in Lmax.
  rewrite Lv, Ev2 in Hm. rewrite <- Emax, <- Lmax in Hvmax.
  unfold running_max. rewrite Es3, Hs'. unfold max_moment. rewrite Hvm'.
  by apply (pointwise_lookup _ _ _ _ _ _ _ Hm).
Qed.

Lemma skipped_call_updates_running_max_witness :
  let w := mkWorld (heap scenario) [amsgrad_group] ∅ 0 in
  let w' := fst (step None (Some set_) w) in
  running_max w' the_param !! 0 = Some (Rmax 0 0) /\
  ((0 <= 0)%R -> running_max w' the_param !! 0 = Some 0%R).
Proof.
  intros w w'.
  assert (steppable w) as Hok.
  { split.
    - unfold all_params. simpl. apply NoDup_singleton.
    - intros group Hgroup. apply list_elem_of_singleton in Hgroup. subst group. split.
      + unfold valid_betas. simpl. lra.
      + intros k _. split.
        * simpl. intros g Hg. injection Hg as <-. split; reflexivity.
        * simpl. intros s Hs. rewrite lookup_empty in Hs. discriminate Hs. }
  destruct (step_total None set_ w eq_refl Hok) as [w1 E].
  apply (skipped_call_updates_running_max None set_ w w' None amsgrad_group the_param).
  - unfold w'. rewrite E. reflexivity.
  - reflexivity.
  - unfold all_params. simpl. apply NoDup_singleton.
  - simpl. apply list_elem_of_singleton. reflexivity.
  - simpl. apply list_elem_of_singleton. reflexivity.
  - simpl. eexists. reflexivity.
  - reflexivity.
  - reflexivity.
  - reflexivity.
Defined.

(** * The latency against the specification *)

Lemma split_no_sep sep s : Forall (Forall (fun c => c <> sep)) (split sep s).
Proof.
  induction s as [|c s IH]; simpl.
  { apply Forall_singleton. apply Forall_nil_2. }
  destruct (Ascii.eqb c sep) eqn:E.
  - apply Forall_cons. split; [apply Forall_nil_2|done].
  - apply Ascii.eqb_neq in E.
    destruct (split sep s) as [|h t].
    + apply Forall_singleton. by apply Forall_singleton.
    + apply Forall_cons in IH as [Hh Ht]. apply Forall_cons. split; [|done].
      by apply Forall_cons.
Qed.

Lemma lines_no_newline out l : In l (lines out) -> Forall (fun c => c <> newline) l.
Proof.
  intros Hl. apply in_removelast in Hl as (p1 & p2 & E & _).
  pose proof (split_no_sep newline out) as H. rewrite E in H.
  apply Forall_app in H as [_ H]. by apply Forall_cons in H as [H _].
Qed.

(** The search finds the pattern in a line exactly when the line matches. *)
Lemma matching_line_found l : matching_line l -> found_in_line l = true.
Proof.
  intros (pre & t1 & t2 & t3 & t4 & t5 & H1 & H2 & H3 & H4 & H5 & E).
  apply (found_in_line_true l pre (results_line t1 t2 t3 t4 t5 ++ [])
           (results_line t1 t2 t3 t4 t5)).
  - by rewrite app_nil_r.
  - apply match_here_complete; [done|].
    apply denotes_results_line. by exists t1, t2, t3, t4, t5.
Qed.

Lemma found_matching_line l :
  Forall (fun c => c <> newline) l -> found_in_line l = true -> matching_line l.
Proof.
  intros Hl. unfold found_in_line.
  destruct (re_search results_pattern (l ++ [newline])) as [m|] eqn:E; [|done].
  intros _. apply re_search_Some in E as (pre & rest & E & Hm & _).
  destruct (match_here_sound _ _ _ Hm) as [Hden _].
  apply denotes_results_line in Hden
    as (t1 & t2 & t3 & t4 & t5 & H1 & H2 & H3 & H4 & H5 & ->).
  exists pre, t1, t2, t3, t4, t5. do 5 (split; [done|]).
  destruct rest as [|c rest] using rev_ind; [by rewrite app_nil_r in E|].
  exfalso. clear IHrest. rewrite !app_assoc in E.
  apply app_inj_tail in E as [E _].
  rewrite Forall_forall in Hl. apply (Hl newline); [|done].
  rewrite E, results_line_split.
  apply elem_of_app. left. apply elem_of_app. right. apply elem_of_app. right.
  apply elem_of_cons. right. apply elem_of_app. right. by apply list_elem_of_singleton.
Qed.

Lemma find_split {A} (f : A -> bool) xs x :
  List.find f xs = Some x ->
  exists l1 l2, xs = l1 ++ x :: l2 /\ f x = true /\ forall y, y ∈ l1 -> f y = false.
Proof.
  induction xs as [|a xs IH]; simpl; [done|].
  destruct (f a) eqn:Ea.
  - intros [= <-]. exists [], xs. split; [done|]. split; [done|].
    intros y Hy. by apply elem_of_nil in Hy.
  - intros (l1 & l2 & -> & Hx & Hl1)%IH. exists (a :: l1), l2.
    split; [done|]. split; [done|].
    intros y [->|Hy]%elem_of_cons; [done|by apply Hl1].
Qed.

(** The latency that the code extracts is the one the specification
    reports. *)
Lemma reports_latency out tok : reports out tok -> latency out = Ok tok.
Proof.
  intros [(before & l & after & Hlines & Hl & Hbefore & Htok)|[Hnone ->]].
  - assert (List.find found_in_line (lines out) = Some l) as Hfind.
    { rewrite Hlines. apply find_middle; [|by apply matching_line_found].
      intros y Hy. destruct (found_in_line y) eqn:Ey; [exfalso|done].
      apply (Hbefore y); [by apply list_elem_of_In|].
      apply found_matching_line; [|done].
      apply (lines_no_newline out). rewrite Hlines. apply in_or_app. by left. }
    destruct (re_search results_pattern out) as [m|] eqn:E.
    + destruct (latency_found out m E) as (l0 & tok0 & Hf0 & Htok0 & Hlat).
      rewrite Hfind in Hf0. injection Hf0 as <-. rewrite Htok in Htok0.
      by injection Htok0 as <-.
    + destruct (latency_not_found out E) as [Hf _]. by rewrite Hfind in Hf.
  - destruct (re_search results_pattern out) as [m|] eqn:E.
    + destruct (latency_found out m E) as (l0 & tok0 & Hf0 & _ & _).
      apply find_some in Hf0 as [Hin Hfound]. exfalso.
      apply (Hnone l0); [by apply list_elem_of_In|].
      apply found_matching_line; [by apply (lines_no_newline out)|done].
    + by destruct (latency_not_found out E) as [_ ->].
Qed.

Lemma extracted_reports out : reports out (extracted out).
Proof.
  unfold extracted. destruct (re_search results_pattern out) as [m|] eqn:E.
  - destruct (latency_found out m E) as (l & tok & Hfind & Htok & ->).
    left. apply find_split in Hfind as (before & after & Hlines & Hl & Hbefore).
    exists before, l, after. split; [done|]. split; [|split; [|done]].
    + apply found_matching_line; [|done].
      apply (lines_no_newline out). rewrite Hlines. apply in_or_app. right. by left.
    + intros l' Hin Hm. apply matching_line_found in Hm.
      by rewrite (Hbefore l' Hin) in Hm.
  - destruct (latency_not_found out E) as [Hfind ->]. right. split; [|done].
    intros l Hl Hm. apply matching_line_found in Hm.
    pose proof (find_none _ _ Hfind l) as Hf. rewrite Hf in Hm; [done|].
    by apply list_elem_of_In.
Qed.

Lemma latency_extracted out : latency out = Ok (extracted out).
Proof. apply reports_latency, extracted_reports. Qed.

(** * The sweep *)

Lemma for_each_complete {A} (body : A -> Out unit) g xs :
  (forall x, x ∈ xs -> body x = (g x, Ok tt)) ->
  for_each body xs = (flat_map g xs, Ok tt).
Proof.
  induction xs as [|x xs IH]; intros H; simpl; [done|].
  unfold out_bind. rewrite (H x) by apply list_elem_of_here.
  rewrite IH; [done|]. intros y Hy. apply H. by apply list_elem_of_further.
Qed.


Lemma sweep_body_complete run decode dir model seq_len batch_size x n :
  decode (run dir model batch_size seq_len true) = Ok x ->
  decode (run dir model batch_size seq_len false) = Ok n ->
  sweep_body run decode dir model seq_len batch_size
  = ([Running model batch_size seq_len true; Captured x;
      Running model batch_size seq_len false; Captured n;
      Columns; Aggregate model seq_len batch_size (extracted x) (extracted n)], Ok tt).
Proof.
  intros Ex En. unfold sweep_body, out_bind, out_lift, print.
  rewrite Ex. simpl. rewrite En. simpl. by rewrite !latency_extracted.
Qed.


(** When every captured output decodes, the sweep runs to its end and
    prints the block of every triple. *)
Lemma sweep_complete run decode dir models sequence_lengths batch_sizes :
  (forall model seq_len batch_size xla,
     model ∈ models -> seq_len ∈ sequence_lengths -> batch_size ∈ batch_sizes ->
     exists t, decode (run dir model batch_size seq_len xla) = Ok t) ->
  sweep run decode dir models sequence_lengths batch_sizes
  = (expected_output extracted run decode dir models sequence_lengths batch_sizes, Ok tt).
Proof.
  intros Hdec. unfold sweep, expected_output.
  apply for_each_complete. intros model Hm.
  apply for_each_complete. intros seq_len Hs.
  apply for_each_complete. intros batch_size Hb.
  destruct (Hdec model seq_len batch_size true Hm Hs Hb) as [x Ex].
  destruct (Hdec model seq_len batch_size false Hm Hs Hb) as [n En].
  unfold decoded. rewrite Ex, En. by apply sweep_body_complete.
Qed.

Lemma sample_reports : reports sample_output (list_ascii_of_string "s").
Proof.
  left. exists [list_ascii_of_string "warming up"],
    (list_ascii_of_string "   Results: bert 8 128 0.0123 s"),
    [list_ascii_of_string "Results: bert 8 128 0.5 s"].
  split; [reflexivity|]. split; [|split; [|reflexivity]].
  - exists (list_ascii_of_string "   "), (list_ascii_of_string "bert"),
      (list_ascii_of_string "8"), (list_ascii_of_string "128"),
      (list_ascii_of_string "0.0123"), (list_ascii_of_string "s").
    unfold token. repeat split; try discriminate;
      repeat (apply Forall_cons; split; [reflexivity|]); apply Forall_nil_2.
  - intros l' Hl' Hm. apply list_elem_of_singleton in Hl'. subst l'.
    apply matching_line_found in Hm. discriminate Hm.
Qed.

(** C9: for each captured output, if it has a line that matches the
    five-token "Results:" pattern, the latency extracted is the last
    whitespace-delimited token of the first such line, and if no line
    matches it is the sentinel "N/A": the latency extracted is the one the
    specification reports, which exists for every output.  A missing match
    never makes the sweep fail: when the captured outputs decode, the sweep
    runs to its end and prints the block of every triple, in order, with
    the two reported latencies in its row. *)
Theorem reported_latency :
  (forall out tok, reports out tok -> latency out = Ok tok) /\
  exists rep : text -> text,
    (forall out, reports out (rep out)) /\
    forall (run_benchmark : string -> string -> nat -> nat -> bool -> bytes)
           (decode : bytes -> result text) (transformers_dir : string)
           (models : list string) (sequence_lengths batch_sizes : list nat),
      (forall model seq_len batch_size xla,
         model ∈ models -> seq_len ∈ sequence_lengths -> batch_size ∈ batch_sizes ->
         exists t, decode (run_benchmark transformers_dir model batch_size seq_len xla)
                   = Ok t) ->
      sweep run_benchmark decode transformers_dir models sequence_lengths batch_sizes
      = (expected_output rep run_benchmark decode transformers_dir models
                         sequence_lengths batch_sizes, Ok tt).
Proof.
  split; [exact reports_latency|].
  exists extracted. split; [exact extracted_reports|].
  intros run_benchmark decode transformers_dir models sequence_lengths batch_sizes Hdec.
  by apply sweep_complete.
Qed.

Lemma reported_latency_witness :
  reports sample_output (list_ascii_of_string "s") /\
  latency sample_output = Ok (list_ascii_of_string "s").
Proof.
  split.
  - exact sample_reports.
  - exact (proj1 reported_latency sample_output (list_ascii_of_string "s") sample_reports).
Defined.



(** * The first update, in general *)

Lemma first_update_moves lr_ eps_ theta g :
  lr_ <> 0%R -> (0 <= eps_)%R -> g <> 0%R ->
  (theta - lr_ * g / (Rabs g + eps_))%R <> theta.
Proof.
  intros Hlr Heps Hg Heq.
  assert (0 < Rabs g)%R as Habs by (by apply Rabs_pos_lt).
  assert (lr_ * g / (Rabs g + eps_) = 0)%R as H0 by lra.
  unfold Rdiv in H0. apply Rmult_integral in H0 as [H0|H0].
  - apply Rmult_integral in H0 as [?|?]; done.
  - revert H0. apply Rinv_neq_0_compat. lra.
Qed.

Lemma first_update_stays lr_ eps_ theta :
  (theta - lr_ * 0 / (Rabs 0 + eps_))%R = theta.
Proof. unfold Rdiv. ring. Qed.

(** C2, amended: on the very first call for a parameter in which the skip
    signal is unset (step count 0, moments still zero) the step count goes
    from 0 to 1 before the update is computed, so the zero-step-size guard
    does not apply and the update is the ordinary one with t = 1.  In a
    call that completes, with betas in [0,1), the moments become
    (1 - b1) g' and (1 - b2) g'^2 and every element moves from theta to
    theta - lr g' / (|g'| + eps), where g' is the gradient, with weight
    decay times theta added when the weight decay is nonzero: the value
    changes wherever g' is nonzero (lr nonzero, eps >= 0) and stays only
    where g' is zero.  In the scenario (parameter 1.0, gradient 0.1,
    lr = 0.001, betas = (0.9, 0.999), eps = 1e-8, no weight decay, no
    amsgrad, skip signal unset twice) step 1 sets the moments to 0.01 and
    0.00001 and takes delta = 0.0001 / (0.1 + eps) off the parameter, a
    positive amount less than lr, and step 2 takes the same positive amount
    less than lr off again. *)
Theorem first_step_is_an_ordinary_update :
  (forall closure fi w w' r group k g,
     step closure (Some fi) w = (w', Ok r) ->
     fitem fi = false ->
     NoDup (all_params w) ->
     group ∈ param_groups w -> k ∈ params group ->
     grad (heap (after_closure closure w) k) = Some g ->
     untouched_moments (amsgrad group) w k ->
     valid_betas group ->
     steps w' k = 1 /\
     forall i theta gi,
       value w k !! i = Some theta -> gdata g !! i = Some gi ->
       let g' := rule_grad (weight_decay group) theta gi in
       let theta' := (theta - lr group * g' / (Rabs g' + eps group))%R in
       first_moment w' k !! i = Some ((1 - fst (betas group)) * g')%R /\
       second_moment w' k !! i = Some ((1 - snd (betas group)) * g' ^ 2)%R /\
       value w' k !! i = Some theta' /\
       (lr group <> 0%R -> (0 <= eps group)%R -> g' <> 0%R -> theta' <> theta) /\
       ((0 < eps group)%R -> g' = 0%R -> theta' = theta)) /\
  (let w1 := run [Step None (Some unset)] scenario in
   let w2 := run [Step None (Some unset); Step None (Some unset)] scenario in
   (0 < scenario_delta < default_lr)%R /\
   steps w1 the_param = 1 /\
   first_moment w1 the_param = [(1 / 100)%R] /\
   second_moment w1 the_param = [(1 / 100000)%R] /\
   value w1 the_param = [(1 - scenario_delta)%R] /\
   steps w2 the_param = 2 /\
   value w2 the_param = [(1 - scenario_delta - scenario_delta)%R]).
Proof.
  split; [|exact scenario_two_steps].
  intros closure fi w w' r group k g Hstep Hfi Hnd Hgroup Hk Hg
         (Hzero & Hm0 & Hv0 & Hmax0) [Hb1 Hb2].
  pose proof (step_Ok_dense _ _ _ _ _ _ _ _ Hstep Hgroup Hk Hg) as Hdense.
  destruct (step_update_views _ _ _ _ _ _ _ _ Hstep Hfi Hnd Hgroup Hk Hg Hdense)
    as (_ & Hsteps & _ & _ & _ & _ & _ & _ & Helem).
  rewrite Hzero in Hsteps, Helem. split; [done|].
  intros i theta gi Hth Hgi g' theta'.
  assert (first_moment w k !! i = Some 0%R) as Hm.
  { rewrite Hm0. by apply (lookup_zeros_like _ _ theta). }
  assert (second_moment w k !! i = Some 0%R) as Hv.
  { rewrite Hv0. by apply (lookup_zeros_like _ _ theta). }
  destruct (Helem i theta gi 0%R 0%R Hth Hgi Hm Hv) as (H1 & H2 & H3).
  fold g' in H1, H2, H3.
  split; [rewrite H1; f_equal; unfold rule_m; ring|].
  split; [rewrite H2; f_equal; unfold rule_v; ring|].
  split; [|split].
  - unfold theta'. destruct (amsgrad group).
    + destruct H3 as (vmax & Hvm & _ & ->). f_equal.
      assert (vmax = 0%R) as ->.
      { rewrite (Hmax0 eq_refl) in Hvm.
        rewrite (lookup_zeros_like _ _ theta) in Hvm by done. by injection Hvm. }
      rewrite Rmax_right.
      * by apply first_update_closed_form.
      * unfold rule_v. pose proof (pow2_ge_0 g'). nra.
    + rewrite H3. f_equal. by apply first_update_closed_form.
  - intros Hlr Heps Hg'. by apply first_update_moves.
  - intros Heps Hg'. unfold theta'. rewrite Hg'. apply first_update_stays.
Qed.

Lemma zero_gradient_steppable : steppable zero_gradient.
Proof.
  split.
  - unfold all_params. simpl. apply NoDup_singleton.
  - intros group ->%list_elem_of_singleton. split.
    + unfold valid_betas, scenario_group, default_betas. simpl. lra.
    + intros k _. split.
      * simpl. by intros g [= <-].
      * simpl. by intros s.
Qed.

Lemma first_step_is_an_ordinary_update_witness :
  let w' := fst (step None (Some unset) zero_gradient) in
  steps w' the_param = 1 /\
  first_moment w' the_param !! 0 = Some ((1 - 9 / 10) * 0)%R /\
  second_moment w' the_param !! 0 = Some ((1 - 999 / 1000) * 0 ^ 2)%R /\
  value w' the_param !! 0 = Some 1%R.
Proof.
  intros w'.
  destruct (step_total None unset zero_gradient eq_refl zero_gradient_steppable)
    as [w1 E].
  destruct (proj1 first_step_is_an_ordinary_update None unset zero_gradient w' None
              scenario_group the_param (mkGradient [0%R] false)) as [Hsteps Helem].
  - unfold w'. rewrite E. reflexivity.
  - reflexivity.
  - unfold all_params. simpl. apply NoDup_singleton.
  - simpl. apply list_elem_of_singleton. reflexivity.
  - simpl. apply list_elem_of_singleton. reflexivity.
  - reflexivity.
  - unfold untouched_moments. repeat split.
  - unfold valid_betas. simpl. lra.
  - split; [exact Hsteps|].
    destruct (Helem 0 1%R 0%R eq_refl eq_refl) as (H1 & H2 & H3 & _ & Hstay).
    rewrite rule_grad_no_decay in H1, H2, H3, Hstay.
    split; [exact H1|]. split; [exact H2|].
    rewrite H3. f_equal. apply Hstay.
    + unfold scenario_group, default_eps. simpl. lra.
    + reflexivity.
Defined.
